(** * Deduplication and indexing pipeline of the Aesop fables corpus

    A shallow embedding of [deduplicate_fables.py] (title normaliser,
    duplicate grouper, version scorer, removed-entry audit list, statistics
    of [main]) and of [embed_fables.py] (cleaning of the text, id
    assignment, batching, the prompts of [main]), with the properties of
    the specification stated and proved over it, followed by further
    properties of the code.

    Conventions of the embedding.
    - A Python [str] is a list of characters.  The character type is
      [ascii], read as the code points U+0000 to U+00FF; the character
      classes [\s], [\w] and [str.lower] are those of Python 3 on that
      range (which [str.lower] maps to itself).
    - A JSON record is a record of optional fields; a missing key makes a
      subscript raise [KeyError], as in Python.
    - Python floats are IEEE 754 binary64 numbers: primitive floats.
    - A [dict] is an association list in insertion order. *)

From Stdlib Require Import List Ascii String ZArith NArith Bool Lia Floats.
From Stdlib Require Import DecimalString DecimalNat Permutation.
From Stdlib Require DecimalFacts.
Import ListNotations.

(** A decimal literal such as [0.1] denotes the binary64 number nearest
    to it, in Python as here. *)
Set Warnings "-inexact-float".

Open Scope string_scope.
Open Scope list_scope.

(** ** Strings *)

Definition str := list ascii.

Coercion list_ascii_of_string : string >-> list.

Definition code (c : ascii) : N := N_of_ascii c.

Definition in_range (lo hi : N) (c : ascii) : bool :=
  ((lo <=? code c) && (code c <=? hi))%N.

(** [\s] and [str.isspace]: TAB..CR, FS..US, SPACE, NEL, NBSP. *)
Definition isspace (c : ascii) : bool :=
  in_range 9 13 c || in_range 28 32 c || in_range 133 133 c
  || in_range 160 160 c.

(** [str.isalnum] below U+0100: the ASCII letters and digits, the letters
    U+00AA, U+00B5, U+00BA, U+00C0..U+00FF without the two operators
    U+00D7 and U+00F7, and the numeric characters U+00B2, U+00B3, U+00B9,
    U+00BC..U+00BE. *)
Definition isalnum (c : ascii) : bool :=
  in_range 48 57 c || in_range 65 90 c || in_range 97 122 c
  || in_range 170 170 c || in_range 178 179 c || in_range 181 181 c
  || in_range 185 186 c || in_range 188 190 c
  || in_range 192 214 c || in_range 216 246 c || in_range 248 255 c.

(** [\w]: alphanumeric or the underscore. *)
Definition isword (c : ascii) : bool :=
  isalnum c || in_range 95 95 c.

Definition lower_char (c : ascii) : ascii :=
  if in_range 65 90 c || in_range 192 214 c || in_range 216 222 c
  then ascii_of_N (code c + 32)
  else c.

(** [s.lower()] *)
Definition lower (s : str) : str := map lower_char s.

Definition ascii_eqb (a b : ascii) : bool := Ascii.eqb a b.

Fixpoint str_eqb (a b : str) : bool :=
  match a, b with
  | [], [] => true
  | x :: a', y :: b' => ascii_eqb x y && str_eqb a' b'
  | _, _ => false
  end.

(** [starts_with p s] is the rest of [s] after the prefix [p], if [s]
    begins with [p]. *)
Fixpoint starts_with (p s : str) : option str :=
  match p, s with
  | [], _ => Some s
  | x :: p', y :: s' => if ascii_eqb x y then starts_with p' s' else None
  | _ :: _, [] => None
  end.

(** [needle in haystack] *)
Fixpoint contains (needle haystack : str) : bool :=
  match starts_with needle haystack with
  | Some _ => true
  | None =>
      match haystack with
      | [] => false
      | _ :: rest => contains needle rest
      end
  end.

(** The longest run [\s*] at the head of [s] is dropped. *)
Fixpoint drop_space (s : str) : str :=
  match s with
  | c :: r => if isspace c then drop_space r else s
  | [] => []
  end.

(** [s.strip()] *)
Definition strip (s : str) : str :=
  rev (drop_space (rev (drop_space s))).

(** ** Title normaliser ([normalize_title]) *)

Definition articles : list str := ["the" : str; "a" : str; "an" : str].
Definition genres : list str := ["fable" : str; "story" : str; "tale" : str].

(** One alternative of [^(the|a|an)\s+] tried at the start of [s]: the
    token, then at least one white space, taken greedily.  The result is
    what follows the match. *)
Definition match_token_spaces (tok s : str) : option str :=
  match starts_with tok s with
  | Some (c :: r) => if isspace c then Some (drop_space r) else None
  | _ => None
  end.

(** The alternatives of a group are tried in order. *)
Fixpoint first_match {A} (alt : str -> str -> option A) (toks : list str)
    (s : str) : option A :=
  match toks with
  | [] => None
  | tok :: toks' =>
      match alt tok s with
      | Some r => Some r
      | None => first_match alt toks' s
      end
  end.

(** [re.sub(r'^(the|a|an)\s+', '', s)]: [^] only matches at offset 0, so
    there is at most one replacement. *)
Definition sub_article (s : str) : str :=
  match first_match match_token_spaces articles s with
  | Some rest => rest
  | None => s
  end.

(** [$]: the end of the string, or just before a newline that ends it. *)
Definition at_end (s : str) : bool :=
  match s with
  | [] => true
  | [c] => (code c =? 10)%N
  | _ => false
  end.

(** One alternative of [(fable|story|tale)$] tried right after [\s+]. *)
Definition match_token_end (tok s : str) : option str :=
  match starts_with tok s with
  | Some r => if at_end r then Some r else None
  | None => None
  end.

(** [re.sub(r'\s+(fable|story|tale)$', '', s)]: the string is scanned from
    the left; at a white-space character [\s+] takes the whole run (giving
    characters back cannot help: no token starts with white space), and
    the token must then reach [$].  What follows a match is empty or the
    final newline, where no second match can start. *)
Fixpoint sub_genre (s : str) : str :=
  match s with
  | [] => []
  | c :: r =>
      if isspace c then
        match first_match match_token_end genres (drop_space r) with
        | Some rest => rest
        | None => c :: sub_genre r
        end
      else c :: sub_genre r
  end.

(** [re.sub(r'[^\w\s]', '', s)] *)
Definition sub_punct (s : str) : str :=
  filter (fun c => isword c || isspace c) s.

(** [re.sub(r'\s+', ' ', s)]: [in_run] tells that the previous character
    belonged to the run being replaced. *)
Fixpoint sub_spaces (in_run : bool) (s : str) : str :=
  match s with
  | [] => []
  | c :: r =>
      if isspace c then
        if in_run then sub_spaces true r else " "%char :: sub_spaces true r
      else c :: sub_spaces false r
  end.

Definition normalize_title (title : str) : str :=
  let title := lower title in
  let title := sub_article title in
  let title := sub_genre title in
  let title := sub_punct title in
  strip (sub_spaces false title).

(** ** Exceptions *)

Inductive exn : Type :=
| KeyError (key : string)
| ValueError
| IndexError
| BatchSizeExceeded.

Inductive result (A : Type) : Type :=
| Ok (a : A)
| Raise (e : exn).

Arguments Ok {A} a.
Arguments Raise {A} e.

Definition bind {A B} (c : result A) (k : A -> result B) : result B :=
  match c with
  | Ok a => k a
  | Raise e => Raise e
  end.

Notation "x <- c ;; k" := (bind c (fun x => k))
  (at level 61, c at next level, right associativity).
Notation "c ;;; k" := (bind c (fun _ => k))
  (at level 61, right associativity).

(** A [for] loop that threads the variables it assigns. *)
Fixpoint for_each {A S} (body : S -> A -> result S) (l : list A) (s : S)
    : result S :=
  match l with
  | [] => Ok s
  | x :: r => s' <- body s x ;; for_each body r s'
  end.

(** ** Records *)

Record fable : Type := mkFable {
  title : option str;
  original_title : option str;
  url : option str;
  content : option str;
  word_count : option Z
}.

(** [fable[key]] *)
Definition subscript {A} (field : fable -> option A) (key : string)
    (f : fable) : result A :=
  match field f with
  | Some v => Ok v
  | None => Raise (KeyError key)
  end.

Definition str_eq_dec : forall a b : str, {a = b} + {a <> b} :=
  list_eq_dec ascii_dec.

(** Equality of two records, as [==] on two [dict]s. *)
Definition fable_eq_dec (a b : fable) : {a = b} + {a <> b}.
Proof.
  decide equality; try (decide equality; apply str_eq_dec).
  decide equality; apply Z.eq_dec.
Defined.

Definition fable_eqb (a b : fable) : bool :=
  if fable_eq_dec a b then true else false.

(** ** Version scorer ([choose_best_version]) *)

Definition word_score (word_count : Z) : float :=
  if ((100 <=? word_count) && (word_count <=? 500))%Z then 1.0%float
  else if ((50 <=? word_count) && (word_count <? 100))%Z then 0.8%float
  else if ((500 <? word_count) && (word_count <=? 1000))%Z then 0.9%float
  else 0.5%float.

Definition moral_markers : list str :=
  ["moral:" : str; "lesson:" : str; "application:" : str].

Definition content_score (content : str) : float :=
  let content_score := 1.0%float in
  let content_score :=
    if contains "AesopFables.com" content
    then (content_score - 0.1)%float else content_score in
  let content_score :=
    if contains "Process took:" content
    then (content_score - 0.2)%float else content_score in
  let content_score :=
    if contains "Copyright" content
    then (content_score - 0.1)%float else content_score in
  if existsb (fun word => contains word (lower content)) moral_markers
  then (content_score + 0.2)%float else content_score.

Definition total_score (word_count : Z) (content : str) : float :=
  (word_score word_count * content_score content)%float.

(** The body of the scoring loop: one entry of [scored_versions]. *)
Definition score_version (f : fable) : result (float * fable) :=
  word_count <- subscript word_count "word_count" f ;;
  content <- subscript content "content" f ;;
  Ok (total_score word_count content, f).

(** [max(items, key=lambda x: x[0])]: the running maximum is replaced
    only by an item whose key is strictly greater. *)
Fixpoint max_from {A} (best : float * A) (rest : list (float * A))
    : float * A :=
  match rest with
  | [] => best
  | x :: r =>
      if (fst best <? fst x)%float then max_from x r else max_from best r
  end.

Definition max_by_score {A} (items : list (float * A))
    : result (float * A) :=
  match items with
  | [] => Raise ValueError
  | x :: r => Ok (max_from x r)
  end.

Definition choose_best_version (duplicates : list fable) : result fable :=
  scored_versions <-
    for_each (fun acc f => sv <- score_version f ;; Ok (acc ++ [sv]))
             duplicates [] ;;
  best <- max_by_score scored_versions ;;
  Ok (snd best).

(** ** Duplicate grouper and deduplication pass ([deduplicate_fables]) *)

(** [title_groups]: keys in insertion order. *)
Definition groups : Type := list (str * list fable).

(** [title_groups[key].append(f)] on a [defaultdict(list)] *)
Fixpoint append_to (key : str) (f : fable) (d : groups) : groups :=
  match d with
  | [] => [(key, [f])]
  | (k, g) :: d' =>
      if str_eqb k key then (k, g ++ [f]) :: d'
      else (k, g) :: append_to key f d'
  end.

Definition group_fables (fables : list fable) : result groups :=
  for_each
    (fun title_groups f =>
       t <- subscript title "title" f ;;
       Ok (append_to (normalize_title t) f title_groups))
    fables [].

(** [s.split(sep)] for a separator of at least one character: [cur] is the
    piece being read, in reverse; [skip] counts the characters of a
    separator just found that are still to be passed over. *)
Fixpoint split_go (sep s : str) (skip : nat) (cur : str) : list str :=
  match s with
  | [] => [rev cur]
  | c :: r =>
      match skip with
      | S k => split_go sep r k cur
      | O =>
          match starts_with sep s with
          | Some _ => rev cur :: split_go sep r (List.length sep - 1) []
          | None => split_go sep r 0 (c :: cur)
          end
      end
  end.

Definition split (sep s : str) : list str := split_go sep s 0 [].

Definition srch : str := "?srch&".

(** [url.split('?srch&')[-1] if '?srch&' in url else url] *)
Definition url_suffix (u : str) : str :=
  if contains srch u then last (split srch u) [] else u.

(** The two [print] calls over a group and its best version read these
    keys. *)
Definition print_version (f : fable) : result unit :=
  subscript title "title" f ;;; subscript word_count "word_count" f ;;;
  Ok tt.

Record dedup_state : Type := mkState {
  deduplicated_fables : list fable;
  duplicates_found : Z;
  removed_stories : list str
}.

(** The loop that tracks the removed stories of one group. *)
Definition track_removed (best_version : fable) (group : list fable)
    (removed : list str) : result (list str) :=
  for_each
    (fun removed f =>
       if negb (fable_eqb f best_version) then
         u <- subscript url "url" f ;;
         Ok (removed ++ [url_suffix u])
       else Ok removed)
    group removed.

(** The body of the loop over [title_groups.items()]. *)
Definition dedup_group (st : dedup_state) (item : str * list fable)
    : result dedup_state :=
  let group := snd item in
  if (1 <? List.length group)%nat then
    for_each (fun _ f => print_version f) group tt ;;;
    best_version <- choose_best_version group ;;
    print_version best_version ;;;
    removed <- track_removed best_version group (removed_stories st) ;;
    Ok (mkState (deduplicated_fables st ++ [best_version])
                (duplicates_found st + (Z.of_nat (List.length group) - 1))
                removed)
  else
    match group with
    | first :: _ =>
        Ok (mkState (deduplicated_fables st ++ [first])
                    (duplicates_found st) (removed_stories st))
    | [] => Raise IndexError
    end.

Definition deduplicate_fables (fables : list fable) : result dedup_state :=
  title_groups <- group_fables fables ;;
  for_each dedup_group title_groups (mkState [] 0 []).

(** ** Vector store ([FableEmbedder.embed_fables]) *)

Record metadata : Type := mkMeta {
  meta_title : str;
  meta_original_title : str;
  meta_url : str;
  meta_word_count : Z;
  meta_cleaned_length : Z
}.

(** [f"{i:04d}"] for a natural number: its decimal digits, padded with
    zeros on the left to four characters. *)
Definition decimal (i : nat) : str :=
  list_ascii_of_string (NilZero.string_of_uint (Nat.to_uint i)).

Definition format_04d (i : nat) : str :=
  repeat "0"%char (4 - List.length (decimal i)) ++ decimal i.

Definition fable_id (i : nat) : str := "fable_" ++ format_04d i.

(** [l[i:j]] for [i <= j] *)
Definition slice {A} (l : list A) (i j : nat) : list A :=
  firstn (j - i) (skipn i l).

(** [enumerate(l)] *)
Definition enumerate {A} (l : list A) : list (nat * A) :=
  combine (seq 0 (List.length l)) l.

Definition batch_size : nat := 100.

(** [range(0, n, batch_size)] *)
Definition batch_starts (n : nat) : list nat :=
  map (fun j => j * batch_size)%nat
      (seq 0 ((n + batch_size - 1) / batch_size)).

Section Store.

(** [FableEmbedder.clean_content], a chain of substitutions on the text of
    a fable; the identifiers and the order of the entries do not depend on
    what it returns. *)
Variable clean_content : str -> str.

(** The embedding function of the collection, an external collaborator. *)
Variable vector : Type.
Variable embed : str -> vector.

(** The largest batch that the collection accepts. *)
Variable max_batch : nat.

Record indexed_entry : Type := mkEntry {
  entry_id : str;
  entry_vector : vector;
  entry_metadata : metadata;
  entry_document : str
}.

(** Modelled from the spec: the collection object of the store (a
    third-party library whose code is not part of the sources).  It
    persists (id, vector, metadata, document) entries, append-only; a full
    scan returns them in insertion order; a batch larger than the
    configured maximum is refused. *)
Definition collection : Type := list indexed_entry.

(** Modelled from the spec: the entry persisted for an id, a metadata
    and a document; the vector is computed by the embedding function. *)
Definition new_entry (x : str * (metadata * str)) : indexed_entry :=
  mkEntry (fst x) (embed (snd (snd x))) (fst (snd x)) (snd (snd x)).

(** Modelled from the spec: [collection.add], the batch insert.  It
    appends one entry per item, in the order of the batch.  The
    specification gives every entry an identifier of its own and does not
    say what the store does with an identifier that it already holds: the
    properties that read a collection back are stated where the batches
    bring no such identifier. *)
Definition collection_add (documents : list str) (metadatas : list metadata)
    (ids : list str) (c : collection) : result collection :=
  if (List.length documents <=? max_batch)%nat then
    Ok (c ++ map new_entry (combine ids (combine metadatas documents)))
  else Raise BatchSizeExceeded.

(** Modelled from the spec: the full scan, in insertion order. *)
Definition get_all (c : collection) : list indexed_entry := c.

(** Modelled from the spec: the number of entries. *)
Definition count (c : collection) : nat := List.length c.

(** The body of the loop that prepares the data. *)
Definition prepare_fable (acc : list str * list metadata * list str)
    (item : nat * fable) : result (list str * list metadata * list str) :=
  let '(documents, metadatas, ids) := acc in
  let (i, fable) := item in
  raw <- subscript content "content" fable ;;
  let cleaned_content := clean_content raw in
  t <- subscript title "title" fable ;;
  o <- subscript original_title "original_title" fable ;;
  u <- subscript url "url" fable ;;
  w <- subscript word_count "word_count" fable ;;
  Ok (documents ++ [cleaned_content],
      metadatas ++ [mkMeta t o u w (Z.of_nat (List.length cleaned_content))],
      ids ++ [fable_id i]).

(** The body of the loop that adds the batches. *)
Definition add_batch (documents : list str) (metadatas : list metadata)
    (ids : list str) (c : collection) (i : nat) : result collection :=
  let end_idx := Nat.min (i + batch_size) (List.length documents) in
  collection_add (slice documents i end_idx) (slice metadatas i end_idx)
                 (slice ids i end_idx) c.

Definition embed_fables (fables : list fable) (c : collection)
    : result collection :=
  prepared <- for_each prepare_fable (enumerate fables) ([], [], []) ;;
  let '(documents, metadatas, ids) := prepared in
  for_each (add_batch documents metadatas ids)
           (batch_starts (List.length documents)) c.

(** The entry of the record [f] submitted at position [i]. *)
Definition entry_of (i : nat) (f : fable) : option indexed_entry :=
  match title f, original_title f, url f, content f, word_count f with
  | Some t, Some o, Some u, Some raw, Some w =>
      let cleaned := clean_content raw in
      Some (mkEntry (fable_id i) (embed cleaned)
                    (mkMeta t o u w (Z.of_nat (List.length cleaned)))
                    cleaned)
  | _, _, _, _, _ => None
  end.

(** The entry of an item of [enumerate(fables)]. *)
Definition enumerated_entry (item : nat * fable) : option indexed_entry :=
  entry_of (fst item) (snd item).

End Store.

Arguments mkEntry {vector} _ _ _ _.
Arguments entry_id {vector} _.
Arguments entry_vector {vector} _.
Arguments entry_metadata {vector} _.
Arguments entry_document {vector} _.
Arguments new_entry {vector} _ _.
Arguments collection_add {vector} _ _ _ _ _ _.
Arguments get_all {vector} _.
Arguments count {vector} _.
Arguments add_batch {vector} _ _ _ _ _ _ _.
Arguments embed_fables _ {vector} _ _ _ _.
Arguments entry_of _ {vector} _ _ _.
Arguments enumerated_entry _ {vector} _ _.

(** ** Observers used in the statements *)

(** The normalised key of a record that has a title. *)
Definition fable_key (f : fable) : option str :=
  option_map normalize_title (title f).

Definition has_key (k : str) (f : fable) : bool :=
  match fable_key f with
  | Some k' => str_eqb k' k
  | None => false
  end.

(** The distinct elements of [ks] in the order of their first occurrence;
    [seen] holds the elements met so far. *)
Fixpoint first_seen (seen ks : list str) : list str :=
  match ks with
  | [] => []
  | k :: r =>
      if existsb (fun k' => str_eqb k' k) seen then first_seen seen r
      else k :: first_seen (seen ++ [k]) r
  end.

(** The group of a key in the dictionary ([[]] for an absent key). *)
Fixpoint lookup (k : str) (d : groups) : list fable :=
  match d with
  | [] => []
  | (k', g) :: d' => if str_eqb k' k then g else lookup k d'
  end.

(** The grouping loop over records that all have a title. *)
Definition group_by (key : fable -> str) (fables : list fable) (d : groups)
    : groups :=
  fold_left (fun d f => append_to (key f) f d) fables d.

(** The key of a record; the default is never used on a record that has a
    title. *)
Definition key_of (f : fable) : str :=
  match fable_key f with
  | Some k => k
  | None => []
  end.

(** What it means for [tg] to be the order-preserving partition of
    [fables] by normalised title, [titles] being the titles of [fables]. *)
Definition ordered_partition (fables : list fable) (titles : list str)
    (tg : groups) : Prop :=
  (* the groups come in the order in which their keys are first seen *)
  map fst tg = first_seen [] (map normalize_title titles) /\
  NoDup (map fst tg) /\
  (* a group holds the records of its key, in input order *)
  (forall k g, In (k, g) tg -> g = filter (has_key k) fables /\ g <> []) /\
  (* every record is in a group, and in one only *)
  (forall f, In f fables -> exists k g, In (k, g) tg /\ In f g) /\
  (forall f k1 g1 k2 g2,
     In (k1, g1) tg -> In (k2, g2) tg -> In f g1 -> In f g2 ->
     (k1, g1) = (k2, g2)) /\
  (* the groups together are the input, record for record *)
  Permutation (List.concat (map snd tg)) fables.

(** The score of a record that has a word count and a content. *)
Definition fable_score (f : fable) : option float :=
  match word_count f, content f with
  | Some w, Some c => Some (total_score w c)
  | _, _ => None
  end.

Definition scorable (f : fable) : bool :=
  match fable_score f with
  | Some _ => true
  | None => false
  end.



(** The score with a default that is never used on a scorable record. *)
Definition score_of (f : fable) : float :=
  match fable_score f with
  | Some s => s
  | None => 0%float
  end.

Definition scored (f : fable) : float * fable := (score_of f, f).

(** The choice among the scorable records [first :: others]. *)
Definition best_of (first : fable) (others : list fable) : fable :=
  snd (max_from (scored first) (map scored others)).

(** The word score in the words of the specification (its cases come in
    another order than in the code). *)
Definition spec_word_score (word_count : Z) : float :=
  if ((100 <=? word_count) && (word_count <=? 500))%Z then 1.0%float
  else if ((500 <? word_count) && (word_count <=? 1000))%Z then 0.9%float
  else if ((50 <=? word_count) && (word_count <? 100))%Z then 0.8%float
  else 0.5%float.

(** A content with none of the penalty markers and none of the moral
    markers. *)
Definition no_markers (c : str) : bool :=
  negb (contains "AesopFables.com" c) &&
  negb (contains "Process took:" c) &&
  negb (contains "Copyright" c) &&
  negb (existsb (fun word => contains word (lower c)) moral_markers).

(** The scores that [total_score] can take: one of four word scores times
    one of the content scores that the four tests can produce. *)
Definition flag_score (site footer copyright moral : bool) : float :=
  let content_score := 1.0%float in
  let content_score :=
    if site then (content_score - 0.1)%float else content_score in
  let content_score :=
    if footer then (content_score - 0.2)%float else content_score in
  let content_score :=
    if copyright then (content_score - 0.1)%float else content_score in
  if moral then (content_score + 0.2)%float else content_score.

Definition score_values : list float :=
  flat_map (fun w =>
    flat_map (fun a =>
      flat_map (fun b =>
        flat_map (fun c =>
          map (fun m => (w * flag_score a b c m)%float) [true; false])
          [true; false])
        [true; false])
      [true; false])
    [1.0; 0.8; 0.9; 0.5]%float.




(** A raw record of the data model: every field is present. *)
Definition complete (f : fable) : bool :=
  match title f, original_title f, url f, content f, word_count f with
  | Some _, Some _, Some _, Some _, Some _ => true
  | _, _, _, _, _ => false
  end.

(** The URL with a default that is never used on a complete record. *)
Definition url_of (f : fable) : str :=
  match url f with
  | Some u => u
  | None => []
  end.

(** What the pass over the groups computes when no subscript raises: the
    survivor of each group, the audit entries of each group, and the
    counter of duplicates. *)
Definition survivor_of (g : list fable) : list fable :=
  match g with
  | first :: others => [best_of first others]
  | [] => []
  end.

Definition removed_of (best : fable) (g : list fable) : list str :=
  map (fun f => url_suffix (url_of f))
      (filter (fun f => negb (fable_eqb f best)) g).

Definition removed_in (g : list fable) : list str :=
  match g with
  | first :: others => removed_of (best_of first others) g
  | [] => []
  end.

Definition survivors (tg : groups) : list fable :=
  flat_map (fun item => survivor_of (snd item)) tg.

Definition removals (tg : groups) : list str :=
  flat_map (fun item => removed_in (snd item)) tg.

Definition count_duplicates (tg : groups) : Z :=
  fold_right (fun item n => (Z.of_nat (List.length (snd item)) - 1 + n)%Z)
             0%Z tg.

(** A group on which the body of the pass cannot raise: one record, or
    several complete ones. *)
Definition group_ok (g : list fable) : bool :=
  match g with
  | [] => false
  | [_] => true
  | _ => forallb complete g
  end.

(** The audit trail of a pass that grouped [fables] into [tg] and ended
    in the state [st]. *)
Definition audit_trail (fables : list fable) (tg : groups)
    (st : dedup_state) : Prop :=
  (* every candidate of a group of several that is not the selected
     record has its entry *)
  (forall k g best c u,
     In (k, g) tg -> (1 < List.length g)%nat ->
     choose_best_version g = Ok best ->
     In c g -> c <> best -> url c = Some u ->
     In (url_suffix u) (removed_stories st)) /\
  (* no record leaves the output without an entry *)
  (forall c u,
     In c fables -> url c = Some u ->
     In c (deduplicated_fables st) \/
     In (url_suffix u) (removed_stories st)).

(** The entry of a URL: what follows its last ['?srch&'], or the URL
    itself when it holds none. *)
Definition suffix_of_url (u suffix : str) : Prop :=
  (contains srch u = true ->
   exists pre, u = pre ++ srch ++ suffix /\ contains srch suffix = false) /\
  (contains srch u = false -> suffix = u).

(** ** Shapes of titles *)

(** An optional leading article token with the white space after it. *)
Inductive article_prefix : str -> Prop :=
| no_article : article_prefix []
| an_article art w ws :
    In (lower art) articles -> forallb isspace (w :: ws) = true ->
    article_prefix (art ++ w :: ws).

(** An optional trailing genre token with the white space before it. *)
Inductive genre_suffix : str -> Prop :=
| no_genre : genre_suffix []
| a_genre w ws gen :
    forallb isspace (w :: ws) = true -> In (lower gen) genres ->
    genre_suffix ((w :: ws) ++ gen).

(** A body: it begins with a character that is not white space, its
    first word is not an article token, and it does not end in white
    space and a genre token. *)
Definition body_ok (body : str) : bool :=
  let b := lower body in
  match b with
  | c :: _ => negb (isspace c)
  | [] => false
  end
  && match first_match match_token_spaces articles (b ++ " ") with
     | None => true
     | Some _ => false
     end
  && str_eqb (sub_genre b) b.

(** Nothing, or something that begins with white space. *)
Definition starts_space (g : str) : Prop :=
  match g with
  | [] => True
  | w :: _ => isspace w = true
  end.

(** The last three steps of the normaliser. *)
Definition clean (s : str) : str :=
  strip (sub_spaces false (sub_punct s)).

(** [s] without its trailing white space. *)
Fixpoint rstrip (s : str) : str :=
  match s with
  | [] => []
  | c :: r => if forallb isspace (c :: r) then [] else c :: rstrip r
  end.

(** Punctuation in the words of the specification: what is not a letter,
    a digit or white space. *)
Definition remove_punctuation (s : str) : str :=
  filter (fun c => isalnum c || isspace c) s.

(** Two titles that differ only by punctuation, by a leading article or
    by a trailing genre word. *)
Inductive differ_only_by : str -> str -> Prop :=
| only_punctuation t1 t2 :
    remove_punctuation t1 = remove_punctuation t2 -> differ_only_by t1 t2
| only_article art t :
    In (lower art) articles -> differ_only_by (art ++ " " ++ t) t
| only_genre t gen :
    In (lower gen) genres -> differ_only_by (t ++ " " ++ gen) t.

(** A record with the three fields that the specification requires. *)
Definition has_required (f : fable) : bool :=
  match title f, content f, word_count f with
  | Some _, Some _, Some _ => true
  | _, _, _ => false
  end.

(** Skip-and-continue in the words of the specification: the pass
    returns, with the result it has on the well-formed records alone. *)
Definition skips_malformed (fables : list fable) : Prop :=
  exists st,
    deduplicate_fables fables = Ok st /\
    deduplicate_fables (filter has_required fables) = Ok st.

(** Sample records. *)
Definition sample (t u c : string) (w : Z) : fable :=
  mkFable (Some (t : str)) (Some (t : str)) (Some (u : str))
          (Some (c : str)) (Some w).

Definition fox_short : fable :=
  sample "The Fox" "https://aesopfables.com/cgi/aesop1.cgi?srch&fabl/a1"
         "A fox saw grapes." 40.
Definition fox_mid : fable :=
  sample "Fox!" "https://aesopfables.com/cgi/aesop1.cgi?srch&fabl/a2"
         "A hungry fox saw some fine bunches of grapes." 250.
Definition crow : fable :=
  sample "The Crow" "https://aesopfables.com/cgi/aesop1.cgi?3&TheCrow"
         "A crow was sitting on a branch." 120.
Definition fox_long : fable :=
  sample "A FOX" "https://aesopfables.com/cgi/aesop1.cgi?srch&fabl/a3"
         "Once upon a time a fox saw grapes." 1500.


Definition untitled : fable :=
  mkFable None None
          (Some ("https://aesopfables.com/cgi/aesop1.cgi?srch&fabl/a9" : str))
          (Some ("A wolf met a lamb." : str)) (Some 80%Z).

Definition the_tale : fable :=
  sample "The Tale" "https://aesopfables.com/cgi/aesop1.cgi?srch&fabl/b1"
         "A tale of a fox." 120.

Definition a_story : fable :=
  sample "A Story" "https://aesopfables.com/cgi/aesop1.cgi?srch&fabl/b2"
         "A story of a crow." 130.

Definition corpus : list fable := [fox_short; crow; fox_mid; fox_long].


(** ** Statistics of the deduplicated corpus ([main] of
    [deduplicate_fables.py]) *)

Module DeduplicateFables.

Record statistics : Type := mkStatistics {
  total_fables : nat;
  min_words : Z;
  max_words : Z;
  average_words : Z
}.

(** [min(l)] and [max(l)] on integers: [ValueError] on an empty list. *)
Definition list_min (l : list Z) : result Z :=
  match l with
  | [] => Raise ValueError
  | x :: r => Ok (fold_left Z.min r x)
  end.

Definition list_max (l : list Z) : result Z :=
  match l with
  | [] => Raise ValueError
  | x :: r => Ok (fold_left Z.max r x)
  end.

(** [sum(l)] *)
Definition list_sum (l : list Z) : Z := fold_left Z.add l 0%Z.

(** [[f['word_count'] for f in fables]] *)
Definition word_counts (fables : list fable) : result (list Z) :=
  for_each (fun acc f => w <- subscript word_count "word_count" f ;;
                         Ok (acc ++ [w]))
           fables [].

(** The statistics that [main] prints after the pass.  The floor division
    [sum(word_counts) // len(word_counts)] is reached only when [min] and
    [max] have returned, that is on a list that is not empty. *)
Definition main (fables : list fable) : result statistics :=
  st <- deduplicate_fables fables ;;
  let deduplicated := deduplicated_fables st in
  counts <- word_counts deduplicated ;;
  lo <- list_min counts ;;
  hi <- list_max counts ;;
  Ok (mkStatistics (List.length deduplicated) lo hi
        (list_sum counts / Z.of_nat (List.length counts))%Z).

End DeduplicateFables.

(** ** Cleaning of the text of a fable ([FableEmbedder.clean_content]) *)

Module FableEmbedder.

Definition newline : ascii := "010"%char.

Definition is_newline (c : ascii) : bool := (code c =? 10)%N.

(** [.*?\n]: the dot matches every character but the newline, so the
    match ends at the first newline.  The result is what follows it. *)
Fixpoint after_first_newline (s : str) : option str :=
  match s with
  | [] => None
  | c :: r => if is_newline c then Some r else after_first_newline r
  end.

(** [re.sub(r'^AesopFables\.com.*?\n', '', content)] *)
Definition sub_header (s : str) : str :=
  match starts_with "AesopFables.com" s with
  | Some r =>
      match after_first_newline r with
      | Some rest => rest
      | None => s
      end
  | None => s
  end.

(** [.*?tok] with [re.DOTALL]: the match ends with the first occurrence of
    [tok].  The result is what follows it. *)
Fixpoint after_first (tok s : str) : option str :=
  match starts_with tok s with
  | Some rest => Some rest
  | None =>
      match s with
      | [] => None
      | _ :: r => after_first tok r
      end
  end.

(** [.*?$] with [re.DOTALL]: characters are taken one at a time until [$]
    matches.  The result is what is left: nothing, or the final newline. *)
Fixpoint lazy_to_end (s : str) : str :=
  match s with
  | [] => []
  | c :: r => if at_end (c :: r) then c :: r else lazy_to_end r
  end.

(** [Process took:.*?Copyright.*?$] tried at the head of [s]. *)
Definition match_footer (s : str) : option str :=
  match starts_with "Process took:" s with
  | Some r =>
      match after_first "Copyright" r with
      | Some x => Some (lazy_to_end x)
      | None => None
      end
  | None => None
  end.

(** [tok1\s*tok2.*?$] tried at the head of [s]: [\s*] takes the whole
    white-space run (the second token does not begin with white space). *)
Definition match_pair (tok1 tok2 s : str) : option str :=
  match starts_with tok1 s with
  | Some r =>
      match starts_with tok2 (drop_space r) with
      | Some x => Some (lazy_to_end x)
      | None => None
      end
  | None => None
  end.

(** [re.sub(pattern, '', s, flags=re.DOTALL)] for a pattern that ends in
    [.*?$]: the leftmost match runs to the end of the text (or to its final
    newline), where no second match can start. *)
Fixpoint sub_to_end (pattern : str -> option str) (s : str) : str :=
  match pattern s with
  | Some rest => rest
  | None =>
      match s with
      | [] => []
      | c :: r => c :: sub_to_end pattern r
      end
  end.

(** [\s*\n] taken greedily at the head of [s]: the number of characters of
    the white-space run up to its last newline, if it holds a newline. *)
Fixpoint blank_run (s : str) : option nat :=
  match s with
  | [] => None
  | c :: r =>
      if isspace c then
        match blank_run r with
        | Some n => Some (S n)
        | None => if is_newline c then Some 1%nat else None
        end
      else None
  end.

(** [re.sub(r'\n\s*\n', '\n\n', s)]: [skip] counts the characters of a
    match just replaced that are still to be passed over. *)
Fixpoint sub_blank_go (s : str) (skip : nat) : str :=
  match s with
  | [] => []
  | c :: r =>
      match skip with
      | S k => sub_blank_go r k
      | O =>
          if is_newline c then
            match blank_run r with
            | Some n => newline :: newline :: sub_blank_go r n
            | None => c :: sub_blank_go r 0
            end
          else c :: sub_blank_go r 0
      end
  end.

Definition sub_blank_lines (s : str) : str := sub_blank_go s 0.

Definition clean_content (content : str) : str :=
  let content := sub_header content in
  let content := sub_to_end match_footer content in
  let content := sub_to_end (match_pair "RETURN" "Process took") content in
  let content := sub_to_end (match_pair "THE END" "RETURN") content in
  let content := sub_blank_lines content in
  strip content.

End FableEmbedder.

(** ** The driver of the embedding ([main] of [embed_fables.py]) *)

Module EmbedFables.

Section Main.

Variable vector : Type.
Variable embed : str -> vector.
Variable max_batch : nat.

(** [input(...).lower().strip() == 'y'] *)
Definition says_yes (answer : str) : bool :=
  str_eqb (strip (lower answer)) "y".

(** Modelled from the spec: [delete_collection] followed by
    [create_collection] destroys every entry of the collection. *)
Definition recreate (c : collection vector) : collection vector := [].

(** The collection that [main] leaves, from the collection that
    [setup_chromadb] found, the fables loaded, and what the operator
    answers to the first and to the second prompt (a prompt that is not
    reached does not read its answer).  The calls of [test_search] and of
    [get_collection_info] that follow only read the collection. *)
Definition main (fables : list fable) (c : collection vector)
    (answer1 answer2 : str) : result (collection vector) :=
  let existing_count := count c in
  let c :=
    if (0 <? existing_count)%nat then
      if says_yes answer1 then recreate c else c
    else c in
  if (existing_count =? 0)%nat
     || ((0 <? existing_count)%nat && says_yes answer2)
  then embed_fables FableEmbedder.clean_content embed max_batch fables c
  else Ok c.

End Main.

End EmbedFables.

Arguments EmbedFables.recreate {vector} _.
Arguments EmbedFables.main {vector} _ _ _ _ _ _.

(** ** Observers for the further properties *)

(** A string without white space at either end. *)
Definition trimmed (s : str) : Prop :=
  (forall c r, s = c :: r -> isspace c = false) /\
  (forall r c, s = r ++ [c] -> isspace c = false).

(** A string without two white-space characters in a row. *)
Definition single_spaced (s : str) : Prop :=
  forall l1 a b l2, s = l1 ++ a :: b :: l2 ->
                    isspace a = true -> isspace b = false.

(** The position that a decimal identifier denotes. *)
Definition decode_decimal (s : str) : option nat :=
  option_map Nat.of_uint
             (NilEmpty.uint_of_string (string_of_list_ascii s)).

(** The first key that the preparation loop of [embed_fables] finds
    missing in a record. *)
Definition first_missing (f : fable) : option string :=
  match content f, title f, original_title f, url f, word_count f with
  | None, _, _, _, _ => Some "content"
  | _, None, _, _, _ => Some "title"
  | _, _, None, _, _ => Some "original_title"
  | _, _, _, None, _ => Some "url"
  | _, _, _, _, None => Some "word_count"
  | _, _, _, _, _ => None
  end.

(** The four tests of [content_score] on a content. *)
Definition site_marker (c : str) : bool := contains "AesopFables.com" c.
Definition footer_marker (c : str) : bool := contains "Process took:" c.
Definition copyright_marker (c : str) : bool := contains "Copyright" c.
Definition moral_marker (c : str) : bool :=
  existsb (fun word => contains word (lower c)) moral_markers.

(** The outcome of the four tests on a content, the content score that
    it gives, and the order "no more penalty markers and no fewer moral
    markers". *)
Definition marker_flags (c : str) : bool * bool * bool * bool :=
  (site_marker c, footer_marker c, copyright_marker c, moral_marker c).

Definition flags_score (x : bool * bool * bool * bool) : float :=
  let '(site, footer, copyright, moral) := x in
  flag_score site footer copyright moral.

Definition cleaner_flags (x y : bool * bool * bool * bool) : bool :=
  let '(site, footer, copyright, moral) := x in
  let '(site', footer', copyright', moral') := y in
  implb site site' && implb footer footer' && implb copyright copyright'
  && implb moral' moral.

Definition same_flags (x y : bool * bool * bool * bool) : bool :=
  let '(site, footer, copyright, moral) := x in
  let '(site', footer', copyright', moral') := y in
  Bool.eqb site site' && Bool.eqb footer footer'
  && Bool.eqb copyright copyright' && Bool.eqb moral moral'.

Definition cleaner (c1 c2 : str) : bool :=
  cleaner_flags (marker_flags c1) (marker_flags c2).

Definition same_markers (c1 c2 : str) : bool :=
  same_flags (marker_flags c1) (marker_flags c2).

Definition all_flags : list (bool * bool * bool * bool) :=
  flat_map (fun a =>
    flat_map (fun b =>
      flat_map (fun c => map (fun m => (a, b, c, m)) [true; false])
               [true; false])
      [true; false])
    [true; false].

Definition word_scores : list float := [1.0; 0.8; 0.9; 0.5]%float.

(** A record that has a title and a content only. *)
Definition title_only : fable :=
  mkFable (Some ("The Wolf" : str)) None None
          (Some ("A wolf met a lamb." : str)) None.

(** The word count with a default that is never used on a record that has
    one. *)
Definition word_count_of (f : fable) : Z :=
  match word_count f with
  | Some w => w
  | None => 0%Z
  end.

(** Whether a record is equal to one of the records kept. *)
Definition kept_in (kept : list fable) (f : fable) : bool :=
  existsb (fable_eqb f) kept.

(** ** Observers for the cleaning of a text *)

(** [squeezed s t]: [t] is [s] in which some runs of white space that
    stand between two newlines have been dropped; this is what the
    substitution of the blank lines does to a text. *)
Inductive squeezed : str -> str -> Prop :=
| squeezed_nil : squeezed [] []
| squeezed_keep c s t : squeezed s t -> squeezed (c :: s) (c :: t)
| squeezed_blank W s t :
    forallb isspace W = true -> squeezed s t ->
    squeezed (FableEmbedder.newline :: W ++ FableEmbedder.newline :: s)
             (FableEmbedder.newline :: FableEmbedder.newline :: t).

(** A text in which two newlines with only white space between them
    stand side by side: no blank line holds white space, and no two blank
    lines follow each other. *)
Definition blank_lines_collapsed (s : str) : Prop :=
  forall l1 W l2,
    s = l1 ++ FableEmbedder.newline :: W ++ FableEmbedder.newline :: l2 ->
    forallb isspace W = true -> W = [].

(** The texts that the three footer patterns match up to their last
    token: [Process took:.*?Copyright], and [tok1\s*tok2]. *)
Definition footer_match (m : str) : Prop :=
  exists mid, m = "Process took:" ++ mid ++ "Copyright".

Definition pair_match (tok1 tok2 m : str) : Prop :=
  exists W, forallb isspace W = true /\ m = tok1 ++ W ++ tok2.

(** A text that holds a match of [B]. *)
Definition occurs (B : str -> Prop) (s : str) : Prop :=
  exists l1 m l3, B m /\ s = l1 ++ m ++ l3.

(** What a footer pattern returns: the final newline of the text, or
    nothing. *)
Definition tail_of (s t : str) : Prop :=
  (t = [] \/ t = [FableEmbedder.newline]) /\
  exists pre, pre <> [] /\ s = pre ++ t.

(** A pattern whose matches are not empty and end with a character other
    than the newline. *)
Definition ends_in_text (B : str -> Prop) : Prop :=
  forall m, B m -> m <> [] /\ forall m', m <> m' ++ [FableEmbedder.newline].

(** ** Observers for the audit list and for the identifiers *)

(** The audit of the dropped candidates in the words of the specification:
    the input is made of the records kept and of the candidates dropped,
    and the list of removed stories holds one entry for each candidate
    dropped. *)
Definition dropped_have_entries (fables : list fable) (st : dedup_state)
    : Prop :=
  exists dropped,
    Permutation fables (deduplicated_fables st ++ dropped) /\
    Permutation (removed_stories st)
                (map (fun f => url_suffix (url_of f)) dropped).

(** The decimal digit of a number below ten, and the four decimal digits
    of a number below ten thousand, most significant first. *)
Definition digit (d : nat) : ascii := ascii_of_nat (48 + d).

Definition four_digits (i : nat) : str :=
  [digit (i / 1000); digit (i / 100 mod 10); digit (i / 10 mod 10);
   digit (i mod 10)].

(** A collection that holds none of the identifiers of the positions
    below [n]: an empty one, one just recreated, one filled under other
    identifiers. *)
Definition fresh_ids {vector : Type} (n : nat) (c : collection vector)
    : Prop :=
  forall e i, In e c -> (i < n)%nat -> entry_id e <> fable_id i.

(** * Properties *)

(** ** Strings and loops *)

Lemma ascii_eqb_eq a b : ascii_eqb a b = true <-> a = b.
Proof. apply Ascii.eqb_eq. Qed.

Lemma str_eqb_eq a b : str_eqb a b = true <-> a = b.
Proof.
  revert b; induction a as [|x a IH]; intros [|y b]; simpl;
    try (split; [discriminate | discriminate]); try tauto.
  rewrite andb_true_iff, ascii_eqb_eq, IH.
  split; [intros [-> ->]; reflexivity | intros [= -> ->]; auto].
Qed.

Lemma str_eqb_refl a : str_eqb a a = true.
Proof. apply str_eqb_eq; reflexivity. Qed.

Lemma str_eqb_neq a b : str_eqb a b = false <-> a <> b.
Proof.
  rewrite <- str_eqb_eq. destruct (str_eqb a b); split; congruence.
Qed.

Lemma str_eqb_sym a b : str_eqb a b = str_eqb b a.
Proof.
  destruct (str_eqb a b) eqn:E1, (str_eqb b a) eqn:E2; auto.
  - apply str_eqb_eq in E1; subst. now rewrite str_eqb_refl in E2.
  - apply str_eqb_eq in E2; subst. now rewrite str_eqb_refl in E1.
Qed.

Lemma starts_with_app p r : starts_with p (p ++ r) = Some r.
Proof.
  induction p as [|x p IH]; simpl; auto.
  unfold ascii_eqb; now rewrite Ascii.eqb_refl.
Qed.

Lemma starts_with_inv p s r : starts_with p s = Some r -> s = p ++ r.
Proof.
  revert s; induction p as [|x p IH]; intros [|y s]; simpl;
    try congruence.
  destruct (ascii_eqb x y) eqn:E; try discriminate.
  apply ascii_eqb_eq in E; subst. intros H; f_equal; auto.
Qed.

Lemma existsb_str_eqb k ks :
  existsb (fun k' => str_eqb k' k) ks = true <-> In k ks.
Proof.
  rewrite existsb_exists. split.
  - intros (x & Hx & E). apply str_eqb_eq in E. now subst.
  - intros H. exists k. split; auto using str_eqb_refl.
Qed.

(** A loop whose body never raises is a left fold. *)
Lemma for_each_pure {A S} (body : S -> A -> result S) (step : S -> A -> S)
    (l : list A) :
  (forall s x, In x l -> body s x = Ok (step s x)) ->
  forall s, for_each body l s = Ok (fold_left step l s).
Proof.
  induction l as [|x l IH]; intros H s; simpl; auto.
  rewrite H by (left; reflexivity). simpl.
  apply IH. intros; apply H; right; assumption.
Qed.

Lemma for_each_app {A S} (body : S -> A -> result S) (l1 l2 : list A) s :
  for_each body (l1 ++ l2) s = s' <- for_each body l1 s ;; for_each body l2 s'.
Proof.
  revert s; induction l1 as [|x l1 IH]; intros s; simpl; auto.
  destruct (body s x); simpl; auto.
Qed.

(** ** The code on sample inputs *)

Example normalize_fox :
  normalize_title "The Fox And The Grapes Fable" = ("fox and the grapes" : str).
Proof. reflexivity. Qed.

Example normalize_ant :
  normalize_title "  An Ant's   Story" = ("an ants" : str).
Proof. reflexivity. Qed.

Example url_suffix_marked :
  url_suffix "https://aesopfables.com/cgi/aesop1.cgi?srch&fabl/a1"
  = ("fabl/a1" : str).
Proof. reflexivity. Qed.

Example url_suffix_plain :
  url_suffix "https://aesopfables.com/cgi/aesop1.cgi?3&TheCrow"
  = ("https://aesopfables.com/cgi/aesop1.cgi?3&TheCrow" : str).
Proof. reflexivity. Qed.

Example split_pieces :
  split srch "a?srch&b?srch&?srch&c?srch"
  = ["a" : str; "b" : str; "" : str; "c?srch" : str].
Proof. reflexivity. Qed.

Example deduplicate_corpus :
  deduplicate_fables corpus =
  Ok (mkState [fox_mid; crow] 2 ["fabl/a1" : str; "fabl/a3" : str]).
Proof. reflexivity. Qed.

Example choose_best_version_empty :
  choose_best_version [] = Raise ValueError.
Proof. reflexivity. Qed.

Example fable_ids :
  map fable_id [0; 1; 42; 821]%nat =
  ["fable_0000" : str; "fable_0001" : str; "fable_0042" : str;
   "fable_0821" : str].
Proof. reflexivity. Qed.

Example batch_starts_250 : batch_starts 250 = [0; 100; 200]%nat.
Proof. reflexivity. Qed.

(** ** Grouping *)

Section Grouping.

Variable key : fable -> str.

Lemma keys_append_to k f d :
  map fst (append_to k f d) =
  if existsb (fun k' => str_eqb k' k) (map fst d) then map fst d
  else map fst d ++ [k].
Proof.
  induction d as [|[k' g] d IH]; simpl; auto.
  destruct (str_eqb k' k); simpl; auto.
  rewrite IH. now destruct (existsb _ (map fst d)).
Qed.

Lemma lookup_append_to k' k f d :
  lookup k' (append_to k f d) =
  if str_eqb k k' then lookup k' d ++ [f] else lookup k' d.
Proof.
  induction d as [|[k0 g] d IH]; simpl.
  - now destruct (str_eqb k k').
  - destruct (str_eqb k0 k) eqn:E0; simpl.
    + apply str_eqb_eq in E0; subst k0.
      now destruct (str_eqb k k').
    + destruct (str_eqb k0 k') eqn:E1; auto.
      apply str_eqb_eq in E1; subst k0.
      rewrite str_eqb_sym in E0. now rewrite E0.
Qed.

Lemma keys_group_by l : forall d,
  map fst (group_by key l d) =
  map fst d ++ first_seen (map fst d) (map key l).
Proof.
  induction l as [|f l IH]; intros d; simpl.
  - now rewrite app_nil_r.
  - unfold group_by in *; simpl. rewrite IH, keys_append_to.
    destruct (existsb _ (map fst d)); auto.
    now rewrite <- app_assoc.
Qed.

Lemma lookup_group_by k l : forall d,
  lookup k (group_by key l d) =
  lookup k d ++ filter (fun f => str_eqb (key f) k) l.
Proof.
  induction l as [|f l IH]; intros d; simpl.
  - now rewrite app_nil_r.
  - unfold group_by in *; simpl. rewrite IH, lookup_append_to.
    destruct (str_eqb (key f) k); auto.
    now rewrite <- app_assoc.
Qed.

Lemma first_seen_fresh ks : forall seen k,
  In k (first_seen seen ks) -> ~ In k seen.
Proof.
  induction ks as [|x ks IH]; intros seen k; simpl; [tauto|].
  destruct (existsb _ seen) eqn:E; [apply IH|].
  intros [<-|H].
  - intros Hin. apply existsb_str_eqb in Hin. congruence.
  - apply IH in H. intros Hin; apply H, in_or_app; auto.
Qed.

Lemma first_seen_NoDup ks : forall seen, NoDup (first_seen seen ks).
Proof.
  induction ks as [|x ks IH]; intros seen; simpl; [constructor|].
  destruct (existsb _ seen); auto.
  constructor; auto.
  intros H. apply first_seen_fresh in H. apply H, in_or_app; simpl; auto.
Qed.

Lemma first_seen_complete ks : forall seen k,
  In k ks -> In k seen \/ In k (first_seen seen ks).
Proof.
  induction ks as [|x ks IH]; intros seen k; simpl; [tauto|].
  intros [->|H].
  - destruct (existsb _ seen) eqn:E.
    + left. now apply existsb_str_eqb.
    + right; left; reflexivity.
  - destruct (existsb _ seen) eqn:E; [auto|].
    destruct (IH (seen ++ [x]) k H) as [Hs|Hs]; [|right; right; auto].
    apply in_app_or in Hs. destruct Hs as [Hs|[<-|[]]]; auto.
    right; left; reflexivity.
Qed.

Lemma first_seen_sound ks : forall seen k,
  In k (first_seen seen ks) -> In k ks.
Proof.
  induction ks as [|x ks IH]; intros seen k; simpl; [tauto|].
  destruct (existsb _ seen); [eauto|].
  intros [H|H]; eauto.
Qed.

Lemma lookup_In k g d :
  NoDup (map fst d) -> In (k, g) d -> lookup k d = g.
Proof.
  induction d as [|[k' g'] d IH]; simpl; [tauto|].
  intros Hnd [[= -> ->]|Hin].
  - now rewrite str_eqb_refl.
  - inversion Hnd; subst.
    destruct (str_eqb k' k) eqn:E; auto.
    apply str_eqb_eq in E; subst k'.
    exfalso. apply H1. now apply (in_map fst) in Hin.
Qed.

Lemma concat_append_to k f d :
  Permutation (List.concat (map snd (append_to k f d)))
              (List.concat (map snd d) ++ [f]).
Proof.
  induction d as [|[k' g] d IH]; simpl; auto.
  destruct (str_eqb k' k); simpl.
  - rewrite <- !app_assoc. apply Permutation_app_head, Permutation_app_comm.
  - rewrite <- app_assoc. now apply Permutation_app_head.
Qed.

Lemma concat_group_by l : forall d,
  Permutation (List.concat (map snd (group_by key l d)))
              (List.concat (map snd d) ++ l).
Proof.
  induction l as [|f l IH]; intros d; simpl.
  - now rewrite app_nil_r.
  - unfold group_by in *; simpl. rewrite IH, concat_append_to.
    now rewrite <- app_assoc.
Qed.

(** An ordered partition: the keys are the distinct keys of the input in
    first-seen order, and the group of a key holds the records of that
    key in input order. *)
Lemma group_by_spec l :
  let tg := group_by key l [] in
  map fst tg = first_seen [] (map key l) /\
  NoDup (map fst tg) /\
  (forall k g, In (k, g) tg ->
     g = filter (fun f => str_eqb (key f) k) l /\ g <> []) /\
  Permutation (List.concat (map snd tg)) l.
Proof.
  intros tg.
  assert (Hk : map fst tg = first_seen [] (map key l))
    by apply (keys_group_by l []).
  assert (Hnd : NoDup (map fst tg))
    by (rewrite Hk; apply first_seen_NoDup).
  assert (Hg : forall k g, In (k, g) tg ->
             g = filter (fun f => str_eqb (key f) k) l).
  { intros k g H. rewrite <- (lookup_In _ _ _ Hnd H).
    apply (lookup_group_by k l []). }
  repeat split; auto.
  - intros E. pose proof (Hg _ _ H) as Hf.
    apply (in_map fst) in H. simpl in H.
    rewrite Hk in H. apply first_seen_sound, in_map_iff in H.
    destruct H as (f & Hf' & Hin).
    assert (In f g).
    { rewrite Hf. apply filter_In. split; auto.
      rewrite Hf'. apply str_eqb_refl. }
    rewrite E in H. contradiction.
  - apply (concat_group_by l []).
Qed.

End Grouping.

Lemma has_key_key_of k f :
  title f <> None -> has_key k f = str_eqb (key_of f) k.
Proof.
  unfold has_key, key_of, fable_key. destruct (title f); simpl; congruence.
Qed.

Lemma titles_present fables titles :
  map title fables = map Some titles ->
  Forall (fun f => title f <> None) fables /\
  map key_of fables = map normalize_title titles.
Proof.
  revert titles; induction fables as [|f l IH]; intros [|t ts]; simpl;
    try discriminate; auto.
  intros [= Ht Hl]. destruct (IH _ Hl) as [H1 H2]. split.
  - constructor; auto. congruence.
  - f_equal; auto. unfold key_of, fable_key. now rewrite Ht.
Qed.

Lemma group_fables_ok fables :
  Forall (fun f => title f <> None) fables ->
  group_fables fables = Ok (group_by key_of fables []).
Proof.
  intros H. unfold group_fables, group_by.
  apply for_each_pure. intros d f Hin.
  rewrite Forall_forall in H. specialize (H f Hin).
  unfold subscript, key_of, fable_key.
  destruct (title f); simpl; congruence.
Qed.

(** The groups that the grouping loop builds from titled records. *)
Lemma group_fables_groups (fables : list fable) :
  (forall f, In f fables -> title f <> None) ->
  exists tg,
    group_fables fables = Ok tg /\
    tg = group_by key_of fables [] /\
    NoDup (map fst tg) /\
    (forall k g, In (k, g) tg -> g = filter (has_key k) fables /\ g <> []) /\
    (forall f, In f fables -> exists k g, In (k, g) tg /\ In f g).
Proof.
  intros Hall.
  exists (group_by key_of fables []).
  split; [now apply group_fables_ok, Forall_forall|]. split; [reflexivity|].
  destruct (group_by_spec key_of fables) as (Hk & Hnd & Hg & Hp).
  split; [exact Hnd|]. split.
  - intros k g Hin. destruct (Hg k g Hin) as [E Hne]. split; [|exact Hne].
    rewrite E. apply filter_ext_in. intros f Hf. symmetry.
    now apply has_key_key_of, Hall.
  - intros f Hin.
    apply (Permutation_in f (Permutation_sym Hp)) in Hin.
    apply in_concat in Hin. destruct Hin as (g & Hg' & Hfg).
    apply in_map_iff in Hg'. destruct Hg' as ([k g'] & E & Hin).
    simpl in E; subst g'. eauto.
Qed.

(** C4. Grouping by normalised title is a partition that preserves order:
    for a sequence of records that all have a title, the grouping loop
    returns a dictionary whose keys are the distinct normalised titles in
    first-seen order, whose group for a key is the sub-sequence of the
    input records with that key (so groups are disjoint and keep the
    input order), and whose groups together hold every input record
    exactly once. *)
Theorem grouping_is_ordered_partition (fables : list fable)
    (titles : list str) :
  map title fables = map Some titles ->
  exists tg, group_fables fables = Ok tg /\
             ordered_partition fables titles tg.
Proof.
  intros Ht. destruct (titles_present _ _ Ht) as [Hall Hkeys].
  rewrite Forall_forall in Hall.
  destruct (group_fables_groups fables Hall)
    as (tg & Hg & Etg & Hnd & Hgrp & Hin).
  exists tg. split; [exact Hg|].
  destruct (group_by_spec key_of fables) as (Hk & _ & _ & Hp).
  rewrite <- Etg in Hk, Hp.
  unfold ordered_partition. rewrite <- Hkeys.
  split; [exact Hk|]. split; [exact Hnd|]. split; [exact Hgrp|].
  split; [exact Hin|]. split; [|exact Hp].
  intros f k1 g1 k2 g2 H1 H2 F1 F2.
  destruct (Hgrp _ _ H1) as [E1 _], (Hgrp _ _ H2) as [E2 _].
  assert (K1 : has_key k1 f = true)
    by (rewrite E1 in F1; now apply filter_In in F1).
  assert (K2 : has_key k2 f = true)
    by (rewrite E2 in F2; now apply filter_In in F2).
  unfold has_key in K1, K2. destruct (fable_key f); [|discriminate].
  apply str_eqb_eq in K1, K2. subst k1 k2. congruence.
Qed.

Lemma grouping_is_ordered_partition_witness :
  map title corpus =
    map Some ["The Fox" : str; "The Crow" : str; "Fox!" : str; "A FOX" : str]
  /\ exists tg, group_fables corpus = Ok tg /\
       ordered_partition corpus
         ["The Fox" : str; "The Crow" : str; "Fox!" : str; "A FOX" : str] tg.
Proof.
  split; [reflexivity|].
  apply (grouping_is_ordered_partition corpus
           ["The Fox" : str; "The Crow" : str; "Fox!" : str; "A FOX" : str]).
  reflexivity.
Defined.

(** ** Scoring *)

Lemma total_score_value w c : In (total_score w c) score_values.
Proof.
  unfold total_score, word_score, content_score.
  destruct ((100 <=? w) && (w <=? 500))%Z;
    [|destruct ((50 <=? w) && (w <? 100))%Z;
      [|destruct ((500 <? w) && (w <=? 1000))%Z]];
    destruct (contains "AesopFables.com" c);
    destruct (contains "Process took:" c);
    destruct (contains "Copyright" c);
    destruct (existsb _ moral_markers);
    vm_compute; repeat (first [left; reflexivity | right]).
Qed.



Section ArgMax.

Context {A : Type}.


End ArgMax.



Lemma score_version_ok f :
  scorable f = true -> score_version f = Ok (scored f).
Proof.
  unfold scorable, scored, score_of, fable_score, score_version, subscript.
  destruct (word_count f), (content f); simpl; congruence.
Qed.

Lemma fold_left_snoc {A B} (g : A -> B) (l : list A) : forall acc,
  fold_left (fun acc x => acc ++ [g x]) l acc = acc ++ map g l.
Proof.
  induction l as [|x l IH]; intros acc; simpl.
  - now rewrite app_nil_r.
  - rewrite IH, <- app_assoc. reflexivity.
Qed.

Lemma choose_best_version_ok first others :
  forallb scorable (first :: others) = true ->
  choose_best_version (first :: others) = Ok (best_of first others).
Proof.
  intros H. unfold choose_best_version.
  rewrite (for_each_pure _ (fun acc f => acc ++ [scored f])).
  - rewrite fold_left_snoc. reflexivity.
  - intros acc f Hin. rewrite forallb_forall in H.
    now rewrite (score_version_ok f (H f Hin)).
Qed.






Lemma no_markers_score c : no_markers c = true -> content_score c = 1.0%float.
Proof.
  unfold no_markers, content_score. rewrite !andb_true_iff, !negb_true_iff.
  intros [[[-> ->] ->] ->]. reflexivity.
Qed.

(** C2. The word score is 1.0 on [100, 500], 0.9 on (500, 1000], 0.8 on
    [50, 100) and 0.5 elsewhere, and the total score is the product of the
    word score and the content score; so, of three candidates of 40, 250
    and 1500 words whose contents hold no marker, which score 0.5, 1.0 and
    0.5, the selection returns the one of 250 words. *)
Theorem scorer_bands_and_example (f1 f2 f3 : fable) (c1 c2 c3 : str) :
  word_count f1 = Some 40%Z -> content f1 = Some c1 ->
  word_count f2 = Some 250%Z -> content f2 = Some c2 ->
  word_count f3 = Some 1500%Z -> content f3 = Some c3 ->
  no_markers c1 = true -> no_markers c2 = true -> no_markers c3 = true ->
  (forall wc, word_score wc = spec_word_score wc) /\
  (forall wc c,
     total_score wc c = (word_score wc * content_score c)%float) /\
  fable_score f1 = Some 0.5%float /\
  fable_score f2 = Some 1.0%float /\
  fable_score f3 = Some 0.5%float /\
  choose_best_version [f1; f2; f3] = Ok f2.
Proof.
  intros W1 C1 W2 C2 W3 C3 N1 N2 N3.
  assert (S1 : fable_score f1 = Some 0.5%float).
  { unfold fable_score, total_score.
    now rewrite W1, C1, (no_markers_score _ N1). }
  assert (S2 : fable_score f2 = Some 1.0%float).
  { unfold fable_score, total_score.
    now rewrite W2, C2, (no_markers_score _ N2). }
  assert (S3 : fable_score f3 = Some 0.5%float).
  { unfold fable_score, total_score.
    now rewrite W3, C3, (no_markers_score _ N3). }
  split; [|split; [reflexivity|auto]].
  - intros wc. unfold word_score, spec_word_score.
    destruct (100 <=? wc)%Z eqn:E1, (wc <=? 500)%Z eqn:E2,
             (50 <=? wc)%Z eqn:E3, (wc <? 100)%Z eqn:E4,
             (500 <? wc)%Z eqn:E5, (wc <=? 1000)%Z eqn:E6;
      simpl; try reflexivity; lia.
  - repeat split; auto.
    rewrite choose_best_version_ok
      by (simpl; unfold scorable; now rewrite S1, S2, S3).
    unfold best_of, scored, score_of. simpl. rewrite S1, S2, S3.
    reflexivity.
Qed.

Lemma scorer_bands_and_example_witness :
  let c1 : str := "A fox saw grapes." in
  let c2 : str := "A hungry fox saw some fine bunches of grapes." in
  let c3 : str := "Once upon a time a fox saw grapes." in
  no_markers c1 = true /\ no_markers c2 = true /\ no_markers c3 = true /\
  choose_best_version [fox_short; fox_mid; fox_long] = Ok fox_mid.
Proof.
  intros c1 c2 c3.
  split; [reflexivity|]. split; [reflexivity|]. split; [reflexivity|].
  apply (scorer_bands_and_example fox_short fox_mid fox_long c1 c2 c3);
    reflexivity.
Defined.

(** ** The pass over the groups *)

Lemma fable_eqb_refl f : fable_eqb f f = true.
Proof. unfold fable_eqb. destruct (fable_eq_dec f f); congruence. Qed.

Lemma fable_eqb_neq a b : a <> b -> fable_eqb a b = false.
Proof. unfold fable_eqb. destruct (fable_eq_dec a b); congruence. Qed.

Lemma complete_fields f :
  complete f = true ->
  title f <> None /\ url f = Some (url_of f) /\ scorable f = true.
Proof.
  unfold complete, scorable, fable_score, url_of.
  destruct (title f), (original_title f), (url f), (content f),
           (word_count f); try discriminate.
  repeat split; congruence.
Qed.

Lemma complete_scorable l :
  forallb complete l = true -> forallb scorable l = true.
Proof.
  rewrite !forallb_forall. intros H f Hin.
  now apply complete_fields, H.
Qed.

Lemma print_version_ok f : complete f = true -> print_version f = Ok tt.
Proof.
  unfold complete, print_version, subscript.
  destruct (title f), (original_title f), (url f), (content f),
           (word_count f); try discriminate.
  reflexivity.
Qed.

Lemma best_of_In first others : In (best_of first others) (first :: others).
Proof.
  unfold best_of.
  assert (H : forall (r : list (float * fable)) b,
             In (max_from b r) (b :: r)).
  { intros r. induction r as [|x r IH]; intros b; simpl; auto.
    destruct (fst b <? fst x)%float.
    - right. apply IH.
    - destruct (IH b) as [H|H]; auto. }
  specialize (H (map scored others) (scored first)).
  change (scored first :: map scored others)
    with (map scored (first :: others)) in H.
  apply in_map_iff in H. destruct H as (f & E & Hin).
  rewrite <- E. exact Hin.
Qed.

Lemma track_removed_ok best g : forall removed,
  forallb complete g = true ->
  track_removed best g removed = Ok (removed ++ removed_of best g).
Proof.
  unfold track_removed, removed_of.
  induction g as [|f g IH]; intros removed H; simpl.
  - now rewrite app_nil_r.
  - simpl in H. apply andb_true_iff in H. destruct H as [Hf Hg].
    destruct (complete_fields f Hf) as (_ & Hu & _).
    destruct (fable_eqb f best); simpl.
    + now apply IH.
    + unfold subscript. rewrite Hu. simpl. rewrite IH by assumption.
      now rewrite <- app_assoc.
Qed.

Lemma dedup_group_ok st k g :
  group_ok g = true ->
  dedup_group st (k, g) =
  Ok (mkState (deduplicated_fables st ++ survivor_of g)
              (duplicates_found st + (Z.of_nat (List.length g) - 1))
              (removed_stories st ++ removed_in g)).
Proof.
  destruct g as [|x [|y r]]; [discriminate| |]; intros H.
  - unfold dedup_group, removed_in, removed_of. simpl.
    unfold best_of. simpl. rewrite fable_eqb_refl. simpl.
    now rewrite app_nil_r, Z.add_0_r.
  - change (group_ok (x :: y :: r)) with (forallb complete (x :: y :: r)) in H.
    unfold dedup_group.
    change (snd (k, x :: y :: r)) with (x :: y :: r).
    change (1 <? List.length (x :: y :: r))%nat with true. cbv iota.
    assert (Hall : forall f, In f (x :: y :: r) -> complete f = true)
      by now apply forallb_forall.
    rewrite (for_each_pure _ (fun _ _ => tt))
      by (intros [] f Hin; now apply print_version_ok, Hall).
    cbv beta iota delta [bind].
    rewrite choose_best_version_ok by now apply complete_scorable.
    rewrite print_version_ok by apply Hall, best_of_In.
    rewrite track_removed_ok by assumption.
    reflexivity.
Qed.

Lemma dedup_groups_ok tg : forall st,
  forallb (fun item => group_ok (snd item)) tg = true ->
  for_each dedup_group tg st =
  Ok (mkState (deduplicated_fables st ++ survivors tg)
              (duplicates_found st + count_duplicates tg)
              (removed_stories st ++ removals tg)).
Proof.
  induction tg as [|[k g] tg IH]; intros st H; simpl.
  - rewrite !app_nil_r, Z.add_0_r. now destruct st.
  - simpl in H. apply andb_true_iff in H. destruct H as [Hg Htg].
    rewrite (dedup_group_ok st k g Hg). simpl.
    rewrite IH by assumption. simpl.
    rewrite <- !app_assoc. f_equal. f_equal. lia.
Qed.

Lemma group_ok_intro g :
  g <> [] -> (forall f, In f g -> complete f = true \/ g = [f]) ->
  group_ok g = true.
Proof.
  destruct g as [|x [|y r]]; [congruence|reflexivity|].
  intros _ H. change (forallb complete (x :: y :: r) = true).
  apply forallb_forall. intros f Hin.
  destruct (H f Hin) as [Hc|E]; [exact Hc|discriminate].
Qed.

Lemma has_key_unique k k' f :
  has_key k' f = true -> has_key k f = str_eqb k' k.
Proof.
  unfold has_key. destruct (fable_key f); [|discriminate].
  intros E. apply str_eqb_eq in E. now subst.
Qed.

(** The survivors of a key are the survivors of the groups of that key. *)
Lemma filter_survivors k tg :
  (forall k' g f, In (k', g) tg -> In f g -> has_key k' f = true) ->
  filter (has_key k) (survivors tg) =
  survivors (filter (fun item => str_eqb (fst item) k) tg).
Proof.
  induction tg as [|[k' g] tg IH]; intros H; [reflexivity|].
  unfold survivors in *. simpl. rewrite filter_app, IH
    by (intros; eapply H; [right|]; eassumption).
  destruct g as [|x r]; simpl.
  - now destruct (str_eqb k' k).
  - assert (Hb : has_key k' (best_of x r) = true)
      by (apply (H k' (x :: r)); [left; reflexivity | apply best_of_In]).
    rewrite (has_key_unique k k' _ Hb).
    now destruct (str_eqb k' k).
Qed.

Lemma filter_key_NoDup k g (tg : groups) :
  NoDup (map fst tg) -> In (k, g) tg ->
  filter (fun item => str_eqb (fst item) k) tg = [(k, g)].
Proof.
  induction tg as [|[k' g'] tg IH]; simpl; [tauto|].
  intros Hnd Hin. inversion Hnd as [|? ? Hk Hnd']; subst.
  assert (Hnone : forall l : groups,
            ~ In k (map fst l) ->
            filter (fun item => str_eqb (fst item) k) l = []).
  { induction l as [|[k0 g0] l IHl]; simpl; auto.
    intros Hn. destruct (str_eqb k0 k) eqn:E.
    - apply str_eqb_eq in E. tauto.
    - apply IHl. tauto. }
  destruct Hin as [[= -> ->]|Hin].
  - rewrite str_eqb_refl, Hnone by assumption. reflexivity.
  - destruct (str_eqb k' k) eqn:E.
    + apply str_eqb_eq in E. subst k'.
      exfalso. apply Hk. now apply (in_map fst) in Hin.
    + now apply IH.
Qed.

(** The whole pass on a corpus of complete records. *)
Lemma deduplicate_fables_ok fables :
  forallb complete fables = true ->
  exists tg,
    group_fables fables = Ok tg /\
    deduplicate_fables fables =
      Ok (mkState (survivors tg) (count_duplicates tg) (removals tg)) /\
    NoDup (map fst tg) /\
    (forall k g, In (k, g) tg -> g = filter (has_key k) fables /\ g <> []) /\
    (forall f, In f fables -> exists k g, In (k, g) tg /\ In f g).
Proof.
  intros Hc. rewrite forallb_forall in Hc.
  destruct (group_fables_groups fables) as (tg & Hg & _ & Hnd & Hgrp & Hin).
  { intros f Hf. now apply complete_fields, Hc. }
  exists tg. split; [exact Hg|]. split; [|auto].
  unfold deduplicate_fables. rewrite Hg. simpl.
  rewrite dedup_groups_ok; [reflexivity|].
  apply forallb_forall. intros [k g] Hkg. simpl.
  destruct (Hgrp k g Hkg) as [E Hne].
  apply group_ok_intro; auto.
  intros f Hf. left. apply Hc. rewrite E in Hf.
  now apply filter_In in Hf.
Qed.

Lemma group_of_key fables (tg : groups) k f :
  (forall k g, In (k, g) tg -> g = filter (has_key k) fables /\ g <> []) ->
  (forall f, In f fables -> exists k g, In (k, g) tg /\ In f g) ->
  In f fables -> has_key k f = true ->
  In (k, filter (has_key k) fables) tg.
Proof.
  intros Hgrp Hin Hf Hk.
  destruct (Hin f Hf) as (k' & g & Hkg & Hfg).
  destruct (Hgrp k' g Hkg) as [E _].
  rewrite E in Hfg. apply filter_In in Hfg. destruct Hfg as [_ Hk'].
  rewrite (has_key_unique k k' f Hk') in Hk.
  apply str_eqb_eq in Hk. subst k'. now rewrite <- E.
Qed.

Lemma group_members fables (tg : groups) :
  (forall k g, In (k, g) tg -> g = filter (has_key k) fables /\ g <> []) ->
  forall k g f, In (k, g) tg -> In f g -> has_key k f = true.
Proof.
  intros Hgrp k g f Hkg Hfg. destruct (Hgrp k g Hkg) as [E _].
  rewrite E in Hfg. now apply filter_In in Hfg.
Qed.

(** The survivors of a key are the survivor of the records of that key. *)
Lemma survivors_of_key fables (tg : groups) k :
  NoDup (map fst tg) ->
  (forall k g, In (k, g) tg -> g = filter (has_key k) fables /\ g <> []) ->
  (forall f, In f fables -> exists k g, In (k, g) tg /\ In f g) ->
  filter (has_key k) (survivors tg) =
  survivor_of (filter (has_key k) fables).
Proof.
  intros Hnd Hgrp Hin.
  rewrite (filter_survivors k tg (group_members fables tg Hgrp)).
  destruct (filter (has_key k) fables) as [|x r] eqn:E.
  - assert (Hnone : forall l : groups,
              ~ In k (map fst l) ->
              filter (fun item => str_eqb (fst item) k) l = []).
    { induction l as [|[k0 g0] l IHl]; simpl; auto.
      intros Hn. destruct (str_eqb k0 k) eqn:E0.
      - apply str_eqb_eq in E0. tauto.
      - apply IHl. tauto. }
    rewrite Hnone; [reflexivity|].
    intros Hk. apply in_map_iff in Hk. destruct Hk as ([k' g] & Ek & Hkg).
    simpl in Ek. subst k'. destruct (Hgrp k g Hkg) as [Eg Hne]. congruence.
  - assert (Hx : In x (filter (has_key k) fables))
      by (rewrite E; left; reflexivity).
    apply filter_In in Hx. destruct Hx as [Hx Hkx].
    pose proof (group_of_key fables tg k x Hgrp Hin Hx Hkx) as Hkg.
    rewrite (filter_key_NoDup k _ tg Hnd Hkg), E.
    reflexivity.
Qed.

(** C1. The deduplicated output holds exactly one record per normalised
    key of the input: on a corpus of complete records the pass returns,
    and for every key that [normalize_title] gives to the title of some
    input record, exactly one record of the output has that key; it is
    one of the input records of that key.  Every output record is an
    input record. *)
Theorem one_survivor_per_key (fables : list fable) :
  forallb complete fables = true ->
  exists st,
    deduplicate_fables fables = Ok st /\
    (forall k, In (Some k) (map fable_key fables) ->
       exists c, filter (has_key k) (deduplicated_fables st) = [c] /\
                 In c (filter (has_key k) fables)) /\
    (forall c, In c (deduplicated_fables st) -> In c fables).
Proof.
  intros Hc.
  destruct (deduplicate_fables_ok fables Hc)
    as (tg & Hg & Hd & Hnd & Hgrp & Hin).
  eexists. split; [exact Hd|]. simpl. split.
  - intros k Hk. apply in_map_iff in Hk. destruct Hk as (f & Ef & Hf).
    assert (Hkf : In f (filter (has_key k) fables)).
    { apply filter_In. split; [exact Hf|].
      unfold has_key. rewrite Ef. apply str_eqb_refl. }
    rewrite (survivors_of_key fables tg k Hnd Hgrp Hin).
    destruct (filter (has_key k) fables) as [|x r]; [contradiction|].
    exists (best_of x r). split; [reflexivity|]. apply best_of_In.
  - intros c Hcs. unfold survivors in Hcs. apply in_flat_map in Hcs.
    destruct Hcs as ([k g] & Hkg & Hcg). simpl in Hcg.
    destruct (Hgrp k g Hkg) as [E _].
    destruct g as [|x r]; [contradiction|].
    destruct Hcg as [<-|[]].
    pose proof (best_of_In x r) as Hb. rewrite E in Hb.
    now apply filter_In in Hb.
Qed.

Lemma one_survivor_per_key_witness :
  forallb complete corpus = true /\
  exists st,
    deduplicate_fables corpus = Ok st /\
    (forall k, In (Some k) (map fable_key corpus) ->
       exists c, filter (has_key k) (deduplicated_fables st) = [c] /\
                 In c (filter (has_key k) corpus)) /\
    (forall c, In c (deduplicated_fables st) -> In c corpus).
Proof.
  split; [reflexivity|].
  apply (one_survivor_per_key corpus). reflexivity.
Defined.

(** ** The audit key of a removed record *)

Lemma contains_cons needle c rest :
  contains needle (c :: rest) =
  match starts_with needle (c :: rest) with
  | Some _ => true
  | None => contains needle rest
  end.
Proof. reflexivity. Qed.

Section Split.

Variables (sep : str) (c0 : ascii) (sep' : str).

Hypothesis sep_cons : sep = c0 :: sep'.

Lemma split_go_skip x : forall s cur,
  split_go sep (x ++ s) (List.length x) cur = split_go sep s 0 cur.
Proof.
  induction x as [|c x IH]; intros s cur; [reflexivity|].
  simpl. apply IH.
Qed.

Lemma split_go_match r cur :
  split_go sep (sep ++ r) 0 cur = rev cur :: split_go sep r 0 [].
Proof.
  assert (E : sep ++ r = c0 :: sep' ++ r) by now rewrite sep_cons.
  rewrite E at 1. cbn [split_go]. rewrite <- E, starts_with_app. f_equal.
  replace (List.length sep - 1)%nat with (List.length sep')
    by (rewrite sep_cons; simpl; lia).
  apply split_go_skip.
Qed.

Lemma split_go_step c r cur :
  starts_with sep (c :: r) = None ->
  split_go sep (c :: r) 0 cur = split_go sep r 0 (c :: cur).
Proof. intros H. cbn [split_go]. now rewrite H. Qed.

Lemma split_go_not_nil s : forall skip cur, split_go sep s skip cur <> [].
Proof.
  induction s as [|c r IH]; intros skip cur; cbn [split_go];
    [discriminate|].
  destruct skip; [|apply IH].
  destruct (starts_with sep (c :: r)); [discriminate|apply IH].
Qed.

Lemma last_cons_not_nil (a : str) l d : l <> [] -> last (a :: l) d = last l d.
Proof. destruct l; [congruence|reflexivity]. Qed.

(** Without an occurrence of the separator the string is the only piece. *)
Lemma split_go_absent s : forall cur,
  contains sep s = false -> split_go sep s 0 cur = [rev cur ++ s].
Proof.
  induction s as [|c r IH]; intros cur H.
  - simpl. now rewrite app_nil_r.
  - rewrite contains_cons in H.
    destruct (starts_with sep (c :: r)) eqn:E; [discriminate|].
    rewrite split_go_step, IH by assumption.
    simpl. now rewrite <- app_assoc.
Qed.

Lemma contains_nil : contains sep [] = false.
Proof. rewrite sep_cons. reflexivity. Qed.

(** With an occurrence, the last piece is what follows the last one. *)
Lemma split_go_last n : forall s cur,
  (List.length s <= n)%nat -> contains sep s = true ->
  exists pre,
    s = pre ++ sep ++ last (split_go sep s 0 cur) [] /\
    contains sep (last (split_go sep s 0 cur) []) = false.
Proof.
  induction n as [|n IH]; intros s cur Hlen H.
  - destruct s; [|simpl in Hlen; lia].
    rewrite contains_nil in H. discriminate.
  - destruct s as [|c r]; [rewrite contains_nil in H; discriminate|].
    rewrite contains_cons in H.
    destruct (starts_with sep (c :: r)) as [r'|] eqn:E.
    + apply starts_with_inv in E. rewrite E.
      rewrite split_go_match, last_cons_not_nil by apply split_go_not_nil.
      assert (Hr' : (List.length r' <= n)%nat).
      { apply (f_equal (@List.length ascii)) in E.
        rewrite length_app, sep_cons in E. simpl in E, Hlen. lia. }
      destruct (contains sep r') eqn:Hc.
      * destruct (IH r' [] Hr' Hc) as (pre & Epre & Hlast).
        exists (sep ++ pre). split; [|exact Hlast].
        rewrite <- app_assoc. f_equal. exact Epre.
      * rewrite split_go_absent by assumption. simpl.
        exists []. split; [reflexivity|exact Hc].
    + rewrite split_go_step by assumption.
      simpl in Hlen.
      destruct (IH r (c :: cur) ltac:(lia) H) as (pre & Epre & Hlast).
      exists (c :: pre). split; [|exact Hlast].
      simpl. f_equal. exact Epre.
Qed.

End Split.

Lemma url_suffix_spec u : suffix_of_url u (url_suffix u).
Proof.
  unfold suffix_of_url, url_suffix. split; intros H; rewrite H;
    [|reflexivity].
  apply (split_go_last srch "?"%char ("srch&" : str) eq_refl
           (List.length u) u []); auto.
Qed.

Lemma removed_of_In best g c :
  In c g -> c <> best -> In (url_suffix (url_of c)) (removed_of best g).
Proof.
  intros Hin Hne. unfold removed_of.
  apply (in_map (fun f => url_suffix (url_of f))), filter_In.
  split; [exact Hin|]. now rewrite fable_eqb_neq.
Qed.

Lemma survivors_In (tg : groups) c :
  In c (survivors tg) -> exists k g, In (k, g) tg /\ In c g.
Proof.
  unfold survivors. rewrite in_flat_map. intros [[k g] [Hin Hc]].
  exists k, g. split; [exact Hin|].
  cbn [snd] in Hc. destruct g as [|first others]; [contradiction|].
  destruct Hc as [<-|[]]. apply best_of_In.
Qed.

Lemma has_key_is_key k f : has_key k f = true -> key_of f = k.
Proof.
  unfold has_key, key_of. destruct (fable_key f); [|discriminate].
  apply str_eqb_eq.
Qed.

Lemma survivors_keys (tg : groups) :
  (forall k g, In (k, g) tg ->
     g <> [] /\ forall f, In f g -> has_key k f = true) ->
  map key_of (survivors tg) = map fst tg.
Proof.
  induction tg as [|[k g] tg IH]; intros H; [reflexivity|].
  unfold survivors in *. cbn [flat_map snd map fst]. rewrite map_app, IH.
  - destruct (H k g (or_introl eq_refl)) as [Hne Hk].
    destruct g as [|first others]; [contradiction|].
    cbn [survivor_of map app]. f_equal.
    apply has_key_is_key, Hk, best_of_In.
  - intros k' g' Hin. apply (H k' g'). now right.
Qed.

Lemma Permutation_filter {A} (P : A -> bool) (l l' : list A) :
  Permutation l l' -> Permutation (filter P l) (filter P l').
Proof.
  induction 1 as [|x l l' H IH|x y l|l l' l'' H1 IH1 H2 IH2]; cbn [filter].
  - constructor.
  - destruct (P x); [now constructor | exact IH].
  - destruct (P x), (P y); try reflexivity. apply perm_swap.
  - now transitivity (filter P l').
Qed.

Lemma kept_iff_best fables (tg : groups) k first others f :
  NoDup (map fst tg) ->
  (forall k g, In (k, g) tg -> g = filter (has_key k) fables /\ g <> []) ->
  (forall f, In f fables -> exists k g, In (k, g) tg /\ In f g) ->
  In (k, first :: others) tg -> In f (first :: others) ->
  fable_eqb f (best_of first others) = kept_in (survivors tg) f.
Proof.
  intros Hnd Hgrp Hin Hg Hf. unfold kept_in.
  destruct (Hgrp _ _ Hg) as [Eg _].
  destruct (existsb (fable_eqb f) (survivors tg)) eqn:Ex.
  - apply existsb_exists in Ex. destruct Ex as (c & Hc & Efc).
    unfold fable_eqb in Efc. destruct (fable_eq_dec f c); [|discriminate].
    subst c.
    assert (Hk : In f (filter (has_key k) (survivors tg))).
    { apply filter_In. split; [exact Hc|].
      rewrite Eg in Hf. now apply filter_In in Hf. }
    rewrite (survivors_of_key fables tg k Hnd Hgrp Hin), <- Eg in Hk.
    cbn [survivor_of] in Hk. destruct Hk as [<-|[]]. apply fable_eqb_refl.
  - destruct (fable_eq_dec f (best_of first others)) as [->|Hne];
      [|now apply fable_eqb_neq].
    exfalso. apply Bool.not_true_iff_false in Ex. apply Ex.
    apply existsb_exists. exists (best_of first others).
    split; [|apply fable_eqb_refl].
    unfold survivors. apply in_flat_map. exists (k, first :: others).
    split; [exact Hg|]. now left.
Qed.

Lemma filter_partition {A} (P : A -> bool) (l : list A) :
  Permutation l (filter P l ++ filter (fun x => negb (P x)) l).
Proof.
  induction l as [|x l IH]; [constructor|]. cbn [filter].
  destruct (P x); cbn [negb app].
  - now constructor.
  - now apply Permutation_cons_app.
Qed.

(** The list of removed stories, group after group, holds the candidates
    that are not equal to a record kept. *)
Lemma removals_dropped fables (tg : groups) :
  NoDup (map fst tg) ->
  (forall k g, In (k, g) tg -> g = filter (has_key k) fables /\ g <> []) ->
  (forall f, In f fables -> exists k g, In (k, g) tg /\ In f g) ->
  Permutation (List.concat (map snd tg)) fables ->
  Permutation (removals tg)
    (map (fun f => url_suffix (url_of f))
         (filter (fun f => negb (kept_in (survivors tg) f)) fables)).
Proof.
  intros Hnd Hgrp Hin Hp.
  set (P := fun f => negb (kept_in (survivors tg) f)).
  set (U := fun f => url_suffix (url_of f)).
  assert (E : removals tg = map U (filter P (List.concat (map snd tg)))).
  { unfold removals. rewrite flat_map_concat_map.
    rewrite <- concat_filter_map, concat_map, !map_map. f_equal.
    apply map_ext_in. intros [k g] Hg. cbn [snd].
    destruct g as [|first others]; [reflexivity|].
    unfold removed_in, removed_of. fold U. f_equal.
    apply filter_ext_in. intros f Hf. unfold P. f_equal.
    exact (kept_iff_best fables tg k first others f Hnd Hgrp Hin Hg Hf). }
  rewrite E. apply Permutation_map, Permutation_filter, Hp.
Qed.

(** When no record occurs twice in the input, the input records that are
    equal to a record kept are the records kept. *)
Lemma kept_records fables (tg : groups) :
  NoDup fables -> NoDup (map fst tg) ->
  (forall k g, In (k, g) tg -> g = filter (has_key k) fables /\ g <> []) ->
  Permutation (filter (kept_in (survivors tg)) fables) (survivors tg).
Proof.
  intros Hf Hnd Hgrp. apply NoDup_Permutation.
  - now apply NoDup_filter.
  - apply (NoDup_map_inv key_of). rewrite survivors_keys; [exact Hnd|].
    intros k g Hg. split; [now apply (Hgrp k g)|].
    intros f Hfg. exact (group_members fables tg Hgrp k g f Hg Hfg).
  - intros x. split.
    + intros H. apply filter_In in H. destruct H as [_ Hk].
      unfold kept_in in Hk. apply existsb_exists in Hk.
      destruct Hk as (c & Hc & E). unfold fable_eqb in E.
      destruct (fable_eq_dec x c); [now subst|discriminate].
    + intros H. apply filter_In. split.
      * destruct (survivors_In tg x H) as (k & g & Hg & Hx).
        destruct (Hgrp k g Hg) as [E _]. rewrite E in Hx.
        now apply filter_In in Hx.
      * unfold kept_in. apply existsb_exists. exists x.
        split; [exact H | apply fable_eqb_refl].
Qed.

(** C7. On complete records, in a group of more than one member every
    candidate that is not equal, field for field, to the selected record
    is recorded as a removed entry, under its source URL with everything
    up to and including the last ['?srch&'] stripped when the URL holds
    that marker and under the URL itself otherwise; every input record is
    equal to a record of the output or has such an entry; and the list of
    removed stories holds, group after group, the entries of the
    candidates that differ from the selected record and nothing else, so
    that a candidate equal in every field to the selected record has no
    entry.  When no record occurs twice in the input, the candidates
    dropped from the output have one entry each. *)
Theorem removed_candidates_are_audited (fables : list fable) :
  forallb complete fables = true ->
  exists tg st,
    group_fables fables = Ok tg /\
    deduplicate_fables fables = Ok st /\
    audit_trail fables tg st /\
    (forall u, suffix_of_url u (url_suffix u)) /\
    removed_stories st = removals tg /\
    (NoDup fables -> dropped_have_entries fables st).
Proof.
  intros Hc.
  destruct (deduplicate_fables_ok fables Hc)
    as (tg & Hg & Hd & Hnd & Hgrp & Hin).
  assert (Hp : Permutation (List.concat (map snd tg)) fables).
  { assert (Ht : Forall (fun f => title f <> None) fables).
    { apply Forall_forall. intros f Hf. rewrite forallb_forall in Hc.
      now apply complete_fields, Hc. }
    pose proof Hg as Hg'. rewrite (group_fables_ok fables Ht) in Hg'.
    injection Hg' as <-. apply (group_by_spec key_of fables). }
  rewrite forallb_forall in Hc.
  assert (Hurl : forall c u, In c fables -> url c = Some u -> url_of c = u).
  { intros c u _ E. unfold url_of. now rewrite E. }
  exists tg. eexists. split; [exact Hg|]. split; [exact Hd|].
  split; [|split; [exact url_suffix_spec|split; [reflexivity|]]].
  - split; simpl.
    + intros k g best c u Hkg Hlen Hbest Hcg Hne Hu.
      destruct (Hgrp k g Hkg) as [E _].
      assert (Hall : forallb complete g = true).
      { apply forallb_forall. intros f Hf. apply Hc.
        rewrite E in Hf. now apply filter_In in Hf. }
      destruct g as [|x r]; [contradiction|].
      rewrite choose_best_version_ok in Hbest by now apply complete_scorable.
      injection Hbest as <-.
      unfold removals. apply in_flat_map. exists (k, x :: r).
      split; [exact Hkg|]. simpl.
      rewrite <- (Hurl c u); auto.
      * now apply removed_of_In.
      * rewrite E in Hcg. now apply filter_In in Hcg.
    + intros c u Hcf Hu.
      destruct (Hin c Hcf) as (k & g & Hkg & Hcg).
      destruct g as [|x r]; [contradiction|].
      destruct (fable_eq_dec c (best_of x r)) as [E|Hne].
      * left. unfold survivors. apply in_flat_map. exists (k, x :: r).
        split; [exact Hkg|]. simpl. auto.
      * right. unfold removals. apply in_flat_map. exists (k, x :: r).
        split; [exact Hkg|]. simpl.
        rewrite <- (Hurl c u); auto. now apply removed_of_In.
  - intros Hf. cbn [deduplicated_fables removed_stories].
    exists (filter (fun f => negb (kept_in (survivors tg) f)) fables).
    split.
    + transitivity (filter (kept_in (survivors tg)) fables
                    ++ filter (fun f => negb (kept_in (survivors tg) f))
                              fables).
      * apply filter_partition.
      * apply Permutation_app_tail. now apply kept_records.
    + now apply removals_dropped.
Qed.

Lemma removed_candidates_are_audited_witness :
  forallb complete corpus = true /\
  exists tg st,
    group_fables corpus = Ok tg /\
    deduplicate_fables corpus = Ok st /\
    audit_trail corpus tg st /\
    (forall u, suffix_of_url u (url_suffix u)) /\
    removed_stories st = removals tg /\
    (NoDup corpus -> dropped_have_entries corpus st).
Proof.
  split; [reflexivity|].
  apply (removed_candidates_are_audited corpus). reflexivity.
Defined.

(** The audit as the specification words it fails on a group that holds
    the same record twice: one of the two candidates is dropped from the
    output and counted, and the list of removed stories stays empty. *)
Lemma identical_copy_has_no_entry :
  group_fables [fox_mid; fox_mid]
    = Ok [(("fox" : str), [fox_mid; fox_mid])] /\
  choose_best_version [fox_mid; fox_mid] = Ok fox_mid /\
  deduplicate_fables [fox_mid; fox_mid] = Ok (mkState [fox_mid] 1 []) /\
  ~ dropped_have_entries [fox_mid; fox_mid] (mkState [fox_mid] 1 []).
Proof.
  split; [reflexivity|]. split; [reflexivity|]. split; [reflexivity|].
  intros (dropped & P1 & P2).
  apply Permutation_length in P1. apply Permutation_length in P2.
  cbn [deduplicated_fables removed_stories List.length] in P1, P2.
  rewrite length_app in P1. rewrite length_map in P2.
  cbn [List.length] in P1. lia.
Qed.

(** ** The characters of a key *)

Lemma isword_cases c :
  isword c = true -> isalnum c = true \/ c = "_"%char.
Proof.
  unfold isword, in_range, code. rewrite orb_true_iff, andb_true_iff.
  intros [H|[H1 H2]]; [now left|right].
  apply N.leb_le in H1, H2. rewrite <- (ascii_N_embedding c).
  replace (N_of_ascii c) with 95%N by lia. reflexivity.
Qed.

Lemma Forall_drop_space (P : ascii -> Prop) s :
  Forall P s -> Forall P (drop_space s).
Proof.
  induction 1 as [|c s Hc Hs IH]; simpl; [constructor|].
  destruct (isspace c); auto.
Qed.

Lemma Forall_strip (P : ascii -> Prop) s : Forall P s -> Forall P (strip s).
Proof.
  intros H. unfold strip.
  now apply Forall_rev, Forall_drop_space, Forall_rev, Forall_drop_space.
Qed.

Lemma Forall_sub_spaces (P : ascii -> Prop) s : forall in_run,
  P " "%char -> Forall (fun c => isspace c = false -> P c) s ->
  Forall P (sub_spaces in_run s).
Proof.
  intros in_run Hsp H. revert in_run.
  induction H as [|c s Hc Hs IH]; intros in_run; simpl; [constructor|].
  destruct (isspace c) eqn:E.
  - destruct in_run; auto.
  - constructor; auto.
Qed.

(** Every character of a key is alphanumeric, an underscore or a space. *)
Lemma normalize_title_chars t :
  Forall (fun c => isalnum c = true \/ c = "_"%char \/ c = " "%char)
         (normalize_title t).
Proof.
  unfold normalize_title. apply Forall_strip, Forall_sub_spaces; [auto|].
  apply Forall_forall. intros c Hin Hsp.
  apply filter_In in Hin. destruct Hin as [_ Hc].
  rewrite Hsp, orb_false_r in Hc.
  destruct (isword_cases c Hc); auto.
Qed.

(** C5. The fourth step of the normaliser is meant to remove every
    character that is not a letter, a digit or white space.  The code
    keeps the underscore, which is none of these: the title
    ["fox_grapes"] is its own key.  No other character outside the
    alphanumeric ones and the space reaches a key. *)
Theorem underscore_survives_normalisation :
  normalize_title "fox_grapes" = ("fox_grapes" : str) /\
  isalnum "_"%char = false /\ isspace "_"%char = false /\
  normalize_title "fox_grapes" <> normalize_title "foxgrapes" /\
  forall t,
    Forall (fun c => isalnum c = true \/ c = "_"%char \/ c = " "%char)
           (normalize_title t).
Proof.
  split; [reflexivity|]. split; [reflexivity|]. split; [reflexivity|].
  split; [vm_compute; discriminate|]. apply normalize_title_chars.
Qed.

(** ** Keys of article and genre titles *)

Lemma lower_app a b : lower (a ++ b) = lower a ++ lower b.
Proof. apply map_app. Qed.

Lemma article_genre_key art gen :
  In (lower art) articles -> In (lower gen) genres ->
  normalize_title (art ++ " " ++ gen) = lower gen.
Proof.
  intros Ha Hg. unfold normalize_title.
  rewrite !lower_app.
  change (lower (" " : str)) with (" " : str).
  destruct Ha as [<-|[<-|[<-|[]]]]; destruct Hg as [<-|[<-|[<-|[]]]];
    reflexivity.
Qed.

(** C10, as the code has it.  A title made of an article and a genre word
    does not normalise to the empty string but to the genre word (the
    article step takes the white space that the genre step needs): "The
    Tale" gives "tale" and "A Story" gives "story".  Other titles do
    normalise to the empty string (white space before a lone genre word,
    an article before white space only, punctuation only, the empty
    title); the records of such titles all fall into the one group of the
    empty key, and at most one record of that key is in the output. *)
Theorem empty_key_group (art gen : str) (fables : list fable) :
  In (lower art) articles -> In (lower gen) genres ->
  forallb complete fables = true ->
  normalize_title (art ++ " " ++ gen) = lower gen /\
  normalize_title " Tale" = [] /\ normalize_title "The " = [] /\
  normalize_title "?!" = [] /\ normalize_title "" = [] /\
  exists tg st,
    group_fables fables = Ok tg /\
    deduplicate_fables fables = Ok st /\
    (forall f, In f fables -> has_key [] f = true ->
       In ([], filter (has_key []) fables) tg) /\
    (List.length (filter (has_key []) (deduplicated_fables st)) <= 1)%nat.
Proof.
  intros Ha Hg Hc.
  split; [now apply article_genre_key|].
  do 4 (split; [reflexivity|]).
  destruct (deduplicate_fables_ok fables Hc)
    as (tg & Htg & Hd & Hnd & Hgrp & Hin).
  exists tg. eexists. split; [exact Htg|]. split; [exact Hd|]. split.
  - intros f Hf Hk. now apply (group_of_key fables tg [] f).
  - simpl. rewrite (survivors_of_key fables tg [] Hnd Hgrp Hin).
    destruct (filter (has_key []) fables); simpl; lia.
Qed.

Lemma empty_key_group_witness :
  In (lower "The") articles /\ In (lower "Tale") genres /\
  forallb complete corpus = true /\
  normalize_title "The Tale" = ("tale" : str).
Proof.
  split; [simpl; tauto|]. split; [simpl; tauto|]. split; [reflexivity|].
  apply (empty_key_group "The" "Tale" corpus);
    [simpl; tauto | simpl; tauto | reflexivity].
Defined.

(** The titles "The Tale" and "A Story" have the keys "tale" and "story",
    not the empty key, and the records of the two titles both survive. *)
Lemma article_genre_key_not_empty :
  normalize_title "The Tale" = ("tale" : str) /\
  normalize_title "A Story" = ("story" : str) /\
  normalize_title "The Tale" <> [] /\ normalize_title "A Story" <> [] /\
  exists st,
    deduplicate_fables [the_tale; a_story] = Ok st /\
    deduplicated_fables st = [the_tale; a_story].
Proof.
  split; [reflexivity|]. split; [reflexivity|].
  split; [vm_compute; discriminate|]. split; [vm_compute; discriminate|].
  eexists. split; reflexivity.
Qed.

(** ** Titles that share a key *)

Lemma lower_char_space c :
  implb (isspace c) (ascii_eqb (lower_char c) c) = true.
Proof. destruct c as [[] [] [] [] [] [] [] []]; reflexivity. Qed.

Lemma lower_space ws : forallb isspace ws = true -> lower ws = ws.
Proof.
  induction ws as [|w ws IH]; simpl; [reflexivity|].
  rewrite andb_true_iff. intros [Hw Hws].
  pose proof (lower_char_space w) as H. rewrite Hw in H. simpl in H.
  apply ascii_eqb_eq in H. now rewrite H, IH.
Qed.

Lemma drop_space_app_space ws s :
  forallb isspace ws = true -> drop_space (ws ++ s) = drop_space s.
Proof.
  induction ws as [|w ws IH]; simpl; [reflexivity|].
  rewrite andb_true_iff. intros [-> Hws]. auto.
Qed.

Lemma drop_space_all ws : forallb isspace ws = true -> drop_space ws = [].
Proof.
  intros H. rewrite <- (app_nil_r ws), drop_space_app_space; auto.
Qed.

Lemma drop_space_head c s : isspace c = false -> drop_space (c :: s) = c :: s.
Proof. intros H. simpl. now rewrite H. Qed.

Lemma drop_space_app_some r s :
  forallb isspace r = false ->
  exists x r1, isspace x = false /\ drop_space r = x :: r1 /\
               drop_space (r ++ s) = x :: r1 ++ s.
Proof.
  induction r as [|c r IH]; simpl; [discriminate|].
  destruct (isspace c) eqn:E; simpl.
  - exact IH.
  - intros _. exists c, r. auto.
Qed.

(** *** The article step *)

Lemma match_token_spaces_cons x tok c s :
  match_token_spaces (x :: tok) (c :: s) =
  if ascii_eqb x c then match_token_spaces tok s else None.
Proof.
  unfold match_token_spaces. simpl. now destruct (ascii_eqb x c).
Qed.

Lemma match_token_spaces_ext tok : forall b g,
  forallb (fun x => negb (isspace x)) tok = true ->
  starts_space g ->
  match_token_spaces tok (b ++ " ") = None ->
  match_token_spaces tok (b ++ g) = None.
Proof.
  induction tok as [|x tok IH]; intros b g Htok Hg H.
  - destruct b as [|c b]; [discriminate H|].
    unfold match_token_spaces in *. simpl in *.
    now destruct (isspace c).
  - simpl in Htok. apply andb_true_iff in Htok. destruct Htok as [Hx Htok].
    destruct b as [|c b].
    + destruct g as [|w g]; [reflexivity|].
      simpl in *. rewrite match_token_spaces_cons.
      destruct (ascii_eqb x w) eqn:E; [|reflexivity].
      apply ascii_eqb_eq in E. subst w. rewrite Hg in Hx. discriminate.
    + simpl in *. rewrite match_token_spaces_cons in *.
      destruct (ascii_eqb x c); [|reflexivity]. now apply IH.
Qed.

Lemma sub_article_none b g :
  starts_space g ->
  first_match match_token_spaces articles (b ++ " ") = None ->
  sub_article (b ++ g) = b ++ g.
Proof.
  intros Hg H. unfold sub_article, articles in *. cbn [first_match] in *.
  destruct (match_token_spaces "the" (b ++ " ")) eqn:E1; [discriminate|].
  destruct (match_token_spaces "a" (b ++ " ")) eqn:E2; [discriminate|].
  destruct (match_token_spaces "an" (b ++ " ")) eqn:E3; [discriminate|].
  rewrite (match_token_spaces_ext "the" b g), (match_token_spaces_ext "a" b g),
    (match_token_spaces_ext "an" b g); auto.
Qed.

Lemma sub_article_some art w ws s :
  In art articles -> forallb isspace (w :: ws) = true ->
  sub_article (art ++ (w :: ws) ++ s) = drop_space s.
Proof.
  intros Ha H. simpl in H. apply andb_true_iff in H. destruct H as [Hw Hws].
  unfold sub_article, articles.
  destruct Ha as [<-|[<-|[<-|[]]]]; cbn; rewrite Hw;
    now rewrite drop_space_app_space.
Qed.

(** *** The genre step *)

Lemma genres_match gen :
  In gen genres -> first_match match_token_end genres gen = Some [].
Proof. intros [<-|[<-|[<-|[]]]]; reflexivity. Qed.

Lemma genres_head gen :
  In gen genres -> exists x r, gen = x :: r /\ isspace x = false.
Proof. intros [<-|[<-|[<-|[]]]]; eexists; eexists; split; reflexivity. Qed.

Lemma genres_length gen :
  In gen genres -> (4 <= List.length gen <= 5)%nat.
Proof. intros [<-|[<-|[<-|[]]]]; simpl; lia. Qed.

Lemma at_end_inv l :
  at_end l = true -> l = [] \/ l = [ascii_of_N 10].
Proof.
  destruct l as [|c [|d l]]; simpl; try discriminate; auto.
  intros H. apply N.eqb_eq in H. right. f_equal.
  rewrite <- (ascii_N_embedding c). unfold code in H. now rewrite H.
Qed.

(** Inside the title no genre token can reach the end: a word and white
    space still follow. *)
Lemma no_inner_match x r1 w ws gen tok :
  In gen genres -> In tok genres ->
  match_token_end tok ((x :: r1) ++ (w :: ws) ++ gen) = None.
Proof.
  intros Hgen Htok. unfold match_token_end.
  destruct (starts_with tok _) as [l|] eqn:E; [|reflexivity].
  destruct (at_end l) eqn:Ea; [exfalso|reflexivity].
  apply starts_with_inv in E. apply at_end_inv in Ea.
  pose proof (f_equal (@List.length ascii) E) as Hlen.
  pose proof (f_equal (@rev ascii) E) as Hrev.
  pose proof (genres_length gen Hgen). pose proof (genres_length tok Htok).
  simpl in Hlen. rewrite !length_app in Hlen. simpl in Hlen.
  rewrite length_app in Hlen.
  destruct Ea as [->| ->]; simpl in Hlen; [lia|].
  rewrite !rev_app_distr in Hrev.
  destruct Hgen as [<-|[<-|[<-|[]]]]; vm_compute in Hrev;
    discriminate Hrev.
Qed.

Lemma sub_genre_suffix b W gen :
  W <> [] -> forallb isspace W = true -> In gen genres ->
  sub_genre (b ++ W ++ gen) = rstrip b.
Proof.
  intros HW Hws Hgen.
  destruct (genres_head gen Hgen) as (x0 & g0 & Egen & Hx0).
  assert (Hdrop : forall r, forallb isspace r = true ->
            drop_space (r ++ W ++ gen) = gen).
  { intros r Hr. rewrite !drop_space_app_space by assumption.
    rewrite Egen. now apply drop_space_head. }
  induction b as [|c r IH].
  - destruct W as [|w ws]; [congruence|].
    simpl in Hws. apply andb_true_iff in Hws. destruct Hws as [Hw Hws'].
    cbn [app sub_genre rstrip]. rewrite Hw.
    rewrite drop_space_app_space by assumption.
    rewrite Egen at 1. rewrite drop_space_head by assumption.
    rewrite <- Egen. now rewrite genres_match.
  - cbn [app sub_genre rstrip forallb].
    destruct (isspace c) eqn:Ec; cbn [andb]; [|now rewrite IH].
    destruct (forallb isspace r) eqn:Er.
    + rewrite Hdrop by assumption. now rewrite genres_match.
    + destruct (drop_space_app_some r (W ++ gen) Er)
        as (x & r1 & Hx & _ & ->).
      destruct W as [|w ws]; [congruence|].
      change (x :: r1 ++ (w :: ws) ++ gen)
        with ((x :: r1) ++ (w :: ws) ++ gen).
      unfold genres at 1. cbn [first_match].
      rewrite !no_inner_match by (auto; simpl; tauto).
      now rewrite IH.
Qed.

(** *** The last steps *)

Lemma rstrip_decompose b :
  exists t, forallb isspace t = true /\ b = rstrip b ++ t.
Proof.
  induction b as [|c r (t & Ht & E)].
  - exists []. auto.
  - cbn [rstrip]. destruct (forallb isspace (c :: r)) eqn:Ec.
    + exists (c :: r). auto.
    + exists t. split; [exact Ht|]. simpl. now rewrite <- E.
Qed.

Lemma sub_punct_app_space y t :
  forallb isspace t = true -> sub_punct (y ++ t) = sub_punct y ++ t.
Proof.
  intros Ht. unfold sub_punct. rewrite filter_app. f_equal.
  induction t as [|c t IH]; simpl in *; [reflexivity|].
  apply andb_true_iff in Ht. destruct Ht as [Hc Ht].
  rewrite Hc, orb_true_r, IH by assumption. reflexivity.
Qed.

Lemma sub_spaces_space t : forall in_run,
  forallb isspace t = true -> forallb isspace (sub_spaces in_run t) = true.
Proof.
  induction t as [|c t IH]; intros in_run; simpl; [reflexivity|].
  rewrite andb_true_iff. intros [-> Ht].
  destruct in_run; simpl; auto.
Qed.

Lemma sub_spaces_app_space y t : forall in_run,
  forallb isspace t = true ->
  exists s, forallb isspace s = true /\
            sub_spaces in_run (y ++ t) = sub_spaces in_run y ++ s.
Proof.
  induction y as [|c y IH]; intros in_run Ht.
  - exists (sub_spaces in_run t). split; [now apply sub_spaces_space|].
    reflexivity.
  - cbn [app sub_spaces]. destruct (isspace c); [destruct in_run|].
    + apply IH, Ht.
    + destruct (IH true Ht) as (s0 & Hs & ->). exists s0. auto.
    + destruct (IH false Ht) as (s0 & Hs & ->). exists s0. auto.
Qed.

Lemma strip_app_space z t :
  forallb isspace t = true -> strip (z ++ t) = strip z.
Proof.
  intros Ht. unfold strip.
  assert (H : exists t', forallb isspace t' = true /\
                         drop_space (z ++ t) = drop_space z ++ t').
  { induction z as [|c z IH].
    - exists []. split; [reflexivity|]. simpl. now apply drop_space_all.
    - cbn [app drop_space]. destruct (isspace c); [exact IH|].
      exists t. auto. }
  destruct H as (t' & Ht' & ->).
  rewrite rev_app_distr, drop_space_app_space; [reflexivity|].
  rewrite forallb_forall in *. intros c Hc. apply Ht', in_rev, Hc.
Qed.

Lemma clean_rstrip b : clean (rstrip b) = clean b.
Proof.
  destruct (rstrip_decompose b) as (t & Ht & E).
  rewrite E at 2. unfold clean.
  rewrite sub_punct_app_space by assumption.
  destruct (sub_spaces_app_space (sub_punct (rstrip b)) t false Ht)
    as (s0 & Hs & ->).
  now rewrite strip_app_space.
Qed.

(** *** The key of a shaped title *)

Lemma lower_genre_suffix G :
  genre_suffix G ->
  lower G = [] \/
  exists W gen, W <> [] /\ forallb isspace W = true /\ In gen genres /\
               lower G = W ++ gen.
Proof.
  intros [|w ws gen Hws Hgen]; [now left|right].
  exists (w :: ws), (lower gen). repeat split; auto; [discriminate|].
  now rewrite lower_app, lower_space.
Qed.

(** The key of [article ++ body ++ genre] is the cleaned body. *)
Lemma normalize_shape A B G :
  article_prefix A -> genre_suffix G -> body_ok B = true ->
  normalize_title (A ++ B ++ G) = clean (lower B).
Proof.
  intros HA HG HB. unfold body_ok in HB. cbv zeta in HB.
  rewrite !andb_true_iff in HB. destruct HB as [[Hhead Hart] Hgen].
  apply str_eqb_eq in Hgen.
  destruct (lower B) as [|c b] eqn:Eb; [discriminate|].
  apply negb_true_iff in Hhead.
  destruct (first_match match_token_spaces articles ((c :: b) ++ " "))
    eqn:Hnone; [discriminate|]. clear Hart.
  assert (Hg : starts_space (lower G)).
  { destruct (lower_genre_suffix G HG)
      as [->|([|w ws] & gen & HW & Hws & _ & ->)];
      simpl; [exact I|congruence|].
    simpl in Hws. now apply andb_true_iff in Hws. }
  assert (Hstep2 : sub_article (lower (A ++ B ++ G)) = (c :: b) ++ lower G).
  { rewrite !lower_app, Eb. destruct HA as [|art w ws Ha Hws].
    - simpl lower. cbn [app]. now apply (sub_article_none (c :: b)).
    - rewrite lower_app, (lower_space (w :: ws) Hws).
      rewrite <- app_assoc.
      rewrite (sub_article_some (lower art) w ws) by assumption.
      now apply drop_space_head. }
  change (normalize_title (A ++ B ++ G))
    with (clean (sub_genre (sub_article (lower (A ++ B ++ G))))).
  rewrite Hstep2.
  destruct (lower_genre_suffix G HG)
    as [->|(W & gen & HW & Hws & Hin & ->)].
  - rewrite app_nil_r, Hgen. reflexivity.
  - rewrite sub_genre_suffix by assumption. apply clean_rstrip.
Qed.

(** C6, as the code has it.  Two titles, each made of an optional leading
    article token with its white space, a body, and an optional trailing
    genre token with its white space, normalise to the same key when their
    bodies are equal once lowercased and cleared of the characters that
    are neither word characters nor white space, provided each body
    begins with a character that is not white space, does not begin with
    an article token as a word and does not end in white space and a
    genre token.  In particular "The Fox And The Grapes Fable" and "fox
    and the grapes" share their key. *)
Theorem shaped_variants_share_key (A1 B1 G1 A2 B2 G2 : str) :
  article_prefix A1 -> genre_suffix G1 -> body_ok B1 = true ->
  article_prefix A2 -> genre_suffix G2 -> body_ok B2 = true ->
  sub_punct (lower B1) = sub_punct (lower B2) ->
  normalize_title (A1 ++ B1 ++ G1) = normalize_title (A2 ++ B2 ++ G2).
Proof.
  intros HA1 HG1 HB1 HA2 HG2 HB2 E.
  rewrite !normalize_shape by assumption.
  unfold clean. now rewrite E.
Qed.

Lemma shaped_variants_share_key_witness :
  article_prefix "The " /\ genre_suffix " Fable" /\
  body_ok "Fox And The Grapes" = true /\
  article_prefix "" /\ genre_suffix "" /\
  body_ok "fox and the grapes" = true /\
  normalize_title "The Fox And The Grapes Fable" =
  normalize_title "fox and the grapes".
Proof.
  assert (HA : article_prefix "The ")
    by (apply (an_article "The" " "%char []); [simpl; tauto|reflexivity]).
  assert (HG : genre_suffix " Fable")
    by (apply (a_genre " "%char [] "Fable"); [reflexivity|simpl; tauto]).
  split; [exact HA|]. split; [exact HG|]. split; [reflexivity|].
  split; [constructor|]. split; [constructor|]. split; [reflexivity|].
  apply (shaped_variants_share_key
           "The " "Fox And The Grapes" " Fable" "" "fox and the grapes" "");
    try assumption; try constructor; reflexivity.
Defined.

(** The general statement fails: a mark of punctuation after a trailing
    genre word keeps the genre word in the key, an article before an
    article is taken alone, and a genre word after a lone article is
    kept. *)
Lemma variants_with_distinct_keys :
  differ_only_by "Fox Tale!" "Fox Tale" /\
  normalize_title "Fox Tale!" <> normalize_title "Fox Tale" /\
  differ_only_by "The A Fox" "A Fox" /\
  normalize_title "The A Fox" <> normalize_title "A Fox" /\
  differ_only_by "The Fable" "The" /\
  normalize_title "The Fable" <> normalize_title "The".
Proof.
  split; [apply only_punctuation; reflexivity|].
  split; [vm_compute; discriminate|].
  split; [apply (only_article "The" "A Fox"); simpl; tauto|].
  split; [vm_compute; discriminate|].
  split; [apply (only_genre "The" "Fable"); simpl; tauto|].
  vm_compute; discriminate.
Qed.

(** ** Records with a missing field *)

Lemma for_each_raise {A S} (body : S -> A -> result S) (step : S -> A -> S)
    (l1 : list A) (x : A) (l2 : list A) (e : exn) :
  (forall s y, In y l1 -> body s y = Ok (step s y)) ->
  (forall s, body s x = Raise e) ->
  forall s, for_each body (l1 ++ x :: l2) s = Raise e.
Proof.
  intros H1 Hx s. rewrite for_each_app, (for_each_pure body step l1 H1).
  simpl. now rewrite Hx.
Qed.

Lemma untitled_record_aborts before f after :
  forallb complete before = true -> title f = None ->
  deduplicate_fables (before ++ f :: after) = Raise (KeyError "title").
Proof.
  intros Hb Hf. unfold deduplicate_fables, group_fables.
  rewrite (for_each_raise _
             (fun d f => append_to (key_of f) f d) before f after
             (KeyError "title")); [reflexivity| |].
  - intros d m Hin. rewrite forallb_forall in Hb.
    destruct (complete_fields m (Hb m Hin)) as (Ht & _).
    unfold subscript, key_of, fable_key.
    destruct (title m); simpl; congruence.
  - intros d. unfold subscript. now rewrite Hf.
Qed.

Section OneIncompleteRecord.

Variables (before after : list fable) (f : fable) (t : str).
Variables (fables : list fable) (k : str).

Hypothesis others_complete : forallb complete (before ++ after) = true.
Hypothesis f_title : title f = Some t.
Hypothesis fables_eq : fables = before ++ f :: after.
Hypothesis k_eq : k = normalize_title t.

Lemma f_has_key : has_key k f = true.
Proof.
  unfold has_key, fable_key. rewrite f_title, k_eq. simpl.
  apply str_eqb_refl.
Qed.

Lemma fables_cases m :
  In m fables -> m = f \/ complete m = true.
Proof.
  rewrite fables_eq. intros H. apply in_app_or in H.
  pose proof others_complete as Hc. rewrite forallb_forall in Hc.
  destruct H as [H|[H|H]]; auto; right; apply Hc, in_or_app; auto.
Qed.

Lemma fables_grouped :
  exists tg,
    group_fables fables = Ok tg /\ NoDup (map fst tg) /\
    (forall k' g, In (k', g) tg -> g = filter (has_key k') fables /\ g <> [])
    /\ In (k, filter (has_key k) fables) tg.
Proof.
  assert (Ht : forall m, In m fables -> title m <> None).
  { intros m Hm. destruct (fables_cases m Hm) as [->|Hc].
    - rewrite f_title. discriminate.
    - now apply complete_fields. }
  destruct (group_fables_groups fables Ht)
    as (tg & Hg & _ & Hnd & Hgrp & Hin).
  exists tg. split; [exact Hg|]. split; [exact Hnd|]. split; [exact Hgrp|].
  apply (group_of_key fables tg k f Hgrp Hin); [|apply f_has_key].
  rewrite fables_eq. apply in_or_app. right; left; reflexivity.
Qed.

(** The groups of the other keys hold complete records only. *)
Lemma other_groups_complete (tg : groups) k' g :
  (forall k' g, In (k', g) tg -> g = filter (has_key k') fables /\ g <> []) ->
  In (k', g) tg -> k' <> k -> group_ok g = true.
Proof.
  intros Hgrp Hin Hk. destruct (Hgrp k' g Hin) as [E Hne].
  apply group_ok_intro; [exact Hne|].
  intros m Hm. left. rewrite E in Hm. apply filter_In in Hm.
  destruct Hm as [Hm Hkey].
  destruct (fables_cases m Hm) as [->|Hc]; [|exact Hc].
  rewrite (has_key_unique k' k f f_has_key) in Hkey.
  apply str_eqb_eq in Hkey. congruence.
Qed.

Lemma group_of_f :
  filter (has_key k) fables =
  filter (has_key k) before ++ f :: filter (has_key k) after.
Proof.
  rewrite fables_eq, filter_app. simpl. now rewrite f_has_key.
Qed.

(** Alone under its key, the record is kept whatever it lacks. *)
Lemma lone_record_kept :
  existsb (has_key k) (before ++ after) = false ->
  exists st, deduplicate_fables fables = Ok st /\
             In f (deduplicated_fables st).
Proof.
  intros Halone.
  destruct fables_grouped as (tg & Hg & Hnd & Hgrp & Hkg).
  assert (Hnone : forall l, (forall m, In m l -> In m (before ++ after)) ->
            filter (has_key k) l = []).
  { intros l Hl. induction l as [|m l IH]; [reflexivity|]. simpl.
    destruct (has_key k m) eqn:E.
    - assert (existsb (has_key k) (before ++ after) = true).
      { apply existsb_exists. exists m. split; [|exact E].
        apply Hl. left; reflexivity. }
      congruence.
    - apply IH. intros; apply Hl; right; assumption. }
  rewrite group_of_f in Hkg.
  rewrite (Hnone before), (Hnone after) in Hkg
    by (intros; apply in_or_app; auto).
  simpl in Hkg.
  unfold deduplicate_fables. rewrite Hg. simpl.
  rewrite dedup_groups_ok.
  - eexists. split; [reflexivity|]. simpl.
    unfold survivors. apply in_flat_map. exists (k, [f]).
    split; [exact Hkg|]. left. reflexivity.
  - apply forallb_forall. intros [k' g] Hin. simpl.
    destruct (str_eq_dec k' k) as [->|Hne].
    + rewrite <- (lookup_In k g tg Hnd Hin), (lookup_In k [f] tg Hnd Hkg).
      reflexivity.
    + now apply (other_groups_complete tg k' g).
Qed.

(** With a second record under its key, the first subscript that fails
    on the record aborts the pass. *)
Lemma shared_key_aborts (e : exn) :
  existsb (has_key k) (before ++ after) = true ->
  (forall st g1 g2,
     forallb complete (g1 ++ g2) = true ->
     (1 < List.length (g1 ++ f :: g2))%nat ->
     dedup_group st (k, g1 ++ f :: g2) = Raise e) ->
  deduplicate_fables fables = Raise e.
Proof.
  intros Hshared Hraise.
  destruct fables_grouped as (tg & Hg & Hnd & Hgrp & Hkg).
  rewrite group_of_f in Hkg.
  set (g1 := filter (has_key k) before) in *.
  set (g2 := filter (has_key k) after) in *.
  pose proof others_complete as Hoc.
  assert (Hc : forallb complete (g1 ++ g2) = true).
  { rewrite forallb_forall in *. intros m Hm. apply Hoc.
    apply in_app_or in Hm. apply in_or_app.
    destruct Hm as [Hm|Hm]; apply filter_In in Hm; tauto. }
  assert (Hlen : (1 < List.length (g1 ++ f :: g2))%nat).
  { apply existsb_exists in Hshared. destruct Hshared as (m & Hm & Hkm).
    assert (Hin : In m (g1 ++ g2)).
    { apply in_app_or in Hm. apply in_or_app.
      destruct Hm as [Hm|Hm]; [left|right]; apply filter_In; auto. }
    rewrite length_app. simpl.
    destruct g1 as [|a g1']; destruct g2 as [|b g2']; simpl in *;
      try lia; contradiction. }
  destruct (in_split _ _ Hkg) as (pre & post & E).
  unfold deduplicate_fables. rewrite Hg. simpl. rewrite E.
  rewrite for_each_app, dedup_groups_ok.
  - simpl. now rewrite Hraise.
  - apply forallb_forall. intros [k' g] Hin. simpl.
    apply (other_groups_complete tg k' g Hgrp).
    + rewrite E. apply in_or_app. now left.
    + intros ->. rewrite E, map_app in Hnd. simpl in Hnd.
      apply NoDup_remove_2 in Hnd. apply Hnd, in_or_app. left.
      now apply (in_map fst) in Hin.
Qed.

Lemma missing_word_count_aborts :
  existsb (has_key k) (before ++ after) = true ->
  word_count f = None ->
  deduplicate_fables fables = Raise (KeyError "word_count").
Proof.
  intros Hshared Hw. apply shared_key_aborts; [exact Hshared|].
  intros st g1 g2 Hc Hlen. unfold dedup_group.
  change (snd (k, g1 ++ f :: g2)) with (g1 ++ f :: g2).
  apply Nat.ltb_lt in Hlen. rewrite Hlen.
  rewrite (for_each_raise _ (fun _ _ => tt) g1 f g2
             (KeyError "word_count")); [reflexivity| |].
  - intros [] m Hm. apply print_version_ok.
    rewrite forallb_forall in Hc. apply Hc, in_or_app. now left.
  - intros s. unfold print_version, subscript.
    now rewrite f_title, Hw.
Qed.

Lemma missing_content_aborts :
  existsb (has_key k) (before ++ after) = true ->
  word_count f <> None -> content f = None ->
  deduplicate_fables fables = Raise (KeyError "content").
Proof.
  intros Hshared Hw Hcont. apply shared_key_aborts; [exact Hshared|].
  intros st g1 g2 Hc Hlen. unfold dedup_group.
  change (snd (k, g1 ++ f :: g2)) with (g1 ++ f :: g2).
  apply Nat.ltb_lt in Hlen. rewrite Hlen.
  rewrite forallb_forall in Hc.
  rewrite (for_each_pure _ (fun _ _ => tt)).
  - cbv beta iota delta [bind]. unfold choose_best_version.
    rewrite (for_each_raise _ (fun acc m => acc ++ [scored m]) g1 f g2
               (KeyError "content")); [reflexivity| |].
    + intros acc m Hm. rewrite score_version_ok; [reflexivity|].
      apply complete_fields, Hc, in_or_app. now left.
    + intros acc. unfold score_version, subscript. rewrite Hcont.
      destruct (word_count f); [reflexivity|congruence].
  - intros [] m Hm. apply in_app_or in Hm. destruct Hm as [Hm|[<-|Hm]].
    + apply print_version_ok, Hc, in_or_app. now left.
    + unfold print_version, subscript. rewrite f_title.
      destruct (word_count f); [reflexivity|congruence].
    + apply print_version_ok, Hc, in_or_app. now right.
Qed.

End OneIncompleteRecord.

(** C8, as the code has it.  The pass has no skip-and-continue: among
    complete records, a record without title aborts the whole pass with
    [KeyError]; a record with a title that lacks its word count or its
    content aborts the pass likewise when another record shares its key,
    and is kept in the output, unchecked, when it is alone under its
    key. *)
Theorem malformed_record_is_not_skipped (before after : list fable)
    (f : fable) :
  forallb complete (before ++ after) = true ->
  let fables := before ++ f :: after in
  (title f = None ->
   deduplicate_fables fables = Raise (KeyError "title")) /\
  (forall t, title f = Some t ->
     existsb (has_key (normalize_title t)) (before ++ after) = true ->
     (word_count f = None ->
      deduplicate_fables fables = Raise (KeyError "word_count")) /\
     (word_count f <> None -> content f = None ->
      deduplicate_fables fables = Raise (KeyError "content"))) /\
  (forall t, title f = Some t ->
     existsb (has_key (normalize_title t)) (before ++ after) = false ->
     exists st, deduplicate_fables fables = Ok st /\
                In f (deduplicated_fables st)).
Proof.
  intros Hc fables. split; [|split].
  - intros Ht. apply untitled_record_aborts; [|exact Ht].
    rewrite forallb_app in Hc. now apply andb_true_iff in Hc.
  - intros t Ht Hshared. split.
    + now apply (missing_word_count_aborts before after f t _ _ Hc Ht
                   eq_refl eq_refl).
    + now apply (missing_content_aborts before after f t _ _ Hc Ht
                   eq_refl eq_refl).
  - intros t Ht Halone.
    now apply (lone_record_kept before after f t _ _ Hc Ht eq_refl eq_refl).
Qed.

Lemma malformed_record_is_not_skipped_witness :
  forallb complete ([fox_short] ++ [crow]) = true /\
  deduplicate_fables ([fox_short] ++ untitled :: [crow]) =
  Raise (KeyError "title").
Proof.
  split; [reflexivity|].
  apply (malformed_record_is_not_skipped [fox_short] [crow] untitled);
    reflexivity.
Defined.

(** One record without title among well-formed ones: the pass raises,
    where skip-and-continue would return the result on the others. *)
Lemma malformed_record_aborts_batch :
  deduplicate_fables [fox_short; untitled; crow] = Raise (KeyError "title")
  /\ (exists st,
        deduplicate_fables (filter has_required [fox_short; untitled; crow])
        = Ok st)
  /\ ~ skips_malformed [fox_short; untitled; crow].
Proof.
  split; [reflexivity|]. split; [eexists; reflexivity|].
  intros (st & H & _). discriminate H.
Qed.

(** ** The vector store *)

Lemma combine_skipn {A B} n : forall (a : list A) (b : list B),
  combine (skipn n a) (skipn n b) = skipn n (combine a b).
Proof.
  induction n as [|n IH]; intros [|x a] [|y b]; simpl; auto.
  now destruct (skipn n a).
Qed.

Lemma combine_slice {A B} (a : list A) (b : list B) i j :
  combine (slice a i j) (slice b i j) = slice (combine a b) i j.
Proof. unfold slice. now rewrite <- combine_firstn, combine_skipn. Qed.

Lemma firstn_plus {A} a b : forall l : list A,
  firstn (a + b) l = firstn a l ++ firstn b (skipn a l).
Proof.
  induction a as [|a IH]; intros [|x l]; simpl; auto.
  - now rewrite firstn_nil.
  - now rewrite IH.
Qed.

Lemma firstn_min_length {A} k (l : list A) :
  firstn (Nat.min k (List.length l)) l = firstn k l.
Proof.
  destruct (Nat.le_ge_cases k (List.length l)) as [H|H].
  - now rewrite Nat.min_l.
  - rewrite Nat.min_r, firstn_all, firstn_all2; auto.
Qed.

Lemma enumerate_from {A} (l : list A) : forall s,
  combine (seq s (List.length l)) l =
  map (fun p => (s + fst p, snd p)%nat) (enumerate l).
Proof.
  unfold enumerate. induction l as [|x l IH]; intros s; simpl; auto.
  rewrite Nat.add_0_r. f_equal.
  rewrite (IH (S s)), (IH 1%nat), map_map. apply map_ext.
  intros [i y]. simpl. f_equal. lia.
Qed.

Lemma map_enumerate {A} (l : list A) :
  map fst (enumerate l) = seq 0 (List.length l) /\
  map snd (enumerate l) = l.
Proof.
  unfold enumerate. generalize 0%nat.
  induction l as [|x l IH]; intros s; simpl; auto.
  destruct (IH (S s)) as [-> ->]. auto.
Qed.

Lemma map_Some_inv {A B C} (g : A -> option B) (h : B -> C) (k : A -> C) :
  (forall a b, g a = Some b -> h b = k a) ->
  forall (l : list A) (new : list B),
    map Some new = map g l -> map h new = map k l.
Proof.
  intros H. induction l as [|a l IH]; intros [|b new]; simpl;
    try discriminate; auto.
  intros [= E1 E2]. f_equal; auto.
Qed.

Section StoreProperties.

Variable clean_content : str -> str.
Variable vector : Type.
Variable embed : str -> vector.
Variable max_batch : nat.

Hypothesis batch_fits : (batch_size <= max_batch)%nat.

(** The first loop: three lists of one length that hold, position by
    position, the parts of the entries of the records. *)
Lemma prepare_ok (l : list (nat * fable)) : forall documents metadatas ids,
  forallb complete (map snd l) = true ->
  exists ds ms js,
    for_each (prepare_fable clean_content) l (documents, metadatas, ids) =
      Ok (documents ++ ds, metadatas ++ ms, ids ++ js) /\
    List.length ds = List.length l /\ List.length ms = List.length l /\
    List.length js = List.length l /\
    map Some (map (new_entry embed) (combine js (combine ms ds))) =
    map (enumerated_entry clean_content embed) l.
Proof.
  induction l as [|[i f] l IH]; intros documents metadatas ids H.
  - exists [], [], []. simpl. now rewrite !app_nil_r.
  - simpl in H. apply andb_true_iff in H. destruct H as [Hf Hl].
    unfold complete in Hf.
    destruct (title f) as [t|] eqn:Et; [|discriminate].
    destruct (original_title f) as [o|] eqn:Eo; [|discriminate].
    destruct (url f) as [u|] eqn:Eu; [|discriminate].
    destruct (content f) as [raw|] eqn:Ec; [|discriminate].
    destruct (word_count f) as [w|] eqn:Ew; [|discriminate].
    cbn [for_each prepare_fable]. unfold subscript.
    rewrite Et, Eo, Eu, Ec, Ew. cbn [bind].
    destruct (IH (documents ++ [clean_content raw])
                 (metadatas ++ [mkMeta t o u w
                    (Z.of_nat (List.length (clean_content raw)))])
                 (ids ++ [fable_id i]) Hl)
      as (ds & ms & js & E & Hd & Hm & Hj & Hentries).
    eexists (_ :: ds), (_ :: ms), (_ :: js).
    rewrite E, <- !app_assoc. split; [reflexivity|].
    simpl. rewrite Hd, Hm, Hj, Hentries.
    repeat split; auto.
    unfold enumerated_entry, entry_of. simpl. now rewrite Et, Eo, Eu, Ec, Ew.
Qed.

(** One batch: at most [batch_size] entries, taken where the previous
    batch stopped. *)
Lemma add_batch_ok documents metadatas ids c i :
  List.length metadatas = List.length documents ->
  List.length ids = List.length documents ->
  add_batch embed max_batch documents metadatas ids c i =
  Ok (c ++ map (new_entry embed) (firstn batch_size
                     (skipn i (combine ids (combine metadatas documents))))).
Proof.
  intros Hm Hj. unfold add_batch, collection_add.
  set (n := List.length documents).
  set (j := Nat.min (i + batch_size) n).
  assert (Hlen : (List.length (slice documents i j) <=? max_batch)%nat = true).
  { apply Nat.leb_le. unfold slice. rewrite length_firstn. lia. }
  rewrite Hlen, !combine_slice. do 2 f_equal.
  unfold slice.  f_equal.
  set (E := combine ids (combine metadatas documents)).
  assert (HE : List.length E = n).
  { unfold E. rewrite !length_combine. lia. }
  rewrite <- (firstn_min_length batch_size).
  rewrite length_skipn, HE. f_equal. lia.
Qed.

(** The second loop puts the batches end to end. *)
Lemma add_batches_ok documents metadatas ids c :
  List.length metadatas = List.length documents ->
  List.length ids = List.length documents ->
  for_each (add_batch embed max_batch documents metadatas ids)
           (batch_starts (List.length documents)) c =
  Ok (c ++ map (new_entry embed) (combine ids (combine metadatas documents))).
Proof.
  intros Hm Hj.
  set (E := combine ids (combine metadatas documents)).
  assert (Hk : forall k,
            for_each (add_batch embed max_batch documents metadatas ids)
              (map (fun j => j * batch_size)%nat (seq 0 k)) c =
            Ok (c ++ map (new_entry embed) (firstn (k * batch_size) E))).
  { induction k as [|k IH].
    - simpl. now rewrite app_nil_r.
    - rewrite seq_S, map_app, for_each_app, IH.
      cbn [bind map for_each Nat.add].
      rewrite add_batch_ok by assumption. fold E. cbn [bind].
      rewrite <- app_assoc, <- map_app, <- firstn_plus.
      now replace (S k * batch_size)%nat
        with (k * batch_size + batch_size)%nat by lia. }
  unfold batch_starts. rewrite Hk. do 3 f_equal.
  apply firstn_all2.
  assert (HE : List.length E = List.length documents).
  { unfold E. rewrite !length_combine. lia. }
  rewrite HE. unfold batch_size.
  set (n := List.length documents).
  pose proof (Nat.div_mod_eq (n + 100 - 1) 100) as Hdiv.
  pose proof (Nat.mod_upper_bound (n + 100 - 1) 100) as Hmod.
  lia.
Qed.

Lemma embed_fables_ok fables c0 :
  forallb complete fables = true ->
  exists new,
    embed_fables clean_content embed max_batch fables c0 = Ok (c0 ++ new) /\
    map Some new =
    map (enumerated_entry clean_content embed) (enumerate fables).
Proof.
  intros Hc.
  destruct (prepare_ok (enumerate fables) [] [] [])
    as (ds & ms & js & E & Hd & Hm & Hj & Hentries).
  - destruct (map_enumerate fables) as [_ ->]. exact Hc.
  - exists (map (new_entry embed) (combine js (combine ms ds))).
    split; [|exact Hentries].
    unfold embed_fables. rewrite E. cbn [bind app].
    apply add_batches_ok; congruence.
Qed.

End StoreProperties.

Lemma entry_of_id (clean_content : str -> str) (vector : Type)
    (embed : str -> vector) i f (e : indexed_entry vector) :
  entry_of clean_content embed i f = Some e -> entry_id e = fable_id i.
Proof.
  unfold entry_of.
  destruct (title f), (original_title f), (url f), (content f),
           (word_count f); try discriminate.
  now intros [= <-].
Qed.

Lemma to_uint_not_nil (i : nat) : Nat.to_uint i <> Decimal.Nil.
Proof.
  rewrite <- (Unsigned.of_to i) at 1. rewrite Unsigned.to_of.
  unfold Decimal.unorm. destruct (Decimal.nzhead (Nat.to_uint i));
    discriminate.
Qed.

Lemma uint_of_zeros (k : nat) (s : str) :
  NilEmpty.uint_of_string (string_of_list_ascii (repeat "0"%char k ++ s)) =
  option_map (Nat.iter k Decimal.D0)
             (NilEmpty.uint_of_string (string_of_list_ascii s)).
Proof.
  induction k as [|k IH].
  - cbn. now destruct (NilEmpty.uint_of_string (string_of_list_ascii s)).
  - cbn [repeat app string_of_list_ascii NilEmpty.uint_of_string Nat.iter
         nat_rect].
    rewrite IH.
    now destruct (NilEmpty.uint_of_string (string_of_list_ascii s)).
Qed.

Lemma of_uint_zeros (k : nat) (d : Decimal.uint) :
  Nat.of_uint (Nat.iter k Decimal.D0 d) = Nat.of_uint d.
Proof.
  induction k as [|k IH]; [reflexivity|].
  cbn [Nat.iter nat_rect]. exact IH.
Qed.

Lemma decode_format (i : nat) : decode_decimal (format_04d i) = Some i.
Proof.
  unfold decode_decimal, format_04d, decimal.
  rewrite uint_of_zeros, string_of_list_ascii_of_string.
  assert (E : NilZero.string_of_uint (Nat.to_uint i)
              = NilEmpty.string_of_uint (Nat.to_uint i)).
  { pose proof (to_uint_not_nil i). now destruct (Nat.to_uint i). }
  rewrite E, NilEmpty.usu. cbn [option_map].
  now rewrite of_uint_zeros, Unsigned.of_to.
Qed.

Lemma fable_id_injective (i j : nat) : fable_id i = fable_id j -> i = j.
Proof.
  unfold fable_id. intros E. apply app_inv_head in E.
  pose proof (decode_format i) as Hi. rewrite E, decode_format in Hi.
  congruence.
Qed.

Lemma NoDup_map_injective {A B} (f : A -> B) (l : list A) :
  (forall x y, f x = f y -> x = y) -> NoDup l -> NoDup (map f l).
Proof.
  intros Hf. induction 1 as [|x l Hx Hnd IH]; cbn; constructor; auto.
  intros Hin. apply in_map_iff in Hin. destruct Hin as (y & E & Hy).
  apply Hf in E. now subst y.
Qed.

Lemma format_four_digits (i : nat) :
  (i < 100 * 100)%nat -> format_04d i = four_digits i.
Proof.
  intros Hi.
  assert (H : forallb (fun i => str_eqb (format_04d i) (four_digits i))
                      (seq 0 (100 * 100)) = true)
    by (vm_compute; reflexivity).
  rewrite forallb_forall in H. apply str_eqb_eq, H, in_seq. lia.
Qed.

Lemma to_uint_head (i : nat) :
  Nat.to_uint i = Decimal.D0 Decimal.Nil \/
  forall d, Nat.to_uint i <> Decimal.D0 d.
Proof.
  assert (E : Nat.to_uint i = Decimal.unorm (Nat.to_uint i)).
  { rewrite <- Unsigned.to_of. now rewrite Unsigned.of_to. }
  rewrite E. unfold Decimal.unorm.
  pose proof (DecimalFacts.nzhead_nonzero (Nat.to_uint i)) as Hn.
  destruct (Decimal.nzhead (Nat.to_uint i));
    [now left | now destruct (Hn u) |..]; right; discriminate.
Qed.

(** Beyond four characters an identifier has no zero in front. *)
Lemma format_no_spare_zero (i : nat) :
  (4 < List.length (format_04d i))%nat ->
  exists c r, format_04d i = c :: r /\ c <> "0"%char.
Proof.
  unfold format_04d. intros H. rewrite length_app, repeat_length in H.
  replace (4 - List.length (decimal i))%nat with 0%nat by lia.
  cbn [repeat app].
  assert (L : (4 < List.length (decimal i))%nat) by lia. clear H.
  unfold decimal in *.
  destruct (to_uint_head i) as [E|E].
  - rewrite E in L. cbn in L. lia.
  - destruct (Nat.to_uint i) as [|d|d|d|d|d|d|d|d|d|d];
      [cbn in L; lia | now destruct (E d) |..];
      cbn; eexists; eexists; (split; [reflexivity | discriminate]).
Qed.

(** C9. The batch insert of a sequence of complete records into a store
    that holds none of the identifiers to be assigned gives the record at
    position [i] (from zero) the identifier made of ["fable_"] and of [i]
    in decimal, padded with zeros to four digits (fable_0000, fable_0001,
    ...), in input order; reading the whole collection back returns what
    it held before followed by the new entries in the order submitted,
    and no identifier occurs twice if none did before.  The identifier of
    a position below ten thousand is ["fable_"] and its four decimal
    digits; whatever the position, the digits decode back to it, they are
    at least four, and beyond four no zero stands in front. *)
Theorem batch_insert_ids_and_order (clean_content : str -> str)
    (vector : Type) (embed : str -> vector) (max_batch : nat)
    (fables : list fable) (c0 : collection vector) :
  (batch_size <= max_batch)%nat ->
  forallb complete fables = true ->
  fresh_ids (List.length fables) c0 ->
  exists c new,
    embed_fables clean_content embed max_batch fables c0 = Ok c /\
    get_all c = get_all c0 ++ new /\
    map Some new =
      map (enumerated_entry clean_content embed) (enumerate fables) /\
    map entry_id new = map fable_id (seq 0 (List.length fables)) /\
    count c = (count c0 + List.length fables)%nat /\
    (NoDup (map entry_id (get_all c0)) -> NoDup (map entry_id (get_all c))) /\
    (forall i, (i < 100 * 100)%nat ->
               fable_id i = "fable_" ++ four_digits i) /\
    (forall i,
       decode_decimal (format_04d i) = Some i /\
       (4 <= List.length (format_04d i))%nat /\
       ((4 < List.length (format_04d i))%nat ->
        exists c r, format_04d i = c :: r /\ c <> "0"%char)) /\
    fable_id 0 = ("fable_0000" : str) /\
    fable_id 1 = ("fable_0001" : str) /\
    fable_id 821 = ("fable_0821" : str).
Proof.
  intros Hmax Hc Hfresh.
  destruct (embed_fables_ok clean_content vector embed max_batch Hmax
              fables c0 Hc) as (new & E & Hnew).
  assert (Hids : map entry_id new =
                 map fable_id (seq 0 (List.length fables))).
  { destruct (map_enumerate fables) as [<- _]. rewrite map_map.
    apply (map_Some_inv _ entry_id (fun item => fable_id (fst item))
             (fun a b => entry_of_id clean_content vector embed
                           (fst a) (snd a) b) _ _ Hnew). }
  exists (c0 ++ new), new. split; [exact E|].
  split; [reflexivity|]. split; [exact Hnew|]. split; [exact Hids|].
  split; [|split; [|split; [|split; [|repeat split]]]].
  - unfold count. rewrite length_app. f_equal.
    rewrite <- (length_map entry_id), Hids, length_map. apply length_seq.
  - unfold get_all. intros Hnd. rewrite map_app. apply NoDup_app.
    + exact Hnd.
    + rewrite Hids. apply NoDup_map_injective;
        [exact fable_id_injective | apply seq_NoDup].
    + intros a Ha Hb. rewrite Hids in Hb.
      apply in_map_iff in Ha. destruct Ha as (e & <- & He).
      apply in_map_iff in Hb. destruct Hb as (i & Hi & Hseq).
      apply in_seq in Hseq. apply (Hfresh e i He); [lia | now symmetry].
  - intros i Hi. unfold fable_id. now rewrite (format_four_digits i Hi).
  - intros i. split; [apply decode_format|]. split.
    + unfold format_04d. rewrite length_app, repeat_length. lia.
    + apply format_no_spare_zero.
Qed.

Lemma batch_insert_ids_and_order_witness :
  let old : collection nat :=
    [mkEntry ("legacy_7" : str) 6%nat
             (mkMeta "Legacy" "Legacy" "u" 1 6) "Legacy"] in
  (batch_size <= 100)%nat /\ forallb complete corpus = true /\
  fresh_ids (List.length corpus) old /\
  exists c new,
    embed_fables (fun text => text) (@List.length ascii) 100 corpus old = Ok c
    /\ get_all c = get_all old ++ new
    /\ map Some new =
         map (enumerated_entry (fun text => text) (@List.length ascii))
             (enumerate corpus)
    /\ map entry_id new = map fable_id (seq 0 (List.length corpus)).
Proof.
  intros old.
  assert (Hfresh : fresh_ids (List.length corpus) old).
  { intros e i [<-|[]] _. unfold fable_id. cbn. discriminate. }
  split; [apply Nat.le_refl|]. split; [reflexivity|].
  split; [exact Hfresh|].
  destruct (batch_insert_ids_and_order (fun text => text) nat
              (@List.length ascii) 100 corpus old (Nat.le_refl _) eq_refl
              Hfresh)
    as (c & new & H1 & H2 & H3 & H4 & _).
  exists c, new. auto.
Defined.

(** * Further properties of the code *)

(** ** The shape of a key *)

Lemma drop_space_suffix s : exists pre, s = pre ++ drop_space s.
Proof.
  induction s as [|c s (pre & E)]; simpl.
  - exists []. reflexivity.
  - destruct (isspace c).
    + exists (c :: pre). simpl. now rewrite <- E.
    + exists []. reflexivity.
Qed.

Lemma drop_space_first s c r : drop_space s = c :: r -> isspace c = false.
Proof.
  induction s as [|a s IH]; simpl; [discriminate|].
  destruct (isspace a) eqn:E; [exact IH|].
  now intros [= <- _].
Qed.

Lemma drop_space_keeps_last l c :
  isspace c = false -> exists y, drop_space (l ++ [c]) = y ++ [c].
Proof.
  intros Hc. induction l as [|a l (y & E)]; simpl.
  - rewrite Hc. exists []. reflexivity.
  - destruct (isspace a).
    + exists y. exact E.
    + exists (a :: l). reflexivity.
Qed.

(** [strip] returns a part of its argument in one piece. *)
Lemma strip_part s : exists pre post, s = pre ++ strip s ++ post.
Proof.
  unfold strip.
  destruct (drop_space_suffix s) as (pre & E).
  destruct (drop_space_suffix (rev (drop_space s))) as (q & Eq).
  exists pre, (rev q). rewrite <- rev_app_distr, <- Eq, rev_involutive.
  exact E.
Qed.

Lemma strip_trimmed s : trimmed (strip s).
Proof.
  unfold trimmed, strip. split.
  - intros c r E.
    destruct (drop_space s) as [|c0 x] eqn:Ex; [discriminate E|].
    pose proof (drop_space_first _ _ _ Ex) as Hc0.
    simpl in E.
    destruct (drop_space_keeps_last (rev x) c0 Hc0) as (y & Ey).
    rewrite Ey, rev_app_distr in E. simpl in E.
    injection E as <- _. exact Hc0.
  - intros r c E.
    apply (f_equal (@rev ascii)) in E.
    rewrite rev_involutive, rev_app_distr in E. simpl in E.
    now apply drop_space_first in E.
Qed.

Lemma single_spaced_part pre m post :
  single_spaced (pre ++ m ++ post) -> single_spaced m.
Proof.
  intros H l1 a b l2 E. apply (H (pre ++ l1) a b (l2 ++ post)).
  rewrite E, <- !app_assoc. reflexivity.
Qed.

Lemma sub_spaces_first s : forall c r,
  sub_spaces true s = c :: r -> isspace c = false.
Proof.
  induction s as [|a s IH]; intros c r; simpl; [discriminate|].
  destruct (isspace a) eqn:E; [apply IH|].
  now intros [= <- _].
Qed.

Lemma sub_spaces_single_spaced s : forall in_run,
  single_spaced (sub_spaces in_run s).
Proof.
  induction s as [|c s IH]; intros in_run l1 a b l2; simpl.
  - destruct l1; discriminate.
  - destruct (isspace c) eqn:Ec.
    + destruct in_run; [exact (IH true l1 a b l2)|].
      destruct l1 as [|x l1]; simpl.
      * intros [= <- E] _. now apply sub_spaces_first in E.
      * intros [= _ E]. exact (IH true l1 a b l2 E).
    + destruct l1 as [|x l1]; simpl.
      * intros [= <- _] Ha. congruence.
      * intros [= _ E]. exact (IH false l1 a b l2 E).
Qed.

(** X1. Whatever the title, the key that [normalize_title] returns has no
    white space at either end and no two white-space characters in a
    row. *)
Theorem key_is_trimmed_and_single_spaced (t : str) :
  trimmed (normalize_title t) /\ single_spaced (normalize_title t).
Proof.
  unfold normalize_title. split; [apply strip_trimmed|].
  destruct (strip_part (sub_spaces false
             (sub_punct (sub_genre (sub_article (lower t))))))
    as (pre & post & E).
  apply (single_spaced_part pre _ post). rewrite <- E.
  apply sub_spaces_single_spaced.
Qed.

(** ** Letter case *)

Lemma lower_char_idempotent c : lower_char (lower_char c) = lower_char c.
Proof. destruct c as [[] [] [] [] [] [] [] []]; reflexivity. Qed.

Lemma lower_idempotent s : lower (lower s) = lower s.
Proof.
  unfold lower. rewrite map_map. apply map_ext.
  intros c. apply lower_char_idempotent.
Qed.

Lemma lower_fixed s :
  Forall (fun c => lower_char c = c) s -> lower s = s.
Proof.
  induction 1 as [|c s Hc _ IH]; simpl; [reflexivity|].
  now rewrite Hc, IH.
Qed.

Lemma Forall_suffix (P : ascii -> Prop) pre s :
  Forall P (pre ++ s) -> Forall P s.
Proof. intros H. now apply Forall_app in H. Qed.

Lemma first_match_some {A} (alt : str -> str -> option A) toks s r :
  first_match alt toks s = Some r ->
  exists tok, In tok toks /\ alt tok s = Some r.
Proof.
  induction toks as [|tok toks IH]; simpl; [discriminate|].
  destruct (alt tok s) eqn:E.
  - intros [= <-]. exists tok. auto.
  - intros H. destruct (IH H) as (tok' & Hin & E'). exists tok'. auto.
Qed.

Lemma match_token_spaces_suffix tok s rest :
  match_token_spaces tok s = Some rest -> exists pre, s = pre ++ rest.
Proof.
  unfold match_token_spaces.
  destruct (starts_with tok s) as [[|c r]|] eqn:E; try discriminate.
  destruct (isspace c); [|discriminate].
  intros [= <-]. apply starts_with_inv in E.
  destruct (drop_space_suffix r) as (pre & Er).
  exists (tok ++ c :: pre). rewrite E, <- app_assoc. simpl.
  now rewrite <- Er.
Qed.

Lemma match_token_end_suffix tok s rest :
  match_token_end tok s = Some rest -> s = tok ++ rest /\ at_end rest = true.
Proof.
  unfold match_token_end.
  destruct (starts_with tok s) as [r|] eqn:E; [|discriminate].
  destruct (at_end r) eqn:Ea; [|discriminate].
  intros [= <-]. apply starts_with_inv in E. auto.
Qed.

Lemma Forall_sub_article (P : ascii -> Prop) s :
  Forall P s -> Forall P (sub_article s).
Proof.
  intros H. unfold sub_article.
  destruct (first_match match_token_spaces articles s) as [rest|] eqn:E;
    [|exact H].
  apply first_match_some in E. destruct E as (tok & _ & E).
  apply match_token_spaces_suffix in E. destruct E as (pre & E).
  rewrite E in H. now apply Forall_suffix in H.
Qed.

Lemma Forall_sub_genre (P : ascii -> Prop) s :
  Forall P s -> Forall P (sub_genre s).
Proof.
  induction 1 as [|c r Hc Hr IH]; cbn [sub_genre]; [constructor|].
  destruct (isspace c); [|now constructor].
  destruct (first_match match_token_end genres (drop_space r))
    as [rest|] eqn:E; [|now constructor].
  apply first_match_some in E. destruct E as (tok & _ & E).
  apply match_token_end_suffix in E. destruct E as [E _].
  pose proof (Forall_drop_space P r Hr) as Hd.
  rewrite E in Hd. now apply Forall_suffix in Hd.
Qed.

Lemma normalize_title_lowercase t :
  Forall (fun c => lower_char c = c) (normalize_title t).
Proof.
  unfold normalize_title.
  apply Forall_strip, Forall_sub_spaces; [reflexivity|].
  apply Forall_forall. intros c Hin _.
  apply filter_In in Hin. destruct Hin as [Hin _]. revert c Hin.
  apply Forall_forall, Forall_sub_genre, Forall_sub_article.
  unfold lower. apply Forall_map, Forall_forall.
  intros c _. apply lower_char_idempotent.
Qed.

(** X2. The key does not depend on the case of the letters of the title:
    the title in lower case has the same key, and the key is itself in
    lower case. *)
Theorem key_ignores_letter_case (t : str) :
  normalize_title (lower t) = normalize_title t /\
  lower (normalize_title t) = normalize_title t.
Proof.
  split.
  - unfold normalize_title. now rewrite lower_idempotent.
  - apply lower_fixed, normalize_title_lowercase.
Qed.

(** ** The order of the scores *)

Lemma all_flags_In x : In x all_flags.
Proof. destruct x as [[[[] []] []] []]; simpl; tauto. Qed.

Lemma word_score_value w : In (word_score w) word_scores.
Proof.
  unfold word_score, word_scores.
  destruct ((100 <=? w) && (w <=? 500))%Z;
    [|destruct ((50 <=? w) && (w <? 100))%Z;
      [|destruct ((500 <? w) && (w <=? 1000))%Z]];
    simpl; tauto.
Qed.

Lemma total_score_flags w c :
  total_score w c = (word_score w * flags_score (marker_flags c))%float.
Proof. reflexivity. Qed.

Lemma flags_order_check :
  forallb (fun w1 => forallb (fun w2 => forallb (fun x => forallb (fun y =>
    implb (cleaner_flags x y && (w2 <=? w1)%float)
          ((w2 * flags_score y <=? w1 * flags_score x)%float
           && implb (negb (same_flags x y) || (w2 <? w1)%float)
                    (w2 * flags_score y <? w1 * flags_score x)%float))
    all_flags) all_flags) word_scores) word_scores = true.
Proof. vm_compute. reflexivity. Qed.

(** X3. The score of [choose_best_version] is monotone.  Take a first
    version whose content shows no penalty marker that the content of a
    second version lacks, and every moral marker test that the second
    passes, and whose word score is at least that of the second: the first
    scores at least as much as the second, and strictly more when the two
    contents differ in one of the four tests or when its word score is
    strictly higher. *)
Theorem score_is_monotone (w1 w2 : Z) (c1 c2 : str) :
  cleaner c1 c2 = true ->
  (word_score w2 <=? word_score w1)%float = true ->
  (total_score w2 c2 <=? total_score w1 c1)%float = true /\
  (same_markers c1 c2 = false \/
   (word_score w2 <? word_score w1)%float = true ->
   (total_score w2 c2 <? total_score w1 c1)%float = true).
Proof.
  intros Hc Hw. rewrite !total_score_flags.
  unfold cleaner, same_markers in *.
  pose proof flags_order_check as H.
  rewrite forallb_forall in H.
  specialize (H _ (word_score_value w1)). rewrite forallb_forall in H.
  specialize (H _ (word_score_value w2)). rewrite forallb_forall in H.
  specialize (H _ (all_flags_In (marker_flags c1))).
  rewrite forallb_forall in H.
  specialize (H _ (all_flags_In (marker_flags c2))).
  rewrite Hc, Hw in H. cbn [andb implb] in H. apply andb_true_iff in H.
  destruct H as [Hle Hlt]. split; [exact Hle|].
  intros [Hs|Hs]; rewrite Hs in Hlt.
  - exact Hlt.
  - rewrite orb_true_r in Hlt. exact Hlt.
Qed.

Lemma score_is_monotone_witness :
  cleaner "A fox saw grapes. Moral: look before you leap."
          "AesopFables.com A fox saw grapes. Process took: 1s" = true /\
  (total_score 40 "AesopFables.com A fox saw grapes. Process took: 1s"
   <? total_score 60 "A fox saw grapes. Moral: look before you leap.")%float
  = true.
Proof.
  split; [reflexivity|].
  apply (score_is_monotone 60 40
           "A fox saw grapes. Moral: look before you leap."
           "AesopFables.com A fox saw grapes. Process took: 1s");
    [reflexivity | reflexivity | left; reflexivity].
Defined.

(** X4. Every score that [choose_best_version] computes lies between 0.3
    and 1.2. *)
Theorem score_is_bounded (w : Z) (c : str) :
  (0.3 <=? total_score w c)%float = true /\
  (total_score w c <=? 1.2)%float = true.
Proof.
  assert (H : forallb (fun s => (0.3 <=? s)%float && (s <=? 1.2)%float)
                      score_values = true) by (vm_compute; reflexivity).
  rewrite forallb_forall in H.
  specialize (H _ (total_score_value w c)).
  now apply andb_true_iff in H.
Qed.

(** ** Errors of the version scorer *)

Lemma score_version_raise f :
  scorable f = false ->
  score_version f =
  Raise (KeyError (match word_count f with
                   | None => "word_count"
                   | Some _ => "content"
                   end)).
Proof.
  unfold scorable, fable_score, score_version, subscript.
  destruct (word_count f); [destruct (content f)|]; simpl;
    intros H; try discriminate; reflexivity.
Qed.

Lemma choose_best_version_raise pre f post :
  forallb scorable pre = true -> scorable f = false ->
  choose_best_version (pre ++ f :: post) =
  Raise (KeyError (match word_count f with
                   | None => "word_count"
                   | Some _ => "content"
                   end)).
Proof.
  intros Hpre Hf. unfold choose_best_version.
  rewrite (for_each_raise _ (fun acc y => acc ++ [scored y]) pre f post
             (KeyError (match word_count f with
                        | None => "word_count"
                        | Some _ => "content"
                        end))).
  - reflexivity.
  - intros s y Hy. rewrite forallb_forall in Hpre.
    now rewrite (score_version_ok y (Hpre y Hy)).
  - intros s. now rewrite (score_version_raise f Hf).
Qed.

(** X5. [choose_best_version] raises [ValueError] on an empty list, and
    on a list whose first record that cannot be scored is [f] it raises
    [KeyError] for the key that it reads first and does not find:
    [word_count], and [content] when only the content is missing; no record
    after [f] is looked at. *)
Theorem choose_best_version_errors (pre post : list fable) (f : fable) :
  forallb scorable pre = true ->
  choose_best_version [] = Raise ValueError /\
  (word_count f = None ->
   choose_best_version (pre ++ f :: post) = Raise (KeyError "word_count")) /\
  (word_count f <> None -> content f = None ->
   choose_best_version (pre ++ f :: post) = Raise (KeyError "content")).
Proof.
  intros Hpre. split; [reflexivity|]. split.
  - intros Hw.
    rewrite (choose_best_version_raise pre f post Hpre).
    + now rewrite Hw.
    + unfold scorable, fable_score. now rewrite Hw.
  - intros Hw Hc.
    rewrite (choose_best_version_raise pre f post Hpre).
    + destruct (word_count f); [reflexivity | contradiction].
    + unfold scorable, fable_score. rewrite Hc.
      now destruct (word_count f).
Qed.

Lemma choose_best_version_errors_witness :
  forallb scorable [fox_short] = true /\
  choose_best_version
    ([fox_short] ++
     mkFable (Some ("Fox" : str)) None None (Some ("A fox." : str)) None
     :: [fox_mid])
  = Raise (KeyError "word_count").
Proof.
  split; [reflexivity|].
  apply (choose_best_version_errors [fox_short] [fox_mid]
           (mkFable (Some ("Fox" : str)) None None (Some ("A fox." : str))
                    None));
    reflexivity.
Defined.

(** ** Counters, order and fixed points of the pass *)

Lemma dedup_view fables :
  forallb complete fables = true ->
  let tg := group_by key_of fables [] in
  deduplicate_fables fables =
    Ok (mkState (survivors tg) (count_duplicates tg) (removals tg)) /\
  map fst tg = first_seen [] (map key_of fables) /\
  NoDup (map fst tg) /\
  (forall k g, In (k, g) tg -> g = filter (has_key k) fables /\ g <> []) /\
  (forall f, In f fables -> exists k g, In (k, g) tg /\ In f g) /\
  Permutation (List.concat (map snd tg)) fables.
Proof.
  intros Hc tg.
  destruct (deduplicate_fables_ok fables Hc)
    as (tg' & Hg & Hd & Hnd & Hgrp & Hin).
  assert (Ht : Forall (fun f => title f <> None) fables).
  { apply Forall_forall. intros f Hf. rewrite forallb_forall in Hc.
    now apply complete_fields, Hc. }
  rewrite (group_fables_ok fables Ht) in Hg.
  injection Hg as Hg. fold tg in Hg. subst tg'.
  destruct (group_by_spec key_of fables) as (Hk & _ & _ & Hp).
  split; [exact Hd|]. split; [exact Hk|]. split; [exact Hnd|].
  split; [exact Hgrp|]. split; [exact Hin | exact Hp].
Qed.

Lemma survivors_length (tg : groups) :
  (forall k g, In (k, g) tg -> g <> []) ->
  List.length (survivors tg) = List.length tg.
Proof.
  induction tg as [|[k g] tg IH]; intros H; [reflexivity|].
  unfold survivors in *. cbn [flat_map snd]. rewrite length_app, IH.
  - destruct g as [|first others]; [|reflexivity].
    exfalso. apply (H k []); [left|]; reflexivity.
  - intros k' g' Hin. apply (H k' g'). now right.
Qed.

Lemma count_duplicates_length (tg : groups) :
  count_duplicates tg =
  (Z.of_nat (List.length (List.concat (map snd tg)))
   - Z.of_nat (List.length tg))%Z.
Proof.
  induction tg as [|[k g] tg IH]; [reflexivity|].
  cbn [count_duplicates fold_right map List.concat snd List.length].
  fold (count_duplicates tg). rewrite IH, length_app. lia.
Qed.

Lemma filter_other_length (b : fable) (g : list fable) :
  In b g ->
  (List.length (filter (fun f => negb (fable_eqb f b)) g)
   < List.length g)%nat.
Proof.
  induction g as [|x g IH]; intros Hin; [contradiction|].
  cbn [filter]. destruct (fable_eqb x b) eqn:E; cbn [negb List.length].
  - pose proof (filter_length_le (fun f => negb (fable_eqb f b)) g). lia.
  - destruct Hin as [->|Hin]; [now rewrite fable_eqb_refl in E|].
    specialize (IH Hin). lia.
Qed.

Lemma filter_other_absent (b : fable) (g : list fable) :
  ~ In b g -> filter (fun f => negb (fable_eqb f b)) g = g.
Proof.
  induction g as [|x g IH]; intros Hn; [reflexivity|].
  cbn [filter]. rewrite fable_eqb_neq.
  - cbn [negb]. f_equal. apply IH. intros H. apply Hn. now right.
  - intros ->. apply Hn. now left.
Qed.

Lemma filter_other_NoDup (b : fable) (g : list fable) :
  NoDup g -> In b g ->
  S (List.length (filter (fun f => negb (fable_eqb f b)) g))
  = List.length g.
Proof.
  induction 1 as [|x g Hx Hnd IH]; intros Hin; [contradiction|].
  cbn [filter]. destruct (fable_eq_dec x b) as [->|Hne].
  - rewrite fable_eqb_refl. cbn [negb List.length].
    now rewrite (filter_other_absent b g Hx).
  - rewrite (fable_eqb_neq x b Hne). cbn [negb List.length].
    destruct Hin as [->|Hin]; [contradiction|]. now rewrite (IH Hin).
Qed.

Lemma removed_in_length (g : list fable) :
  g <> [] -> (List.length (removed_in g) < List.length g)%nat.
Proof.
  destruct g as [|first others]; [contradiction|]. intros _.
  unfold removed_in, removed_of. rewrite length_map.
  apply filter_other_length, best_of_In.
Qed.

Lemma removed_in_length_NoDup (g : list fable) :
  g <> [] -> NoDup g -> S (List.length (removed_in g)) = List.length g.
Proof.
  destruct g as [|first others]; [contradiction|]. intros _ Hnd.
  unfold removed_in, removed_of. rewrite length_map.
  apply filter_other_NoDup; [exact Hnd | apply best_of_In].
Qed.

Lemma removals_length (tg : groups) :
  (forall k g, In (k, g) tg -> g <> []) ->
  (Z.of_nat (List.length (removals tg)) <= count_duplicates tg)%Z.
Proof.
  induction tg as [|[k g] tg IH]; intros H; [reflexivity|].
  unfold removals in *.
  cbn [flat_map snd count_duplicates fold_right].
  fold (count_duplicates tg). rewrite length_app.
  assert (IH' := IH (fun k' g' Hin => H k' g' (or_intror Hin))).
  pose proof (removed_in_length g (H k g (or_introl eq_refl))). lia.
Qed.

Lemma removals_length_NoDup (tg : groups) :
  (forall k g, In (k, g) tg -> g <> [] /\ NoDup g) ->
  Z.of_nat (List.length (removals tg)) = count_duplicates tg.
Proof.
  induction tg as [|[k g] tg IH]; intros H; [reflexivity|].
  unfold removals in *.
  cbn [flat_map snd count_duplicates fold_right].
  fold (count_duplicates tg). rewrite length_app.
  assert (IH' := IH (fun k' g' Hin => H k' g' (or_intror Hin))).
  destruct (H k g (or_introl eq_refl)) as [Hne Hnd].
  pose proof (removed_in_length_NoDup g Hne Hnd). lia.
Qed.

(** X6. On complete records the counter of duplicates that the pass
    reports is the number of input records less the number of records that
    it keeps, and it never keeps more records than it was given. *)
Theorem duplicates_counter (fables : list fable) :
  forallb complete fables = true ->
  exists st,
    deduplicate_fables fables = Ok st /\
    (List.length (deduplicated_fables st) <= List.length fables)%nat /\
    duplicates_found st =
      (Z.of_nat (List.length fables)
       - Z.of_nat (List.length (deduplicated_fables st)))%Z.
Proof.
  intros Hc.
  destruct (dedup_view fables Hc) as (Hd & _ & _ & Hgrp & _ & Hp).
  eexists. split; [exact Hd|]. cbn [deduplicated_fables duplicates_found].
  assert (Hl : List.length (survivors (group_by key_of fables []))
               = List.length (group_by key_of fables [])).
  { apply survivors_length. intros k g Hin. now apply (Hgrp k g). }
  rewrite count_duplicates_length, (Permutation_length Hp), Hl.
  split; [|reflexivity].
  pose proof (removals_length (group_by key_of fables [])
                (fun k g Hin => proj2 (Hgrp k g Hin))) as Hr.
  rewrite count_duplicates_length, (Permutation_length Hp) in Hr. lia.
Qed.

Lemma duplicates_counter_witness :
  forallb complete corpus = true /\
  exists st,
    deduplicate_fables corpus = Ok st /\
    (List.length (deduplicated_fables st) <= List.length corpus)%nat /\
    duplicates_found st =
      (Z.of_nat (List.length corpus)
       - Z.of_nat (List.length (deduplicated_fables st)))%Z.
Proof.
  split; [reflexivity|]. apply (duplicates_counter corpus). reflexivity.
Defined.

(** X7. On complete records the list of removed stories has at most as
    many entries as the counter of duplicates says, and exactly as many
    when no record occurs twice in the input. *)
Theorem audit_entries_counted (fables : list fable) :
  forallb complete fables = true ->
  exists st,
    deduplicate_fables fables = Ok st /\
    (Z.of_nat (List.length (removed_stories st)) <= duplicates_found st)%Z /\
    (NoDup fables ->
     Z.of_nat (List.length (removed_stories st)) = duplicates_found st).
Proof.
  intros Hc.
  destruct (dedup_view fables Hc) as (Hd & _ & _ & Hgrp & _ & _).
  eexists. split; [exact Hd|]. cbn [removed_stories duplicates_found].
  split.
  - apply removals_length. intros k g Hin. now apply (Hgrp k g).
  - intros Hnd. apply removals_length_NoDup. intros k g Hin.
    destruct (Hgrp k g Hin) as [Hg Hne]. split; [exact Hne|].
    rewrite Hg. now apply NoDup_filter.
Qed.

Lemma audit_entries_counted_witness :
  forallb complete corpus = true /\
  exists st,
    deduplicate_fables corpus = Ok st /\
    (Z.of_nat (List.length (removed_stories st)) <= duplicates_found st)%Z /\
    (NoDup corpus ->
     Z.of_nat (List.length (removed_stories st)) = duplicates_found st).
Proof.
  split; [reflexivity|]. apply (audit_entries_counted corpus). reflexivity.
Defined.

(** X8. On complete records the output of the pass holds one record per
    key, in the order in which the keys are first seen in the input. *)
Theorem output_in_first_seen_order (fables : list fable) :
  forallb complete fables = true ->
  exists st,
    deduplicate_fables fables = Ok st /\
    map key_of (deduplicated_fables st) = first_seen [] (map key_of fables) /\
    NoDup (map key_of (deduplicated_fables st)).
Proof.
  intros Hc.
  destruct (dedup_view fables Hc) as (Hd & Hk & Hnd & Hgrp & _ & _).
  eexists. split; [exact Hd|]. cbn [deduplicated_fables].
  assert (E : map key_of (survivors (group_by key_of fables []))
              = map fst (group_by key_of fables [])).
  { apply survivors_keys. intros k g Hin. split; [now apply (Hgrp k g)|].
    intros f Hf. exact (group_members fables _ Hgrp k g f Hin Hf). }
  rewrite E. split; [exact Hk | exact Hnd].
Qed.

Lemma output_in_first_seen_order_witness :
  forallb complete corpus = true /\
  exists st,
    deduplicate_fables corpus = Ok st /\
    map key_of (deduplicated_fables st) = first_seen [] (map key_of corpus) /\
    NoDup (map key_of (deduplicated_fables st)).
Proof.
  split; [reflexivity|]. apply (output_in_first_seen_order corpus).
  reflexivity.
Defined.

Lemma append_to_fresh k f (d : groups) :
  ~ In k (map fst d) -> append_to k f d = d ++ [(k, [f])].
Proof.
  induction d as [|[k' g] d IH]; intros Hn; [reflexivity|].
  cbn [append_to app]. rewrite (proj2 (str_eqb_neq k' k)).
  - f_equal. apply IH. intros H. apply Hn. now right.
  - intros ->. apply Hn. now left.
Qed.

Lemma group_by_distinct (key : fable -> str) (l : list fable) :
  forall d : groups,
    NoDup (map fst d ++ map key l) ->
    group_by key l d = d ++ map (fun f => (key f, [f])) l.
Proof.
  induction l as [|f l IH]; intros d Hnd.
  - cbn. now rewrite app_nil_r.
  - cbn [map] in *. unfold group_by in *. cbn [fold_left].
    rewrite append_to_fresh.
    + rewrite IH; [now rewrite <- app_assoc|].
      rewrite map_app, <- app_assoc. exact Hnd.
    + apply NoDup_remove_2 in Hnd. intros H. apply Hnd, in_or_app. now left.
Qed.

Lemma dedup_singletons (key : fable -> str) (l : list fable) :
  forall st,
    for_each dedup_group (map (fun f => (key f, [f])) l) st =
    Ok (mkState (deduplicated_fables st ++ l) (duplicates_found st)
                (removed_stories st)).
Proof.
  induction l as [|f l IH]; intros [out n removed].
  - cbn. now rewrite app_nil_r.
  - cbn [map for_each]. unfold dedup_group at 1.
    cbn [snd List.length Nat.ltb Nat.leb bind deduplicated_fables
         duplicates_found removed_stories].
    rewrite IH. cbn [deduplicated_fables duplicates_found removed_stories].
    now rewrite <- app_assoc.
Qed.

Lemma distinct_keys_pass (fables : list fable) :
  Forall (fun f => title f <> None) fables ->
  NoDup (map key_of fables) ->
  deduplicate_fables fables = Ok (mkState fables 0 []).
Proof.
  intros Ht Hnd. unfold deduplicate_fables.
  rewrite (group_fables_ok fables Ht). cbn [bind].
  rewrite (group_by_distinct key_of fables [] Hnd). cbn [app].
  now rewrite dedup_singletons.
Qed.

(** X9. When every record has a title and no two records share a key,
    every group holds one record and the pass returns the input as it is,
    with no duplicate counted and no story removed; the other fields of
    the records are not read. *)
Theorem distinct_keys_unchanged (fables : list fable) :
  Forall (fun f => title f <> None) fables ->
  NoDup (map key_of fables) ->
  group_fables fables = Ok (map (fun f => (key_of f, [f])) fables) /\
  deduplicate_fables fables = Ok (mkState fables 0 []).
Proof.
  intros Ht Hnd. split.
  - rewrite (group_fables_ok fables Ht).
    now rewrite (group_by_distinct key_of fables [] Hnd).
  - exact (distinct_keys_pass fables Ht Hnd).
Qed.

Lemma distinct_keys_unchanged_witness :
  Forall (fun f => title f <> None) [fox_short; crow; title_only] /\
  NoDup (map key_of [fox_short; crow; title_only]) /\
  deduplicate_fables [fox_short; crow; title_only] =
  Ok (mkState [fox_short; crow; title_only] 0 []).
Proof.
  assert (Ht : Forall (fun f => title f <> None)
                      [fox_short; crow; title_only])
    by (repeat constructor; discriminate).
  assert (Hnd : NoDup (map key_of [fox_short; crow; title_only])).
  { repeat constructor; cbn; intuition discriminate. }
  split; [exact Ht|]. split; [exact Hnd|].
  apply (distinct_keys_unchanged [fox_short; crow; title_only] Ht Hnd).
Defined.

(** X10. The pass is idempotent on complete records: run on its own
    output it returns that output unchanged, counts no duplicate and
    removes no story. *)
Theorem deduplication_is_idempotent (fables : list fable) :
  forallb complete fables = true ->
  exists st,
    deduplicate_fables fables = Ok st /\
    deduplicate_fables (deduplicated_fables st) =
    Ok (mkState (deduplicated_fables st) 0 []).
Proof.
  intros Hc.
  destruct (dedup_view fables Hc) as (Hd & _ & Hnd & Hgrp & _ & _).
  eexists. split; [exact Hd|]. cbn [deduplicated_fables].
  apply distinct_keys_pass.
  - apply Forall_forall. intros c Hin.
    destruct (survivors_In _ c Hin) as (k & g & Hg & Hcg).
    destruct (Hgrp k g Hg) as [-> _]. apply filter_In in Hcg.
    rewrite forallb_forall in Hc. now apply complete_fields, Hc.
  - rewrite survivors_keys; [exact Hnd|].
    intros k g Hin. split; [now apply (Hgrp k g)|].
    intros f Hf. exact (group_members fables _ Hgrp k g f Hin Hf).
Qed.

Lemma deduplication_is_idempotent_witness :
  forallb complete corpus = true /\
  exists st,
    deduplicate_fables corpus = Ok st /\
    deduplicate_fables (deduplicated_fables st) =
    Ok (mkState (deduplicated_fables st) 0 []).
Proof.
  split; [reflexivity|]. apply (deduplication_is_idempotent corpus).
  reflexivity.
Defined.

(** X11. On complete records the list of removed stories holds the URL
    suffixes of the input records that are not equal to a record of the
    output, one entry for each such record: nothing else is listed and
    none of them is left out. *)
Theorem audit_entries_are_removed_records (fables : list fable) :
  forallb complete fables = true ->
  exists st,
    deduplicate_fables fables = Ok st /\
    Permutation
      (removed_stories st)
      (map (fun f => url_suffix (url_of f))
           (filter (fun f => negb (kept_in (deduplicated_fables st) f))
                   fables)).
Proof.
  intros Hc.
  destruct (dedup_view fables Hc) as (Hd & _ & Hnd & Hgrp & Hin & Hp).
  eexists. split; [exact Hd|]. cbn [deduplicated_fables removed_stories].
  set (tg := group_by key_of fables []) in *.
  set (P := fun f => negb (kept_in (survivors tg) f)).
  set (U := fun f => url_suffix (url_of f)).
  assert (E : removals tg = map U (filter P (List.concat (map snd tg)))).
  { unfold removals. rewrite flat_map_concat_map.
    rewrite <- concat_filter_map, concat_map, !map_map. f_equal.
    apply map_ext_in. intros [k g] Hg. cbn [snd].
    destruct g as [|first others]; [reflexivity|].
    unfold removed_in, removed_of. fold U. f_equal.
    apply filter_ext_in. intros f Hf. unfold P. f_equal.
    exact (kept_iff_best fables tg k first others f Hnd Hgrp Hin Hg Hf). }
  rewrite E. apply Permutation_map, Permutation_filter, Hp.
Qed.

Lemma audit_entries_are_removed_records_witness :
  forallb complete corpus = true /\
  exists st,
    deduplicate_fables corpus = Ok st /\
    Permutation
      (removed_stories st)
      (map (fun f => url_suffix (url_of f))
           (filter (fun f => negb (kept_in (deduplicated_fables st) f))
                   corpus)).
Proof.
  split; [reflexivity|].
  apply (audit_entries_are_removed_records corpus). reflexivity.
Defined.

(** ** Statistics of the deduplicated corpus *)

Lemma word_counts_ok (l : list fable) :
  (forall f, In f l -> word_count f <> None) ->
  DeduplicateFables.word_counts l = Ok (map word_count_of l).
Proof.
  intros H. unfold DeduplicateFables.word_counts.
  rewrite (for_each_pure _ (fun acc f => acc ++ [word_count_of f])).
  - now rewrite fold_left_snoc.
  - intros s f Hf. unfold subscript, word_count_of.
    specialize (H f Hf). now destruct (word_count f).
Qed.

Lemma word_counts_raise (l : list fable) :
  (exists f, In f l /\ word_count f = None) ->
  forall acc,
    for_each (fun acc f => w <- subscript word_count "word_count" f ;;
                           Ok (acc ++ [w])) l acc
    = Raise (KeyError "word_count").
Proof.
  induction l as [|a l IH]; intros (f & Hin & Hf) acc.
  - contradiction.
  - cbn [for_each]. unfold subscript at 1.
    destruct (word_count a) eqn:Ea; [|reflexivity]. cbn [bind].
    apply IH. exists f. split; [|exact Hf].
    destruct Hin as [->|Hin]; [congruence | exact Hin].
Qed.

Lemma fold_min_spec (r : list Z) : forall x,
  In (fold_left Z.min r x) (x :: r) /\
  forall y, In y (x :: r) -> (fold_left Z.min r x <= y)%Z.
Proof.
  induction r as [|a r IH]; intros x; cbn [fold_left].
  - split; [now left|]. intros y [<-|[]]. lia.
  - destruct (IH (Z.min x a)) as [Hin Hle]. split.
    + destruct Hin as [E|Hin].
      * rewrite <- E. destruct (Z.min_spec x a) as [[_ ->]|[_ ->]];
          [now left | right; now left].
      * right. now right.
    + intros y Hy.
      assert (Hm : (fold_left Z.min r (Z.min x a) <= Z.min x a)%Z)
        by (apply Hle; now left).
      destruct Hy as [<-|[<-|Hy]]; [lia | lia |].
      apply Hle. now right.
Qed.

Lemma fold_max_spec (r : list Z) : forall x,
  In (fold_left Z.max r x) (x :: r) /\
  forall y, In y (x :: r) -> (y <= fold_left Z.max r x)%Z.
Proof.
  induction r as [|a r IH]; intros x; cbn [fold_left].
  - split; [now left|]. intros y [<-|[]]. lia.
  - destruct (IH (Z.max x a)) as [Hin Hle]. split.
    + destruct Hin as [E|Hin].
      * rewrite <- E. destruct (Z.max_spec x a) as [[_ ->]|[_ ->]];
          [right; now left | now left].
      * right. now right.
    + intros y Hy.
      assert (Hm : (Z.max x a <= fold_left Z.max r (Z.max x a))%Z)
        by (apply Hle; now left).
      destruct Hy as [<-|[<-|Hy]]; [lia | lia |].
      apply Hle. now right.
Qed.

Lemma list_sum_bounds (lo hi : Z) (l : list Z) :
  (forall y, In y l -> lo <= y <= hi)%Z ->
  forall a,
    (a + lo * Z.of_nat (List.length l)
     <= fold_left Z.add l a
     <= a + hi * Z.of_nat (List.length l))%Z.
Proof.
  induction l as [|x l IH]; intros H a.
  - cbn. lia.
  - cbn [fold_left List.length].
    assert (Hx := H x (or_introl eq_refl)).
    specialize (IH (fun y Hy => H y (or_intror Hy)) (a + x)%Z).
    rewrite Nat2Z.inj_succ. nia.
Qed.

Lemma average_between (lo hi : Z) (l : list Z) :
  l <> [] ->
  (forall y, In y l -> lo <= y <= hi)%Z ->
  (lo <= DeduplicateFables.list_sum l / Z.of_nat (List.length l) <= hi)%Z.
Proof.
  intros Hne H. unfold DeduplicateFables.list_sum.
  pose proof (list_sum_bounds lo hi l H 0%Z) as [Hlo Hhi].
  assert (Hn : (0 < Z.of_nat (List.length l))%Z)
    by (destruct l; [contradiction | cbn [List.length]; lia]).
  split.
  - apply Z.div_le_lower_bound; lia.
  - apply Z.div_le_upper_bound; lia.
Qed.

Lemma statistics_ok (out : list fable) :
  out <> [] -> (forall f, In f out -> word_count f <> None) ->
  exists lo hi,
    (st <- Ok (mkState out 0 []) ;;
     counts <- DeduplicateFables.word_counts (deduplicated_fables st) ;;
     lo <- DeduplicateFables.list_min counts ;;
     hi <- DeduplicateFables.list_max counts ;;
     Ok (DeduplicateFables.mkStatistics
           (List.length (deduplicated_fables st)) lo hi
           (DeduplicateFables.list_sum counts
            / Z.of_nat (List.length counts))%Z))
    = Ok (DeduplicateFables.mkStatistics (List.length out) lo hi
            (DeduplicateFables.list_sum (map word_count_of out)
             / Z.of_nat (List.length out))%Z) /\
    In lo (map word_count_of out) /\ In hi (map word_count_of out) /\
    (forall y, In y (map word_count_of out) -> lo <= y <= hi)%Z.
Proof.
  intros Hne Hw. cbn [bind deduplicated_fables].
  rewrite (word_counts_ok out Hw). cbn [bind].
  destruct out as [|f out]; [contradiction|]. cbn [map].
  unfold DeduplicateFables.list_min, DeduplicateFables.list_max.
  cbn [bind].
  destruct (fold_min_spec (map word_count_of out) (word_count_of f))
    as [Hmin Hle].
  destruct (fold_max_spec (map word_count_of out) (word_count_of f))
    as [Hmax Hge].
  eexists. eexists. split.
  - cbn [List.length]. rewrite length_map. reflexivity.
  - split; [exact Hmin|]. split; [exact Hmax|].
    intros y Hy. split; [now apply Hle | now apply Hge].
Qed.

(** X12. The statistics of [main] on complete records: on an empty
    corpus [min] raises [ValueError]; on any other corpus the total is the
    number of records kept, the smallest and the largest word count are
    word counts of records kept and bound the word count of every record
    kept, and the average (a floor division) lies between the two. *)
Theorem main_statistics (fables : list fable) :
  forallb complete fables = true ->
  (fables = [] -> DeduplicateFables.main fables = Raise ValueError) /\
  (fables <> [] ->
   exists st s,
     deduplicate_fables fables = Ok st /\
     DeduplicateFables.main fables = Ok s /\
     DeduplicateFables.total_fables s
       = List.length (deduplicated_fables st) /\
     (DeduplicateFables.min_words s <= DeduplicateFables.average_words s
      <= DeduplicateFables.max_words s)%Z /\
     In (Some (DeduplicateFables.min_words s))
        (map word_count (deduplicated_fables st)) /\
     In (Some (DeduplicateFables.max_words s))
        (map word_count (deduplicated_fables st)) /\
     forall f w,
       In f (deduplicated_fables st) -> word_count f = Some w ->
       (DeduplicateFables.min_words s <= w
        <= DeduplicateFables.max_words s)%Z).
Proof.
  intros Hc. split; [intros ->; reflexivity|]. intros Hne.
  destruct (dedup_view fables Hc) as (Hd & _ & _ & Hgrp & Hin & _).
  set (tg := group_by key_of fables []) in *.
  assert (Hsub : forall c, In c (survivors tg) -> word_count c <> None).
  { intros c Hs. destruct (survivors_In _ c Hs) as (k & g & Hg & Hcg).
    destruct (Hgrp k g Hg) as [-> _]. apply filter_In in Hcg.
    rewrite forallb_forall in Hc. specialize (Hc c (proj1 Hcg)).
    unfold complete in Hc.
    destruct (title c), (original_title c), (url c), (content c),
      (word_count c); discriminate. }
  assert (Hout : survivors tg <> []).
  { destruct fables as [|f fables]; [contradiction|].
    destruct (Hin f (or_introl eq_refl)) as (k & g & Hg & _).
    assert (Hl : List.length (survivors tg) = List.length tg).
    { apply survivors_length. intros k' g' H'. now apply (Hgrp k' g'). }
    intros E. rewrite E in Hl. destruct tg; [contradiction|discriminate]. }
  destruct (statistics_ok (survivors tg) Hout Hsub)
    as (lo & hi & Hs & Hlo & Hhi & Hb).
  assert (Hmain : DeduplicateFables.main fables =
                  Ok (DeduplicateFables.mkStatistics
                        (List.length (survivors tg)) lo hi
                        (DeduplicateFables.list_sum
                           (map word_count_of (survivors tg))
                         / Z.of_nat (List.length (survivors tg)))%Z)).
  { unfold DeduplicateFables.main. rewrite Hd. exact Hs. }
  assert (Hsome : forall c, In c (survivors tg) ->
                            word_count c = Some (word_count_of c)).
  { intros c Hs'. specialize (Hsub c Hs'). unfold word_count_of.
    now destruct (word_count c). }
  assert (Hmap : forall w, In w (map word_count_of (survivors tg)) ->
                           In (Some w) (map word_count (survivors tg))).
  { intros w Hw. apply in_map_iff in Hw. destruct Hw as (c & <- & Hs').
    apply in_map_iff. exists c. split; [now apply Hsome | exact Hs']. }
  eexists. eexists. split; [exact Hd|]. split; [exact Hmain|].
  cbn [deduplicated_fables DeduplicateFables.total_fables
       DeduplicateFables.min_words DeduplicateFables.max_words
       DeduplicateFables.average_words].
  split; [reflexivity|]. split.
  - rewrite <- (length_map word_count_of (survivors tg)).
    apply average_between; [|exact Hb].
    destruct (survivors tg); [contradiction | discriminate].
  - split; [now apply Hmap|]. split; [now apply Hmap|].
    intros f w Hf Hw. apply Hb. apply in_map_iff. exists f.
    split; [|exact Hf]. unfold word_count_of. now rewrite Hw.
Qed.

Lemma main_statistics_witness :
  forallb complete corpus = true /\ corpus <> [] /\
  exists st s,
    deduplicate_fables corpus = Ok st /\
    DeduplicateFables.main corpus = Ok s /\
    DeduplicateFables.total_fables s
      = List.length (deduplicated_fables st) /\
    (DeduplicateFables.min_words s <= DeduplicateFables.average_words s
     <= DeduplicateFables.max_words s)%Z /\
    In (Some (DeduplicateFables.min_words s))
       (map word_count (deduplicated_fables st)) /\
    In (Some (DeduplicateFables.max_words s))
       (map word_count (deduplicated_fables st)) /\
    forall f w,
      In f (deduplicated_fables st) -> word_count f = Some w ->
      (DeduplicateFables.min_words s <= w
       <= DeduplicateFables.max_words s)%Z.
Proof.
  split; [reflexivity|]. split; [discriminate|].
  apply (proj2 (main_statistics corpus eq_refl)). discriminate.
Defined.

(** X13. A record without a word count whose key no other record shares
    goes through the pass (every title present, keys pairwise distinct:
    the input is returned as it is), and then makes the statistics of
    [main] raise [KeyError] for [word_count]. *)
Theorem statistics_need_word_counts (fables : list fable) (f : fable) :
  Forall (fun f => title f <> None) fables ->
  NoDup (map key_of fables) ->
  In f fables -> word_count f = None ->
  deduplicate_fables fables = Ok (mkState fables 0 []) /\
  DeduplicateFables.main fables = Raise (KeyError "word_count").
Proof.
  intros Ht Hnd Hin Hw.
  pose proof (distinct_keys_pass fables Ht Hnd) as Hd.
  split; [exact Hd|]. unfold DeduplicateFables.main. rewrite Hd.
  cbn [bind deduplicated_fables]. unfold DeduplicateFables.word_counts.
  rewrite word_counts_raise; [reflexivity|]. now exists f.
Qed.

Lemma statistics_need_word_counts_witness :
  Forall (fun f => title f <> None) [fox_short; crow; title_only] /\
  NoDup (map key_of [fox_short; crow; title_only]) /\
  In title_only [fox_short; crow; title_only] /\
  word_count title_only = None /\
  DeduplicateFables.main [fox_short; crow; title_only]
  = Raise (KeyError "word_count").
Proof.
  assert (Ht : Forall (fun f => title f <> None)
                      [fox_short; crow; title_only])
    by (repeat constructor; discriminate).
  assert (Hnd : NoDup (map key_of [fox_short; crow; title_only])).
  { repeat constructor; cbn; intuition discriminate. }
  assert (Hin : In title_only [fox_short; crow; title_only])
    by (right; right; left; reflexivity).
  split; [exact Ht|]. split; [exact Hnd|]. split; [exact Hin|].
  split; [reflexivity|].
  apply (statistics_need_word_counts [fox_short; crow; title_only]
           title_only Ht Hnd Hin eq_refl).
Defined.

(** ** Identifiers, incomplete records and batches of the embedding *)

(** X14. The identifiers of [embed_fables] are unique.  The four-digit
    decimal of a position has at least four characters and decodes back to
    the position, whatever its size; two positions with the same identifier
    are equal; and after the embedding of complete records into an empty
    collection no two entries share an identifier. *)
Theorem identifiers_are_unique (clean_content : str -> str)
    (vector : Type) (embed : str -> vector) (max_batch : nat)
    (fables : list fable) :
  (batch_size <= max_batch)%nat ->
  forallb complete fables = true ->
  (forall i, decode_decimal (format_04d i) = Some i /\
             (4 <= List.length (format_04d i))%nat) /\
  (forall i j, fable_id i = fable_id j -> i = j) /\
  exists c,
    embed_fables clean_content embed max_batch fables [] = Ok c /\
    NoDup (map entry_id (get_all c)).
Proof.
  intros Hmax Hc. split; [|split].
  - intros i. split; [apply decode_format|].
    unfold format_04d. rewrite length_app, repeat_length. lia.
  - exact fable_id_injective.
  - destruct (embed_fables_ok clean_content vector embed max_batch Hmax
                fables [] Hc) as (new & E & Hnew).
    exists new. split; [exact E|]. unfold get_all.
    assert (Hids : map entry_id new =
                   map fable_id (seq 0 (List.length fables))).
    { destruct (map_enumerate fables) as [<- _]. rewrite map_map.
      apply (map_Some_inv _ entry_id (fun item => fable_id (fst item))
               (fun a b => entry_of_id clean_content vector embed
                             (fst a) (snd a) b) _ _ Hnew). }
    rewrite Hids. apply NoDup_map_injective;
      [exact fable_id_injective | apply seq_NoDup].
Qed.

Lemma identifiers_are_unique_witness :
  (batch_size <= 100)%nat /\ forallb complete corpus = true /\
  exists c,
    embed_fables (fun text => text) (@List.length ascii) 100 corpus [] = Ok c
    /\ NoDup (map entry_id (get_all c)).
Proof.
  split; [apply Nat.le_refl|]. split; [reflexivity|].
  apply (identifiers_are_unique (fun text => text) nat
           (@List.length ascii) 100 corpus (Nat.le_refl _) eq_refl).
Defined.

Lemma prepare_fable_raise (clean_content : str -> str)
    (acc : list str * list metadata * list str) (i : nat) (f : fable)
    (k : string) :
  first_missing f = Some k ->
  prepare_fable clean_content acc (i, f) = Raise (KeyError k).
Proof.
  destruct acc as [[documents metadatas] ids].
  unfold first_missing, prepare_fable, subscript.
  destruct (content f); [|now intros [= <-]].
  destruct (title f); [|now intros [= <-]].
  destruct (original_title f); [|now intros [= <-]].
  destruct (url f); [|now intros [= <-]].
  destruct (word_count f); [discriminate | now intros [= <-]].
Qed.

Lemma enumerate_app {A} (l1 l2 : list A) :
  enumerate (l1 ++ l2) =
  enumerate l1 ++ combine (seq (List.length l1) (List.length l2)) l2.
Proof.
  unfold enumerate. rewrite length_app, seq_app. cbn [Nat.add].
  generalize (seq (List.length l1) (List.length l2)). generalize 0%nat.
  induction l1 as [|x l1 IH]; intros s r; [reflexivity|].
  cbn [List.length seq combine app]. f_equal. apply IH.
Qed.

(** X15. [embed_fables] stops at the first record that lacks a field: it
    raises [KeyError] for the first missing key in the order in which the
    loop reads them (content, title, original_title, url, word_count),
    whatever the records that follow and whatever the collection holds. *)
Theorem incomplete_record_aborts_embedding (clean_content : str -> str)
    (vector : Type) (embed : str -> vector) (max_batch : nat)
    (before after : list fable) (f : fable) (k : string)
    (c : collection vector) :
  forallb complete before = true ->
  first_missing f = Some k ->
  embed_fables clean_content embed max_batch (before ++ f :: after) c
  = Raise (KeyError k).
Proof.
  intros Hb Hk. unfold embed_fables.
  rewrite enumerate_app, for_each_app.
  destruct (prepare_ok clean_content vector embed (enumerate before)
              [] [] []) as (ds & ms & js & E & _).
  { destruct (map_enumerate before) as [_ ->]. exact Hb. }
  rewrite E. cbn [bind List.length seq combine for_each].
  now rewrite (prepare_fable_raise clean_content _ _ f k Hk).
Qed.

Lemma incomplete_record_aborts_embedding_witness :
  forallb complete [fox_short; crow] = true /\
  first_missing title_only = Some "original_title" /\
  embed_fables (fun text => text) (@List.length ascii) 100
    ([fox_short; crow] ++ title_only :: [fox_mid]) []
  = Raise (KeyError "original_title").
Proof.
  split; [reflexivity|]. split; [reflexivity|].
  apply (incomplete_record_aborts_embedding (fun text => text) nat
           (@List.length ascii) 100 [fox_short; crow] [fox_mid] title_only
           "original_title" [] eq_refl eq_refl).
Defined.

Lemma batch_slice {A} (l : list A) (i : nat) :
  slice l i (Nat.min (i + batch_size) (List.length l))
  = firstn batch_size (skipn i l).
Proof.
  unfold slice.
  rewrite <- (firstn_min_length batch_size (skipn i l)), length_skipn.
  f_equal. lia.
Qed.

Lemma batches_concat {A} (l : list A) (m : nat) :
  List.concat (map (fun j => firstn batch_size (skipn (j * batch_size) l))
                   (seq 0 m))
  = firstn (m * batch_size) l.
Proof.
  induction m as [|m IH]; [reflexivity|].
  rewrite seq_S, map_app, concat_app, IH. cbn [Nat.add map List.concat].
  rewrite app_nil_r, <- firstn_plus. f_equal. lia.
Qed.

(** X16. The batches of [embed_fables] put end to end are the documents,
    in order, and every batch holds at least one and at most [batch_size]
    documents: no document is sent twice or left out, and no batch is
    empty. *)
Theorem batches_cover_the_documents {A} (documents : list A) :
  List.concat
    (map (fun i => slice documents i
                     (Nat.min (i + batch_size) (List.length documents)))
         (batch_starts (List.length documents)))
  = documents /\
  forall i, In i (batch_starts (List.length documents)) ->
    (1 <= List.length
            (slice documents i
               (Nat.min (i + batch_size) (List.length documents)))
     <= batch_size)%nat.
Proof.
  set (n := List.length documents).
  pose proof (Nat.div_mod_eq (n + batch_size - 1) batch_size) as Hdiv.
  pose proof (Nat.mod_upper_bound (n + batch_size - 1) batch_size) as Hmod.
  unfold batch_size in Hdiv, Hmod at 1 2. split.
  - unfold batch_starts. rewrite map_map.
    rewrite (map_ext _ (fun j => firstn batch_size
                                   (skipn (j * batch_size) documents)))
      by (intros j; apply batch_slice).
    rewrite batches_concat. apply firstn_all2. subst n.
    unfold batch_size in *. lia.
  - intros i Hi. unfold batch_starts in Hi. apply in_map_iff in Hi.
    destruct Hi as (j & <- & Hj). apply in_seq in Hj.
    subst n. rewrite batch_slice, length_firstn, length_skipn.
    unfold batch_size in *. lia.
Qed.

(** ** The cleaning of a text *)

Lemma is_newline_eq c :
  FableEmbedder.is_newline c = true -> c = FableEmbedder.newline.
Proof.
  unfold FableEmbedder.is_newline, code. intros H. apply N.eqb_eq in H.
  rewrite <- (ascii_N_embedding c). now rewrite H.
Qed.

Lemma is_newline_space c :
  FableEmbedder.is_newline c = true -> isspace c = true.
Proof. intros H. now rewrite (is_newline_eq c H). Qed.

Lemma after_first_newline_suffix s r :
  FableEmbedder.after_first_newline s = Some r ->
  exists pre, s = pre ++ FableEmbedder.newline :: r.
Proof.
  induction s as [|c s IH]; cbn [FableEmbedder.after_first_newline];
    [discriminate|].
  destruct (FableEmbedder.is_newline c) eqn:E.
  - intros [= <-]. exists []. now rewrite (is_newline_eq c E).
  - intros H. destruct (IH H) as (pre & ->). now exists (c :: pre).
Qed.

Lemma sub_header_suffix s : exists pre, s = pre ++ FableEmbedder.sub_header s.
Proof.
  unfold FableEmbedder.sub_header.
  destruct (starts_with "AesopFables.com" s) as [r|] eqn:E;
    [|now exists []].
  destruct (FableEmbedder.after_first_newline r) as [rest|] eqn:Er;
    [|now exists []].
  apply starts_with_inv in E.
  destruct (after_first_newline_suffix r rest Er) as (pre & ->).
  exists (("AesopFables.com" : str) ++ pre ++ [FableEmbedder.newline]).
  rewrite E, <- !app_assoc. reflexivity.
Qed.

Lemma lazy_to_end_suffix s :
  (FableEmbedder.lazy_to_end s = [] \/
   FableEmbedder.lazy_to_end s = [FableEmbedder.newline]) /\
  exists pre, s = pre ++ FableEmbedder.lazy_to_end s.
Proof.
  induction s as [|c s [IH (pre & E)]]; cbn [FableEmbedder.lazy_to_end].
  - split; [now left | now exists []].
  - destruct (at_end (c :: s)) eqn:Ea.
    + split; [|now exists []].
      apply at_end_inv in Ea. destruct Ea as [Ea|Ea]; [discriminate|].
      right. exact Ea.
    + split; [exact IH|]. exists (c :: pre). cbn [app]. now rewrite <- E.
Qed.

Lemma after_first_suffix tok s r :
  FableEmbedder.after_first tok s = Some r -> exists pre, s = pre ++ r.
Proof.
  induction s as [|c s IH]; cbn [FableEmbedder.after_first].
  - destruct (starts_with tok []) eqn:E; [|discriminate].
    intros [= <-]. apply starts_with_inv in E. now exists tok.
  - destruct (starts_with tok (c :: s)) eqn:E.
    + intros [= <-]. apply starts_with_inv in E. now exists tok.
    + intros H. destruct (IH H) as (pre & ->). now exists (c :: pre).
Qed.

Lemma tail_of_app pre x t :
  pre <> [] ->
  (t = [] \/ t = [FableEmbedder.newline]) -> (exists q, x = q ++ t) ->
  tail_of (pre ++ x) t.
Proof.
  intros Hne Ht (q & ->). split; [exact Ht|]. exists (pre ++ q).
  split; [|now rewrite app_assoc].
  destruct pre; [contradiction|discriminate].
Qed.

Lemma match_footer_tail s t :
  FableEmbedder.match_footer s = Some t -> tail_of s t.
Proof.
  unfold FableEmbedder.match_footer.
  destruct (starts_with "Process took:" s) as [r|] eqn:E; [|discriminate].
  destruct (FableEmbedder.after_first "Copyright" r) as [x|] eqn:Ex;
    [|discriminate].
  intros [= <-]. apply starts_with_inv in E. subst s.
  destruct (after_first_suffix _ _ _ Ex) as (p & ->).
  destruct (lazy_to_end_suffix x) as [Ht (q & Eq)].
  rewrite app_assoc. apply tail_of_app; [|exact Ht|now exists q].
  discriminate.
Qed.

Lemma match_pair_tail tok1 tok2 s t :
  tok1 <> [] -> FableEmbedder.match_pair tok1 tok2 s = Some t -> tail_of s t.
Proof.
  intros Hne. unfold FableEmbedder.match_pair.
  destruct (starts_with tok1 s) as [r|] eqn:E; [|discriminate].
  destruct (starts_with tok2 (drop_space r)) as [x|] eqn:Ex; [|discriminate].
  intros [= <-]. apply starts_with_inv in E. subst s.
  apply starts_with_inv in Ex.
  destruct (drop_space_suffix r) as (p & Ep). rewrite Ex in Ep.
  destruct (lazy_to_end_suffix x) as [Ht (q & Eq)].
  apply tail_of_app; [exact Hne | exact Ht |].
  exists (p ++ tok2 ++ q). rewrite Ep, Eq at 1. now rewrite <- !app_assoc.
Qed.

(** The substitution of a footer pattern: the text is cut at the
    leftmost match, or left as it is when the pattern matches nowhere. *)
Lemma sub_to_end_spec (pattern : str -> option str) :
  (forall s t, pattern s = Some t -> tail_of s t) ->
  forall s,
    (FableEmbedder.sub_to_end pattern s = s /\
     forall pre suf, s = pre ++ suf -> pattern suf = None) \/
    (exists pre suf t,
       s = pre ++ suf /\ pattern suf = Some t /\
       FableEmbedder.sub_to_end pattern s = pre ++ t /\
       forall p1 p2, pre = p1 ++ p2 -> p2 <> [] ->
                     pattern (p2 ++ suf) = None).
Proof.
  intros Htail. induction s as [|c s IH].
  - cbn [FableEmbedder.sub_to_end].
    destruct (pattern []) as [t|] eqn:E.
    + destruct (Htail _ _ E) as [_ (pre & Hne & Ep)].
      destruct pre; [contradiction|discriminate].
    + left. split; [reflexivity|]. intros pre suf Hs.
      symmetry in Hs. apply app_eq_nil in Hs. destruct Hs as [_ ->].
      exact E.
  - cbn [FableEmbedder.sub_to_end].
    destruct (pattern (c :: s)) as [t|] eqn:E.
    + right. exists [], (c :: s), t. repeat split; auto.
      intros p1 p2 Hp Hne. symmetry in Hp. apply app_eq_nil in Hp.
      destruct Hp as [_ ->]. contradiction.
    + destruct IH as [[Hs Hnone]|(pre & suf & t & Hs & Hp & Hr & Hmin)].
      * left. split; [now rewrite Hs|]. intros pre suf Hps.
        destruct pre as [|x pre]; cbn [app] in Hps.
        -- now subst suf.
        -- injection Hps as _ Hps. exact (Hnone pre suf Hps).
      * right. exists (c :: pre), suf, t. split; [now rewrite Hs|].
        split; [exact Hp|]. split; [now rewrite Hr|].
        intros p1 p2 Hpp Hne. destruct p1 as [|x p1]; cbn [app] in Hpp.
        -- subst p2. cbn [app]. now rewrite <- Hs.
        -- injection Hpp as _ Hpp. exact (Hmin p1 p2 Hpp Hne).
Qed.

Lemma sub_to_end_length (pattern : str -> option str) :
  (forall s t, pattern s = Some t -> tail_of s t) ->
  forall s,
    (List.length (FableEmbedder.sub_to_end pattern s) <= List.length s)%nat.
Proof.
  intros Htail s.
  destruct (sub_to_end_spec pattern Htail s)
    as [[-> _]|(pre & suf & t & Hs & Hp & -> & _)]; [lia|].
  destruct (Htail _ _ Hp) as [_ (q & _ & ->)]. subst s.
  rewrite !length_app. lia.
Qed.

Lemma blank_run_spec s : forall n,
  FableEmbedder.blank_run s = Some n ->
  exists W,
    forallb isspace W = true /\
    s = W ++ FableEmbedder.newline :: skipn n s /\
    n = S (List.length W) /\
    FableEmbedder.blank_run (skipn n s) = None.
Proof.
  induction s as [|c s IH]; intros n; cbn [FableEmbedder.blank_run];
    [discriminate|].
  destruct (isspace c) eqn:Ec; [|discriminate].
  destruct (FableEmbedder.blank_run s) as [m|] eqn:Em.
  - intros [= <-]. destruct (IH m eq_refl) as (W & HW & Hs & Hm & Hn).
    exists (c :: W). cbn [forallb skipn app List.length].
    rewrite Ec, HW. repeat split; auto. now rewrite <- Hs.
  - destruct (FableEmbedder.is_newline c) eqn:En; [|discriminate].
    intros [= <-]. exists []. cbn [forallb skipn app List.length].
    rewrite (is_newline_eq c En). repeat split; auto.
Qed.

Lemma sub_blank_go_skip s : forall n,
  FableEmbedder.sub_blank_go s n = FableEmbedder.sub_blank_go (skipn n s) 0.
Proof.
  induction s as [|c s IH]; intros [|n]; try reflexivity.
  cbn [FableEmbedder.sub_blank_go skipn]. apply IH.
Qed.

Lemma sub_blank_go_squeezed (k : nat) : forall s,
  (List.length s <= k)%nat -> squeezed s (FableEmbedder.sub_blank_go s 0).
Proof.
  induction k as [|k IH]; intros s Hk.
  - destruct s; [constructor | cbn in Hk; lia].
  - destruct s as [|c s]; [constructor|].
    cbn [List.length] in Hk. cbn [FableEmbedder.sub_blank_go].
    destruct (FableEmbedder.is_newline c) eqn:Ec.
    + destruct (FableEmbedder.blank_run s) as [n|] eqn:En.
      * destruct (blank_run_spec s n En) as (W & HW & Hs & Hn & _).
        rewrite sub_blank_go_skip, (is_newline_eq c Ec).
        rewrite Hs at 1. apply squeezed_blank; [exact HW|].
        apply IH. rewrite length_skipn. lia.
      * apply squeezed_keep, IH. lia.
    + apply squeezed_keep, IH. lia.
Qed.

Lemma squeezed_length s t :
  squeezed s t -> (List.length t <= List.length s)%nat.
Proof.
  induction 1; cbn [List.length]; [lia | lia |].
  rewrite length_app. cbn [List.length]. lia.
Qed.

Lemma strip_length s : (List.length (strip s) <= List.length s)%nat.
Proof.
  destruct (strip_part s) as (pre & post & E). rewrite E at 2.
  rewrite !length_app. lia.
Qed.

Lemma footer_tails :
  (forall s t, FableEmbedder.match_footer s = Some t -> tail_of s t) /\
  (forall s t,
     FableEmbedder.match_pair "RETURN" "Process took" s = Some t ->
     tail_of s t) /\
  (forall s t,
     FableEmbedder.match_pair "THE END" "RETURN" s = Some t -> tail_of s t).
Proof.
  split; [exact match_footer_tail|].
  split; intros s t; apply match_pair_tail; discriminate.
Qed.

Lemma clean_content_length (content : str) :
  (List.length (FableEmbedder.clean_content content)
   <= List.length content)%nat.
Proof.
  unfold FableEmbedder.clean_content.
  destruct footer_tails as (H1 & H2 & H3).
  eapply Nat.le_trans; [apply strip_length|].
  eapply Nat.le_trans;
    [apply squeezed_length, (sub_blank_go_squeezed _ _ (Nat.le_refl _))|].
  eapply Nat.le_trans; [apply (sub_to_end_length _ H3)|].
  eapply Nat.le_trans; [apply (sub_to_end_length _ H2)|].
  eapply Nat.le_trans; [apply (sub_to_end_length _ H1)|].
  destruct (sub_header_suffix content) as (pre & E). rewrite E at 2.
  rewrite length_app. lia.
Qed.

(** X17. The text that [clean_content] returns has no white space at
    either end and is never longer than the text it was given. *)
Theorem cleaned_text_is_trimmed_and_no_longer (content : str) :
  trimmed (FableEmbedder.clean_content content) /\
  (List.length (FableEmbedder.clean_content content)
   <= List.length content)%nat.
Proof.
  split; [|apply clean_content_length].
  unfold FableEmbedder.clean_content. apply strip_trimmed.
Qed.

Lemma no_blank_start r :
  FableEmbedder.blank_run r = None ->
  forall W l2, forallb isspace W = true ->
    FableEmbedder.sub_blank_go r 0 <> W ++ FableEmbedder.newline :: l2.
Proof.
  induction r as [|c r IH]; intros Hb W l2 HW E.
  - cbn in E. now destruct W.
  - cbn [FableEmbedder.blank_run] in Hb.
    cbn [FableEmbedder.sub_blank_go] in E.
    destruct (isspace c) eqn:Ec.
    + destruct (FableEmbedder.blank_run r) as [m|] eqn:Em; [discriminate|].
      destruct (FableEmbedder.is_newline c) eqn:En; [discriminate|].
      destruct W as [|w W]; cbn [app] in E; injection E as E1 E2.
      * subst c. discriminate En.
      * cbn [forallb] in HW. apply andb_true_iff in HW.
        exact (IH eq_refl W l2 (proj2 HW) E2).
    + assert (En : FableEmbedder.is_newline c = false).
      { destruct (FableEmbedder.is_newline c) eqn:En; [|reflexivity].
        apply is_newline_space in En. congruence. }
      rewrite En in E.
      destruct W as [|w W]; cbn [app] in E; injection E as E1 E2.
      * subst c. discriminate Ec.
      * cbn [forallb] in HW. apply andb_true_iff in HW. subst w.
        destruct HW as [HW _]. congruence.
Qed.

Lemma sub_blank_go_collapsed (k : nat) : forall s,
  (List.length s <= k)%nat ->
  blank_lines_collapsed (FableEmbedder.sub_blank_go s 0).
Proof.
  induction k as [|k IH]; intros s Hk l1 W l2 E HW.
  - destruct s; [|cbn in Hk; lia]. cbn in E. now destruct l1.
  - destruct s as [|c s]; [cbn in E; now destruct l1|].
    cbn [List.length] in Hk. cbn [FableEmbedder.sub_blank_go] in E.
    assert (Hkeep :
      c :: FableEmbedder.sub_blank_go s 0 =
        l1 ++ FableEmbedder.newline :: W ++ FableEmbedder.newline :: l2 ->
      (FableEmbedder.is_newline c = true ->
       FableEmbedder.blank_run s = None) -> W = []).
    { intros E' Hc. destruct l1 as [|x l1]; cbn [app] in E'.
      - injection E' as E1 E2. subst c.
        exfalso. exact (no_blank_start s (Hc eq_refl) W l2 HW E2).
      - injection E' as _ E2.
        exact (IH s ltac:(lia) l1 W l2 E2 HW). }
    destruct (FableEmbedder.is_newline c) eqn:Ec;
      [|apply (Hkeep E); discriminate].
    destruct (FableEmbedder.blank_run s) as [n|] eqn:En;
      [|apply (Hkeep E); reflexivity].
    destruct (blank_run_spec s n En) as (_ & _ & _ & _ & Hnone).
    rewrite sub_blank_go_skip in E.
    destruct l1 as [|x [|y l1]]; cbn [app] in E.
    + injection E as E. destruct W as [|w W]; [reflexivity|].
      cbn [app] in E. injection E as _ E.
      cbn [forallb] in HW. apply andb_true_iff in HW.
      exfalso. exact (no_blank_start _ Hnone W l2 (proj2 HW) E).
    + injection E as _ E.
      exfalso. exact (no_blank_start _ Hnone W l2 HW E).
    + injection E as _ _ E.
      apply (IH (skipn n s)) with (l1 := l1) (l2 := l2); auto.
      rewrite length_skipn. lia.
Qed.

Lemma blank_lines_collapsed_part pre m post :
  blank_lines_collapsed (pre ++ m ++ post) -> blank_lines_collapsed m.
Proof.
  intros H l1 W l2 E. apply (H (pre ++ l1) W (l2 ++ post)).
  rewrite E, <- !app_assoc. cbn [app]. rewrite <- !app_assoc. reflexivity.
Qed.

(** X18. In the text that [clean_content] returns, two newlines that
    have only white space between them stand side by side: a blank line
    holds no white space and no two blank lines follow each other. *)
Theorem cleaned_text_has_collapsed_blank_lines (content : str) :
  blank_lines_collapsed (FableEmbedder.clean_content content).
Proof.
  unfold FableEmbedder.clean_content.
  set (s := FableEmbedder.sub_to_end _ _).
  destruct (strip_part (FableEmbedder.sub_blank_lines s))
    as (pre & post & E).
  apply (blank_lines_collapsed_part pre _ post). rewrite <- E.
  apply (sub_blank_go_collapsed _ _ (Nat.le_refl _)).
Qed.

Lemma squeezed_prefix (T : str) :
  Forall (fun c => c <> FableEmbedder.newline) T ->
  forall s t l2, squeezed s t -> t = T ++ l2 ->
    exists l2', s = T ++ l2' /\ squeezed l2' l2.
Proof.
  induction 1 as [|a T Ha HT IH]; intros s t l2 Hsq E; cbn [app] in E.
  - subst t. now exists s.
  - inversion Hsq as [|c s0 t0 H0|W s0 t0 HW H0]; subst; try discriminate.
    + injection H1 as -> E. destruct (IH s0 _ l2 H0 E) as (l2' & -> & Hl).
      now exists l2'.
    + injection H1 as E _. now symmetry in E.
Qed.

Lemma squeezed_occurrence (T : str) :
  Forall (fun c => c <> FableEmbedder.newline) T -> T <> [] ->
  forall s t, squeezed s t ->
    forall l1 l2, t = l1 ++ T ++ l2 ->
      exists l1' l2', s = l1' ++ T ++ l2' /\ squeezed l2' l2.
Proof.
  intros HT Hne s t Hsq.
  induction Hsq as [|c s t Hsq IH|W s t HW Hsq IH]; intros l1 l2 E.
  - destruct l1, T; try discriminate. contradiction.
  - destruct l1 as [|x l1]; cbn [app] in E.
    + destruct (squeezed_prefix T HT (c :: s) (c :: t) l2
                  (squeezed_keep c s t Hsq) E) as (l2' & E' & Hl).
      exists [], l2'. now split.
    + injection E as _ E. destruct (IH l1 l2 E) as (l1' & l2' & -> & Hl).
      exists (c :: l1'), l2'. now split.
  - destruct l1 as [|x [|y l1]]; cbn [app] in E.
    + destruct T as [|a T]; [contradiction|]. cbn [app] in E.
      injection E as E _. inversion HT; subst. contradiction.
    + injection E as _ E. destruct T as [|a T]; [contradiction|].
      cbn [app] in E. injection E as E _. inversion HT; subst.
      contradiction.
    + injection E as _ _ E. destruct (IH l1 l2 E) as (l1' & l2' & -> & Hl).
      exists (FableEmbedder.newline :: W ++ FableEmbedder.newline :: l1'), l2'.
      split; [|exact Hl]. cbn [app]. now rewrite <- app_assoc.
Qed.

Lemma squeezed_space_run (T : str) :
  Forall (fun c => c <> FableEmbedder.newline) T -> T <> [] ->
  forall s t, squeezed s t ->
    forall W l2, forallb isspace W = true -> t = W ++ T ++ l2 ->
      exists W' l2', forallb isspace W' = true /\ s = W' ++ T ++ l2'.
Proof.
  intros HT Hne s t Hsq.
  induction Hsq as [|c s t Hsq IH|W0 s t HW0 Hsq IH]; intros W l2 HW E.
  - destruct W, T; try discriminate. contradiction.
  - destruct W as [|w W]; cbn [app] in E.
    + destruct (squeezed_prefix T HT (c :: s) (c :: t) l2
                  (squeezed_keep c s t Hsq) E) as (l2' & E' & _).
      exists [], l2'. now split.
    + injection E as -> E. cbn [forallb] in HW.
      apply andb_true_iff in HW. destruct HW as [Hw HW].
      destruct (IH W l2 HW E) as (W' & l2' & HW' & ->).
      exists (w :: W'), l2'. cbn [forallb]. rewrite Hw, HW'. now split.
  - destruct W as [|x [|y W]]; cbn [app] in E.
    + destruct T as [|a T]; [contradiction|]. cbn [app] in E.
      injection E as E _. inversion HT; subst. contradiction.
    + injection E as _ E. destruct T as [|a T]; [contradiction|].
      cbn [app] in E. injection E as E _. inversion HT; subst.
      contradiction.
    + injection E as _ _ E. cbn [forallb] in HW.
      apply andb_true_iff in HW. destruct HW as [_ HW].
      apply andb_true_iff in HW. destruct HW as [_ HW].
      destruct (IH W l2 HW E) as (W' & l2' & HW' & ->).
      exists (FableEmbedder.newline :: W0 ++ FableEmbedder.newline :: W'), l2'.
      split.
      * cbn [forallb]. rewrite forallb_app. cbn [forallb].
        now rewrite HW0, HW'.
      * cbn [app]. now rewrite <- app_assoc.
Qed.

Lemma squeezed_footer_match s t :
  squeezed s t -> occurs footer_match t -> occurs footer_match s.
Proof.
  intros Hsq (l1 & m & l3 & (mid & ->) & ->).
  rewrite <- !app_assoc in Hsq.
  destruct (squeezed_occurrence "Process took:"
              ltac:(repeat constructor; discriminate) ltac:(discriminate)
              _ _ Hsq l1 _ eq_refl) as (l1' & l2' & -> & Hl).
  destruct (squeezed_occurrence "Copyright"
              ltac:(repeat constructor; discriminate) ltac:(discriminate)
              _ _ Hl mid l3 eq_refl) as (mid' & l3' & -> & _).
  exists l1', (("Process took:" : str) ++ mid' ++ ("Copyright" : str)), l3'.
  split; [now exists mid'|]. now rewrite <- !app_assoc.
Qed.

Lemma squeezed_pair_match (tok1 tok2 : str) s t :
  Forall (fun c => c <> FableEmbedder.newline) tok1 -> tok1 <> [] ->
  Forall (fun c => c <> FableEmbedder.newline) tok2 -> tok2 <> [] ->
  squeezed s t ->
  occurs (pair_match tok1 tok2) t -> occurs (pair_match tok1 tok2) s.
Proof.
  intros H1 Hn1 H2 Hn2 Hsq (l1 & m & l3 & (W & HW & ->) & ->).
  rewrite <- !app_assoc in Hsq.
  destruct (squeezed_occurrence tok1 H1 Hn1 _ _ Hsq l1 _ eq_refl)
    as (l1' & l2' & -> & Hl).
  destruct (squeezed_space_run tok2 H2 Hn2 _ _ Hl W l3 HW eq_refl)
    as (W' & l3' & HW' & ->).
  exists l1', (tok1 ++ W' ++ tok2), l3'.
  split; [now exists W'|]. now rewrite <- !app_assoc.
Qed.

Lemma last_case {A} (l : list A) : l = [] \/ exists l' x, l = l' ++ [x].
Proof.
  destruct l as [|a l]; [now left|]. right.
  destruct (exists_last (l := a :: l)) as (l' & x & E); [discriminate|].
  now exists l', x.
Qed.

Lemma occurs_cut (B : str -> Prop) pre t l1 m l3 :
  ends_in_text B -> B m ->
  (t = [] \/ t = [FableEmbedder.newline]) ->
  pre ++ t = l1 ++ m ++ l3 ->
  exists l3', pre = l1 ++ m ++ l3'.
Proof.
  intros HB Hm [->| ->] E.
  - rewrite app_nil_r in E. now exists l3.
  - destruct (HB m Hm) as [Hne Hend].
    destruct (last_case l3) as [->|(l3' & x & ->)].
    + rewrite app_nil_r in E.
      destruct (last_case m) as [->|(m' & x & ->)]; [contradiction|].
      rewrite app_assoc in E. apply app_inj_tail in E.
      destruct E as [_ <-]. now destruct (Hend m').
    + rewrite !app_assoc in E. apply app_inj_tail in E.
      destruct E as [-> _]. exists l3'. now rewrite <- app_assoc.
Qed.

Lemma sub_to_end_removes (pattern : str -> option str)
    (B : str -> Prop) :
  (forall s t, pattern s = Some t -> tail_of s t) ->
  (forall m x, B m -> pattern (m ++ x) <> None) ->
  ends_in_text B ->
  forall s, ~ occurs B (FableEmbedder.sub_to_end pattern s).
Proof.
  intros Htail Hhit HB s (l1 & m & l3 & Hm & E).
  destruct (sub_to_end_spec pattern Htail s)
    as [[Hs Hnone]|(pre & suf & t & Hs & Hp & Hr & Hmin)].
  - rewrite Hs in E. exact (Hhit m l3 Hm (Hnone l1 (m ++ l3) E)).
  - rewrite Hr in E. destruct (Htail _ _ Hp) as [Ht _].
    destruct (occurs_cut B pre t l1 m l3 HB Hm Ht E) as (l3' & Hpre).
    apply (Hhit m (l3' ++ suf) Hm). rewrite app_assoc.
    apply (Hmin l1 (m ++ l3') Hpre).
    destruct (HB m Hm) as [Hne _]. destruct m; [contradiction|discriminate].
Qed.

Lemma sub_to_end_keeps (pattern : str -> option str) (B : str -> Prop) :
  (forall s t, pattern s = Some t -> tail_of s t) ->
  ends_in_text B ->
  forall s, ~ occurs B s -> ~ occurs B (FableEmbedder.sub_to_end pattern s).
Proof.
  intros Htail HB s Hfree (l1 & m & l3 & Hm & E).
  destruct (sub_to_end_spec pattern Htail s)
    as [[Hs _]|(pre & suf & t & Hs & Hp & Hr & _)].
  - rewrite Hs in E. apply Hfree. now exists l1, m, l3.
  - rewrite Hr in E. destruct (Htail _ _ Hp) as [Ht _].
    destruct (occurs_cut B pre t l1 m l3 HB Hm Ht E) as (l3' & Hpre).
    apply Hfree. exists l1, m, (l3' ++ suf). split; [exact Hm|].
    rewrite Hs, Hpre, <- !app_assoc. reflexivity.
Qed.

Lemma ends_with_token (a tok tok' : str) (x : ascii) :
  tok = tok' ++ [x] -> x <> FableEmbedder.newline ->
  a ++ tok <> [] /\ forall m', a ++ tok <> m' ++ [FableEmbedder.newline].
Proof.
  intros -> Hx. split.
  - intros E. apply app_eq_nil in E. destruct E as [_ E]. now destruct tok'.
  - intros m' E. rewrite app_assoc in E. apply app_inj_tail in E.
    now destruct E as [_ E].
Qed.

Lemma footer_match_ends : ends_in_text footer_match.
Proof.
  intros m (mid & ->). rewrite app_assoc.
  apply (ends_with_token _ "Copyright" "Copyrigh" "t"%char);
    [reflexivity | discriminate].
Qed.

Lemma pair_match_ends (tok1 tok2 tok' : str) (x : ascii) :
  tok2 = tok' ++ [x] -> x <> FableEmbedder.newline ->
  ends_in_text (pair_match tok1 tok2).
Proof.
  intros E Hx m (W & _ & ->). rewrite app_assoc.
  now apply (ends_with_token _ tok2 tok' x).
Qed.

Lemma after_first_eq tok s :
  FableEmbedder.after_first tok s =
  match starts_with tok s with
  | Some rest => Some rest
  | None => match s with
            | [] => None
            | _ :: r => FableEmbedder.after_first tok r
            end
  end.
Proof. destruct s; reflexivity. Qed.

Lemma after_first_app tok a b :
  FableEmbedder.after_first tok (a ++ tok ++ b) <> None.
Proof.
  induction a as [|c a IH]; rewrite after_first_eq.
  - cbn [app]. now rewrite starts_with_app.
  - destruct (starts_with tok ((c :: a) ++ tok ++ b)); [discriminate|].
    exact IH.
Qed.

Lemma match_footer_hit m x :
  footer_match m -> FableEmbedder.match_footer (m ++ x) <> None.
Proof.
  intros (mid & ->). unfold FableEmbedder.match_footer.
  rewrite <- !app_assoc, starts_with_app.
  pose proof (after_first_app "Copyright" mid x) as H.
  destruct (FableEmbedder.after_first "Copyright"
              (mid ++ ("Copyright" : str) ++ x));
    [discriminate | contradiction].
Qed.

Lemma match_pair_hit (tok1 tok2 : str) (a : ascii) (tok' : str) m x :
  tok2 = a :: tok' -> isspace a = false ->
  pair_match tok1 tok2 m ->
  FableEmbedder.match_pair tok1 tok2 (m ++ x) <> None.
Proof.
  intros E Ha (W & HW & ->). unfold FableEmbedder.match_pair.
  rewrite <- !app_assoc, starts_with_app.
  rewrite (drop_space_app_space W _ HW).
  assert (Ed : drop_space (tok2 ++ x) = tok2 ++ x).
  { rewrite E. cbn [app]. now apply drop_space_head. }
  rewrite Ed, starts_with_app. discriminate.
Qed.

Lemma occurs_part (B : str -> Prop) pre s post :
  occurs B s -> occurs B (pre ++ s ++ post).
Proof.
  intros (l1 & m & l3 & Hm & ->). exists (pre ++ l1), m, (l3 ++ post).
  split; [exact Hm|]. now rewrite <- !app_assoc.
Qed.

(** X19. The text that [clean_content] returns holds none of the three
    footers: no [Process took:] followed later by [Copyright], no [RETURN]
    followed, after white space or directly, by [Process took], and no
    [THE END] followed in the same way by [RETURN]. *)
Theorem cleaned_text_holds_no_footer (content : str) :
  ~ occurs footer_match (FableEmbedder.clean_content content) /\
  ~ occurs (pair_match "RETURN" "Process took")
           (FableEmbedder.clean_content content) /\
  ~ occurs (pair_match "THE END" "RETURN")
           (FableEmbedder.clean_content content).
Proof.
  destruct footer_tails as (T1 & T2 & T3).
  assert (E1 := footer_match_ends).
  assert (E2 : ends_in_text (pair_match "RETURN" "Process took")).
  { apply (pair_match_ends _ _ "Process too" "k"%char);
      [reflexivity | discriminate]. }
  assert (E3 : ends_in_text (pair_match "THE END" "RETURN")).
  { apply (pair_match_ends _ _ "RETUR" "N"%char);
      [reflexivity | discriminate]. }
  unfold FableEmbedder.clean_content.
  set (s1 := FableEmbedder.sub_header content).
  set (s2 := FableEmbedder.sub_to_end FableEmbedder.match_footer s1).
  set (s3 := FableEmbedder.sub_to_end
               (FableEmbedder.match_pair "RETURN" "Process took") s2).
  set (s4 := FableEmbedder.sub_to_end
               (FableEmbedder.match_pair "THE END" "RETURN") s3).
  assert (F1 : ~ occurs footer_match s4).
  { apply (sub_to_end_keeps _ _ T3 E1), (sub_to_end_keeps _ _ T2 E1).
    apply (sub_to_end_removes _ _ T1); [|exact E1].
    intros m x. apply match_footer_hit. }
  assert (F2 : ~ occurs (pair_match "RETURN" "Process took") s4).
  { apply (sub_to_end_keeps _ _ T3 E2).
    apply (sub_to_end_removes _ _ T2); [|exact E2].
    intros m x. apply (match_pair_hit _ _ "P"%char "rocess took");
      reflexivity. }
  assert (F3 : ~ occurs (pair_match "THE END" "RETURN") s4).
  { apply (sub_to_end_removes _ _ T3); [|exact E3].
    intros m x. apply (match_pair_hit _ _ "R"%char "ETURN"); reflexivity. }
  assert (Hsq : squeezed s4 (FableEmbedder.sub_blank_lines s4))
    by apply (sub_blank_go_squeezed _ _ (Nat.le_refl _)).
  destruct (strip_part (FableEmbedder.sub_blank_lines s4))
    as (pre & post & Es).
  assert (Hpart : forall B,
            occurs B (strip (FableEmbedder.sub_blank_lines s4)) ->
            occurs B (FableEmbedder.sub_blank_lines s4)).
  { intros B H. rewrite Es. now apply occurs_part. }
  split; [|split]; intros H; apply Hpart in H.
  - apply F1. exact (squeezed_footer_match _ _ Hsq H).
  - apply F2. revert H. apply squeezed_pair_match; try exact Hsq;
      try discriminate; repeat constructor; discriminate.
  - apply F3. revert H. apply squeezed_pair_match; try exact Hsq;
      try discriminate; repeat constructor; discriminate.
Qed.

Lemma contains_eq needle s :
  contains needle s =
  match starts_with needle s with
  | Some _ => true
  | None => match s with
            | [] => false
            | _ :: rest => contains needle rest
            end
  end.
Proof. destruct s; reflexivity. Qed.

Lemma contains_suffix needle pre suf :
  contains needle suf = true -> contains needle (pre ++ suf) = true.
Proof.
  intros H. induction pre as [|c pre IH]; [exact H|].
  rewrite contains_eq. cbn [app].
  now destruct (starts_with needle (c :: pre ++ suf)).
Qed.

Lemma starts_with_contains needle s r :
  starts_with needle s = Some r -> contains needle s = true.
Proof. intros H. rewrite contains_eq. now rewrite H. Qed.

Lemma starts_with_shorter (p q s : str) r :
  starts_with (p ++ q) s = Some r -> starts_with p s = Some (q ++ r).
Proof.
  intros H. apply starts_with_inv in H. subst s.
  rewrite <- app_assoc. apply starts_with_app.
Qed.

Lemma sub_to_end_unchanged (pattern : str -> option str) s :
  (forall pre suf, s = pre ++ suf -> pattern suf = None) ->
  FableEmbedder.sub_to_end pattern s = s.
Proof.
  induction s as [|c s IH]; intros H; cbn [FableEmbedder.sub_to_end].
  - now rewrite (H [] [] eq_refl).
  - rewrite (H [] (c :: s) eq_refl). f_equal. apply IH.
    intros pre suf E. apply (H (c :: pre) suf). now rewrite E.
Qed.

Lemma after_first_newline_app h body :
  Forall (fun c => FableEmbedder.is_newline c = false) h ->
  FableEmbedder.after_first_newline (h ++ FableEmbedder.newline :: body)
  = Some body.
Proof.
  induction 1 as [|c h Hc Hh IH]; cbn [app FableEmbedder.after_first_newline].
  - reflexivity.
  - now rewrite Hc.
Qed.

(** X20. A first line that begins with [AesopFables.com] is dropped:
    the text cleans to what the lines after it clean to, provided that
    these do not begin with [AesopFables.com] themselves. *)
Theorem header_line_is_dropped (h body : str) :
  Forall (fun c => FableEmbedder.is_newline c = false) h ->
  starts_with "AesopFables.com" body = None ->
  FableEmbedder.clean_content
    ("AesopFables.com" ++ h ++ FableEmbedder.newline :: body)
  = FableEmbedder.clean_content body.
Proof.
  intros Hh Hb. unfold FableEmbedder.clean_content.
  assert (E1 : FableEmbedder.sub_header
                 (("AesopFables.com" : str) ++ h
                  ++ FableEmbedder.newline :: body) = body).
  { unfold FableEmbedder.sub_header.
    now rewrite starts_with_app, (after_first_newline_app h body Hh). }
  assert (E2 : FableEmbedder.sub_header body = body).
  { unfold FableEmbedder.sub_header. now rewrite Hb. }
  now rewrite E1, E2.
Qed.

Lemma header_line_is_dropped_witness :
  let h : str := " - General Fable Collection" in
  let body : str := "THE FOX AND THE GRAPES" in
  Forall (fun c => FableEmbedder.is_newline c = false) h /\
  starts_with "AesopFables.com" body = None /\
  FableEmbedder.clean_content
    ("AesopFables.com" ++ h ++ FableEmbedder.newline :: body)
  = FableEmbedder.clean_content body.
Proof.
  assert (Hh : Forall (fun c => FableEmbedder.is_newline c = false)
                      (" - General Fable Collection" : str))
    by (repeat constructor).
  split; [exact Hh|]. split; [reflexivity|].
  apply (header_line_is_dropped " - General Fable Collection"
           "THE FOX AND THE GRAPES" Hh eq_refl).
Defined.

(** X21. On a text without [AesopFables.com], [Process took] and
    [RETURN] the header and footer substitutions change nothing:
    [clean_content] is the collapsing of the blank lines followed by the
    trimming. *)
Theorem plain_text_is_only_respaced (content : str) :
  contains "AesopFables.com" content = false ->
  contains "Process took" content = false ->
  contains "RETURN" content = false ->
  FableEmbedder.clean_content content
  = strip (FableEmbedder.sub_blank_lines content).
Proof.
  intros Hs Hp Hr. unfold FableEmbedder.clean_content.
  assert (E1 : FableEmbedder.sub_header content = content).
  { unfold FableEmbedder.sub_header.
    destruct (starts_with "AesopFables.com" content) eqn:E; [|reflexivity].
    apply starts_with_contains in E. congruence. }
  assert (E2 : FableEmbedder.sub_to_end FableEmbedder.match_footer content
               = content).
  { apply sub_to_end_unchanged. intros pre suf E.
    unfold FableEmbedder.match_footer.
    destruct (starts_with "Process took:" suf) eqn:Es; [|reflexivity].
    apply (starts_with_shorter "Process took" ":") in Es.
    apply starts_with_contains, (contains_suffix _ pre) in Es.
    rewrite <- E in Es. congruence. }
  assert (E3 : FableEmbedder.sub_to_end
                 (FableEmbedder.match_pair "RETURN" "Process took") content
               = content).
  { apply sub_to_end_unchanged. intros pre suf E.
    unfold FableEmbedder.match_pair.
    destruct (starts_with "RETURN" suf) eqn:Es; [|reflexivity].
    apply starts_with_contains, (contains_suffix _ pre) in Es.
    rewrite <- E in Es. congruence. }
  assert (E4 : FableEmbedder.sub_to_end
                 (FableEmbedder.match_pair "THE END" "RETURN") content
               = content).
  { apply sub_to_end_unchanged. intros pre suf E.
    unfold FableEmbedder.match_pair.
    destruct (starts_with "THE END" suf) as [r|] eqn:Es; [|reflexivity].
    destruct (starts_with "RETURN" (drop_space r)) eqn:Ed; [|reflexivity].
    apply starts_with_inv in Es.
    destruct (drop_space_suffix r) as (q & Eq).
    apply starts_with_contains in Ed.
    apply (contains_suffix _ (pre ++ ("THE END" : str) ++ q)) in Ed.
    rewrite <- !app_assoc, <- Eq, <- Es, <- E in Ed. congruence. }
  now rewrite E1, E2, E3, E4.
Qed.

Lemma plain_text_is_only_respaced_witness :
  let content : str := "  A fox saw grapes.  " in
  contains "AesopFables.com" content = false /\
  contains "Process took" content = false /\
  contains "RETURN" content = false /\
  FableEmbedder.clean_content content
  = strip (FableEmbedder.sub_blank_lines content).
Proof.
  split; [reflexivity|]. split; [reflexivity|]. split; [reflexivity|].
  apply (plain_text_is_only_respaced "  A fox saw grapes.  ");
    reflexivity.
Defined.

(** ** The two prompts of the driver *)

Lemma map_Some_injective {A} (a b : list A) :
  map Some a = map Some b -> a = b.
Proof.
  revert b. induction a as [|x a IH]; intros [|y b]; cbn;
    try discriminate; [reflexivity|].
  intros [= -> E]. f_equal. now apply IH.
Qed.

(** X22. The two prompts of [main] on a collection that already holds
    entries, for complete records.  Two yeses give what the run on an
    empty collection gives: the old entries are gone and the fables are
    embedded from position zero.  A yes followed by a no leaves the
    collection empty: it is recreated and nothing is embedded.  Two noes
    leave the collection as it was.  A no followed by a yes, on a
    collection that holds none of the identifiers to be assigned, leaves
    the old entries followed by the entries of the run on an empty
    collection. *)
Theorem rebuild_follows_the_second_answer (vector : Type)
    (embed : str -> vector) (max_batch : nat) (fables : list fable)
    (c : collection vector) (answer1 answer2 : str) :
  (batch_size <= max_batch)%nat ->
  forallb complete fables = true ->
  (0 < count c)%nat ->
  exists fresh,
    EmbedFables.main embed max_batch fables [] answer1 answer2 = Ok fresh /\
    count fresh = List.length fables /\
    (EmbedFables.says_yes answer1 = true ->
     EmbedFables.says_yes answer2 = true ->
     EmbedFables.main embed max_batch fables c answer1 answer2 = Ok fresh) /\
    (EmbedFables.says_yes answer1 = true ->
     EmbedFables.says_yes answer2 = false ->
     EmbedFables.main embed max_batch fables c answer1 answer2 = Ok []) /\
    (EmbedFables.says_yes answer1 = false ->
     EmbedFables.says_yes answer2 = false ->
     EmbedFables.main embed max_batch fables c answer1 answer2 = Ok c) /\
    (EmbedFables.says_yes answer1 = false ->
     EmbedFables.says_yes answer2 = true ->
     fresh_ids (List.length fables) c ->
     EmbedFables.main embed max_batch fables c answer1 answer2
     = Ok (c ++ fresh)).
Proof.
  intros Hmax Hc Hcount.
  destruct (embed_fables_ok FableEmbedder.clean_content vector embed
              max_batch Hmax fables [] Hc) as (new & E & Hnew).
  assert (Hpos : (0 <? count c)%nat = true) by now apply Nat.ltb_lt.
  assert (Hnz : (count c =? 0)%nat = false) by (apply Nat.eqb_neq; lia).
  exists new. split; [exact E|]. split.
  - unfold count. rewrite <- (length_map Some), Hnew, length_map.
    unfold enumerate. rewrite length_combine, length_seq. lia.
  - unfold EmbedFables.main. rewrite Hpos, Hnz. cbn [orb andb].
    split; [|split; [|split]]; intros H1 H2; rewrite H1, H2;
      unfold EmbedFables.recreate; try reflexivity; try exact E.
    intros _.
    destruct (embed_fables_ok FableEmbedder.clean_content vector embed
                max_batch Hmax fables c Hc) as (new' & E' & Hnew').
    rewrite E'. do 2 f_equal. apply map_Some_injective. congruence.
Qed.

Lemma rebuild_follows_the_second_answer_witness :
  let old : collection nat :=
    [mkEntry (fable_id 0) 3%nat (mkMeta "Old" "Old" "u" 3 3) "Old"] in
  (batch_size <= 100)%nat /\ forallb complete corpus = true /\
  (0 < count old)%nat /\
  EmbedFables.says_yes " Y " = true /\ EmbedFables.says_yes "n" = false /\
  EmbedFables.main (@List.length ascii) 100 corpus old " Y " "n" = Ok [].
Proof.
  intros old.
  split; [apply Nat.le_refl|]. split; [reflexivity|].
  split; [apply Nat.lt_0_1|]. split; [reflexivity|]. split; [reflexivity|].
  destruct (rebuild_follows_the_second_answer nat (@List.length ascii) 100
              corpus old " Y " "n" (Nat.le_refl _) eq_refl Nat.lt_0_1)
    as (fresh & _ & _ & _ & H & _).
  exact (H eq_refl eq_refl).
Defined.

(** ** What the collection stores *)

(** X23. After the embedding of complete records into an empty
    collection every entry comes from an input record: its document is the
    cleaned content of the record, its vector is the embedding of that
    document, its [cleaned_length] is the length of the document and at
    most the length of the raw content, and its word count, title and URL
    are those of the record (the word count is that of the raw text). *)
Theorem stored_documents_are_cleaned (vector : Type) (embed : str -> vector)
    (max_batch : nat) (fables : list fable) :
  (batch_size <= max_batch)%nat ->
  forallb complete fables = true ->
  exists c,
    embed_fables FableEmbedder.clean_content embed max_batch fables [] = Ok c
    /\
    forall e, In e (get_all c) ->
      exists f raw,
        In f fables /\ content f = Some raw /\
        entry_document e = FableEmbedder.clean_content raw /\
        entry_vector e = embed (entry_document e) /\
        meta_cleaned_length (entry_metadata e)
          = Z.of_nat (List.length (entry_document e)) /\
        (meta_cleaned_length (entry_metadata e)
         <= Z.of_nat (List.length raw))%Z /\
        word_count f = Some (meta_word_count (entry_metadata e)) /\
        title f = Some (meta_title (entry_metadata e)) /\
        url f = Some (meta_url (entry_metadata e)).
Proof.
  intros Hmax Hc.
  destruct (embed_fables_ok FableEmbedder.clean_content vector embed
              max_batch Hmax fables [] Hc) as (new & E & Hnew).
  exists new. split; [exact E|]. unfold get_all. intros e He.
  assert (Hs : In (Some e)
                  (map (enumerated_entry FableEmbedder.clean_content embed)
                       (enumerate fables))).
  { rewrite <- Hnew. now apply in_map. }
  apply in_map_iff in Hs. destruct Hs as ([i f] & Hf & Hin).
  assert (Hfin : In f fables).
  { destruct (map_enumerate fables) as [_ Hsnd]. rewrite <- Hsnd.
    apply in_map_iff. now exists (i, f). }
  unfold enumerated_entry, entry_of in Hf. cbn [fst snd] in Hf.
  destruct (title f) as [t|] eqn:Et; [|discriminate].
  destruct (original_title f) as [o|]; [|discriminate].
  destruct (url f) as [u|] eqn:Eu; [|discriminate].
  destruct (content f) as [raw|] eqn:Er; [|discriminate].
  destruct (word_count f) as [w|] eqn:Ew; [|discriminate].
  injection Hf as <-. exists f, raw.
  cbn [entry_document entry_vector entry_metadata meta_cleaned_length
       meta_word_count meta_title meta_url].
  split; [exact Hfin|]. split; [exact Er|]. split; [reflexivity|].
  split; [reflexivity|]. split; [reflexivity|].
  split; [apply inj_le, clean_content_length|].
  split; [exact Ew|]. split; [exact Et | exact Eu].
Qed.

Lemma stored_documents_are_cleaned_witness :
  (batch_size <= 100)%nat /\ forallb complete corpus = true /\
  exists c,
    embed_fables FableEmbedder.clean_content (@List.length ascii) 100
      corpus [] = Ok c /\
    forall e, In e (get_all c) ->
      exists f raw,
        In f corpus /\ content f = Some raw /\
        entry_document e = FableEmbedder.clean_content raw /\
        entry_vector e = List.length (entry_document e) /\
        meta_cleaned_length (entry_metadata e)
          = Z.of_nat (List.length (entry_document e)) /\
        (meta_cleaned_length (entry_metadata e)
         <= Z.of_nat (List.length raw))%Z /\
        word_count f = Some (meta_word_count (entry_metadata e)) /\
        title f = Some (meta_title (entry_metadata e)) /\
        url f = Some (meta_url (entry_metadata e)).
Proof.
  split; [apply Nat.le_refl|]. split; [reflexivity|].
  apply (stored_documents_are_cleaned nat (@List.length ascii) 100 corpus
           (Nat.le_refl _) eq_refl).
Defined.
